(** * Build-artifact checksum comparison: a verified model

    Shallow embedding of [scripts/compare_checksums.py].  The script locates
    the builds recorded for one version, hashes every file of each build's
    output directories, cross-references the two tables it collected and
    prints a report.

    Conventions of the embedding.
    - A Python [str] is a [string]; the order Python's [sorted] uses on
      strings is the lexicographic order [String.le].
    - A Python [dict] is a [gmap] where only its entries matter; both
      tables are created by [compare_checksums] as [defaultdict(dict)], so
      a subscript read of an absent key stores and returns a fresh empty
      dictionary.  Where the order of its items matters, as in the listing
      that is printed, a [dict] is the list of its items in insertion
      order (module [Ordered]); [main] runs on these, and the finite maps
      are what is left when the order is forgotten.
    - [parser.parse_args()] is taken by its outcome: the namespace, or the
      exit that argparse makes for [--help] and for a usage error.
    - A Python [set] is a [gset]; [len] of a set is [size].
    - A Python [int] is a [Z]. *)

From Stdlib Require Import ZArith List Ascii String Init.Byte.
From Equations Require Import Equations.
From stdpp Require Import base option list gmap sets strings sorting pretty.

(** ** Strings and paths *)

(** [s.startswith(prefix)]. *)
Fixpoint startswith (s prefix : string) {struct prefix} : bool :=
  match prefix, s with
  | EmptyString, _ => true
  | String _ _, EmptyString => false
  | String c prefix', String d s' => Ascii.eqb c d && startswith s' prefix'
  end.

(** [s.replace(old, new)] for a non-empty [old]: the occurrences of [old]
    are found from left to right without overlap and each is replaced by
    [new].  [skip] counts the characters of the occurrence just replaced
    that are still to be passed over. *)
Fixpoint replace_from (old new : string) (skip : nat) (s : string) : string :=
  match s with
  | EmptyString => EmptyString
  | String c rest =>
      match skip with
      | S skip' => replace_from old new skip' rest
      | O =>
          if startswith s old
          then new +:+ replace_from old new (String.length old - 1) rest
          else String c (replace_from old new 0 rest)
      end
  end.

Definition str_replace (s old new : string) : string :=
  replace_from old new 0 s.

(** The text after the last ["/"] of [path], when it has one. *)
Fixpoint after_last_sep (path : string) : option string :=
  match path with
  | EmptyString => None
  | String c rest =>
      match after_last_sep rest with
      | Some tail => Some tail
      | None => if Ascii.eqb c "/" then Some rest else None
      end
  end.

(** [os.path.basename(path)]. *)
Definition basename (path : string) : string :=
  default path (after_last_sep path).

Fixpoint endswith_sep (s : string) : bool :=
  match s with
  | EmptyString => false
  | String c EmptyString => Ascii.eqb c "/"
  | String _ rest => endswith_sep rest
  end.

(** [os.path.join(a, b)]. *)
Definition path_join (a b : string) : string :=
  if startswith b "/" then b
  else if String.eqb a "" || endswith_sep a then a +:+ b
  else a +:+ "/" +:+ b.

(** What [path_join a] writes before a second argument that does not start
    with ["/"]. *)
Definition join_prefix (a : string) : string :=
  if String.eqb a "" || endswith_sep a then a else a +:+ "/".

(** Whether [sub] occurs in [s]. *)
Fixpoint contains (s sub : string) : bool :=
  startswith s sub ||
  match s with
  | EmptyString => false
  | String _ rest => contains rest sub
  end.

(** [os.path.isabs(s)]. *)
Definition isabs (s : string) : bool := startswith s "/".

(** Lines 59 and 125: the build identifier of a build directory. *)
Definition build_number_of (build_path : string) : string :=
  str_replace (basename build_path) "build-" "".

(** ** The two tables and the findings *)

Abbreviation checksum_table := (gmap string (gmap string string)).
Abbreviation size_table := (gmap string (gmap string Z)).

(** [set(d.values())]. *)
Definition distinct_values `{Countable V} (d : gmap string V) : gset V :=
  list_to_set (map_to_list d).*2.

(** [sorted(xs)] on strings. *)
Definition sorted (xs : list string) : list string :=
  merge_sort String.le xs.

(** [d[k]] on a [defaultdict(dict)]: the value found, or a fresh empty
    dictionary that is stored under [k] before it is returned. *)
Definition defaultdict_getitem {V} (d : gmap string (gmap string V)) (k : string)
  : gmap string V * gmap string (gmap string V) :=
  match d !! k with
  | Some v => (v, d)
  | None => (∅, <[k := ∅]> d)
  end.

(** The three result dictionaries of [find_inconsistencies], together with
    the size table as the loop leaves it. *)
Record detector_state := DetectorState {
  inconsistent_files : gmap string (gmap string string);
  missing_files : gmap string (list string);
  size_differences : gmap string (gmap string Z);
  file_sizes_after : size_table
}.

(** ** [find_inconsistencies] *)

(** Line 94: the set comprehension over every inner dictionary's keys. *)
Definition all_build_numbers (checksums : checksum_table) : gset string :=
  ⋃ ((λ checksums_dict : gmap string string, dom checksums_dict)
       <$> (map_to_list checksums).*2).

(** Lines 98-102: the missing-builds test of one loop iteration. *)
Definition record_missing (all : gset string) (file_path : string)
    (build_checksums : gmap string string)
    (missing : gmap string (list string)) : gmap string (list string) :=
  let build_numbers := (map_to_list build_checksums).*1 in
  if decide (length build_numbers < size all) then
    let missing_in_builds := all ∖ list_to_set build_numbers in
    <[file_path := sorted (elements missing_in_builds)]> missing
  else missing.

(** Lines 96-113: one iteration of the loop over [checksums.items()]. *)
Definition detect_step (all : gset string) (file_path : string)
    (build_checksums : gmap string string) (st : detector_state)
  : detector_state :=
  let missing := record_missing all file_path build_checksums (missing_files st) in
  let unique_checksums := distinct_values build_checksums in
  if decide (1 < size unique_checksums) then
    let inconsistent := <[file_path := build_checksums]> (inconsistent_files st) in
    let '(file_build_sizes, sizes) :=
      defaultdict_getitem (file_sizes_after st) file_path in
    let unique_sizes := distinct_values file_build_sizes in
    if decide (1 < size unique_sizes) then
      DetectorState inconsistent missing
        (<[file_path := file_build_sizes]> (size_differences st)) sizes
    else
      DetectorState inconsistent missing (size_differences st) sizes
  else
    DetectorState (inconsistent_files st) missing (size_differences st)
      (file_sizes_after st).

Definition find_inconsistencies (checksums : checksum_table)
    (file_sizes : size_table) : detector_state :=
  map_fold (detect_step (all_build_numbers checksums))
    (DetectorState ∅ ∅ ∅ file_sizes) checksums.

(** What the loop records for one path, entry by entry.  [o] is the path's
    entry of the checksum table, [all] the set of line 94 and [sizes] the
    path's entry of the size table on entry to the function. *)
Definition inconsistent_entry (o : option (gmap string string))
  : option (gmap string string) :=
  bc ← o; if decide (1 < size (distinct_values bc)) then Some bc else None.

Definition missing_entry (all : gset string) (o : option (gmap string string))
  : option (list string) :=
  bc ← o;
  if decide (size (dom bc) < size all)
  then Some (sorted (elements (all ∖ dom bc))) else None.

Definition size_entry (o : option (gmap string string))
    (sizes : option (gmap string Z)) : option (gmap string Z) :=
  _ ← inconsistent_entry o;
  if decide (1 < size (distinct_values (default ∅ sizes)))
  then Some (default ∅ sizes) else None.

Definition sizes_after_entry (o : option (gmap string string))
    (sizes : option (gmap string Z)) : option (gmap string Z) :=
  match sizes with
  | Some s => Some s
  | None => _ ← inconsistent_entry o; Some ∅
  end.

(** ** The outside world

    The script reads the file system and writes to standard output and to
    the report file.  The file system is not changed while the script reads
    it, so the calls into [os] are answers of a fixed [world]; a call that
    raises [OSError] answers [None].  What the script does to the outside
    is recorded as a trace of events. *)

Record world := World {
  (** [os.path.exists(path)] *)
  path_exists : string → bool;
  (** [os.listdir(path)] *)
  listdir : string → option (list string);
  (** [os.walk(top)]: the [(root, dirs, files)] triples in walk order *)
  walk : string → list (string * list string * list string);
  (** the bytes [open(path, "rb")] gives access to *)
  file_bytes : string → option (list byte);
  (** [os.path.getsize(path)] *)
  getsize : string → option Z;
  (** [os.path.relpath(path, start)] *)
  relpath : string → string → string;
  (** [os.path.abspath(path)] *)
  abspath : string → string;
  (** [os.getcwd()] *)
  getcwd : string;
  (** [__file__] *)
  script_file : string;
  (** whether [open(path, "w")] succeeds *)
  can_write : string → bool
}.

(** One category of the JSON report: its count and its per-file detail. *)
Record report_section (V : Type) := ReportSection {
  count : nat;
  files : gmap string V
}.
Arguments ReportSection {V} _ _.
Arguments count {V} _.
Arguments files {V} _.

(** The dictionary [report] of [generate_report]. *)
Record report := Report {
  builds_analyzed : list string;
  total_builds : nat;
  report_inconsistent_files : report_section (gmap string string);
  report_missing_files : report_section (list string);
  report_size_differences : report_section (gmap string Z)
}.

Inductive event :=
  | EvPrint (line : string)                     (* [print(line)] *)
  | EvOpen (path : string)                      (* [open(path, "rb")] *)
  | EvGetSize (path : string)                   (* [os.path.getsize(path)] *)
  | EvJsonDump (path : string) (doc : report)   (* [json.dump(doc, f)] *)
  | EvHelp (text : string)      (* argparse writes the help to stdout *)
  | EvUsage (text : string).    (* argparse writes usage and error to stderr *)

Inductive exn :=
  | OSError (path : string)
  | SystemExit (code : Z).

(** A computation appends to the trace and returns a value or raises. *)
Definition io (A : Type) : Type := list event → list event * (exn + A).

Global Instance io_ret : MRet io := λ A a tr, (tr, inr a).
Global Instance io_bind : MBind io := λ A B k m tr,
  match m tr with
  | (tr', inr a) => k a tr'
  | (tr', inl e) => (tr', inl e)
  end.

Definition emit (e : event) : io unit := λ tr, (tr ++ [e], inr tt).
Definition raise {A} (e : exn) : io A := λ tr, (tr, inl e).
Definition print (line : string) : io unit := emit (EvPrint line).

(** [for x in xs: acc = body(x, acc)]. *)
Fixpoint for_each {A S} (xs : list A) (body : A → S → io S) (acc : S) : io S :=
  match xs with
  | [] => mret acc
  | x :: xs' => acc' ← body x acc; for_each xs' body acc'
  end.

(** The exit status of the process for the way [main] ends: a normal
    return is 0, [sys.exit(code)] is [code], an uncaught exception is 1. *)
Definition exit_status (r : exn + unit) : Z :=
  match r with
  | inr _ => 0
  | inl (SystemExit code) => code
  | inl (OSError _) => 1
  end.

(** ** [find_builds] *)

Definition os_listdir (w : world) (path : string) : io (list string) :=
  match listdir w path with
  | Some items => mret items
  | None => raise (OSError path)
  end.

Definition find_builds (w : world) (dist_record_dir version : string)
  : io (list string) :=
  let version_dir := path_join dist_record_dir version in
  if negb (path_exists w version_dir) then
    print ("No builds found for version " +:+ version);;
    mret []
  else
    items ← os_listdir w version_dir;
    let builds :=
      foldl (λ builds item,
               if startswith item "build-"
               then builds ++ [path_join version_dir item]
               else builds) [] items in
    mret (sorted builds).

(** ** [calculate_file_checksum] *)

(** A [hashlib] hash object such as [hashlib.sha256()]: the new object,
    [update] and [hexdigest].  [hashlib] documents that repeated calls of
    [update] are equivalent to a single call with the concatenation of the
    arguments; feeding no bytes to a new object leaves it as it is. *)
Class HashObject (H : Type) := {
  hash_new : H;
  hash_update : H → list byte → H;
  hash_hexdigest : H → string;
  hash_update_new_nil : hash_update hash_new [] = hash_new;
  hash_update_app h a b :
    hash_update (hash_update h a) b = hash_update h (a ++ b)
}.

(** [f.read(n)] on a file opened for reading, the file being the bytes
    not yet read: the block read, and the file after the call. *)
Definition file_read (n : nat) (f : list byte) : list byte * list byte :=
  (take n f, drop n f).

(** The size of the blocks [calculate_file_checksum] reads. *)
Definition block_size : nat := 4096.

(** The blocks the loop of lines 17-18 gets from [f.read(4096)] before the
    empty read that ends it. *)
Equations? blocks_read (f : list byte) : list (list byte)
  by wf (length f) lt :=
blocks_read f with Logic.inspect (fst (file_read block_size f)) := {
  | exist _ nil _ => nil
  | exist _ (cons b block) Hread =>
      cons (cons b block) (blocks_read (snd (file_read block_size f))) }.
Proof.
  unfold file_read in *. cbn [fst snd] in *.
  destruct f as [|x f]; [by rewrite take_nil in Hread|]. clear.
  change block_size with (S 4095). generalize 4095. intros n.
  cbn [drop length]. rewrite length_drop. lia.
Qed.

Section hashing.
Context `{HashObject H}.

(** Lines 17-18: [for byte_block in iter(lambda: f.read(4096), b""):
    sha256_hash.update(byte_block)]. *)
Equations? update_blocks (f : list byte) (sha256_hash : H) : H
  by wf (length f) lt :=
update_blocks f sha256_hash
  with Logic.inspect (fst (file_read block_size f)) := {
  | exist _ nil _ => sha256_hash
  | exist _ (cons b block) Hread =>
      update_blocks (snd (file_read block_size f))
        (hash_update sha256_hash (cons b block)) }.
Proof.
  unfold file_read in *. cbn [fst snd] in *.
  destruct f as [|x f]; [by rewrite take_nil in Hread|]. clear.
  change block_size with (S 4095). generalize 4095. intros n.
  cbn [drop length]. rewrite length_drop. lia.
Qed.

(** The digest of the bytes of one file. *)
Definition checksum_of_bytes (content : list byte) : string :=
  hash_hexdigest (update_blocks content hash_new).

Definition calculate_file_checksum (w : world) (file_path : string) : io string :=
  emit (EvOpen file_path);;
  match file_bytes w file_path with
  | Some content => mret (checksum_of_bytes content)
  | None => raise (OSError file_path)
  end.

End hashing.

(** ** SHA-256, the hash [hashlib.sha256] computes (FIPS 180-4)

    A 32-bit word is a [Z] in the range [0, 2^32); additions wrap around.
    The hash object keeps the chaining value of the 64-byte blocks absorbed
    so far, the bytes of the last, incomplete block, and the number of
    bytes fed to it. *)

Module Sha256.

Definition wrap (x : Z) : Z := x mod 2 ^ 32.
Definition add32 (x y : Z) : Z := wrap (x + y).
Definition rotr (n x : Z) : Z :=
  wrap (Z.lor (Z.shiftr x n) (Z.shiftl x (32 - n))).
Definition shr (n x : Z) : Z := Z.shiftr x n.
Definition not32 (x : Z) : Z := Z.lxor x 0xffffffff.

Definition Ch (x y z : Z) : Z := Z.lxor (Z.land x y) (Z.land (not32 x) z).
Definition Maj (x y z : Z) : Z :=
  Z.lxor (Z.lxor (Z.land x y) (Z.land x z)) (Z.land y z).
Definition Sigma0 (x : Z) : Z := Z.lxor (Z.lxor (rotr 2 x) (rotr 13 x)) (rotr 22 x).
Definition Sigma1 (x : Z) : Z := Z.lxor (Z.lxor (rotr 6 x) (rotr 11 x)) (rotr 25 x).
Definition sigma0 (x : Z) : Z := Z.lxor (Z.lxor (rotr 7 x) (rotr 18 x)) (shr 3 x).
Definition sigma1 (x : Z) : Z := Z.lxor (Z.lxor (rotr 17 x) (rotr 19 x)) (shr 10 x).

(** The largest [r] below [2 ^ bits] above [r0] with [r ^ 3 ≤ n], found
    bit by bit from the top. *)
Fixpoint cube_root_bits (bits : nat) (n r0 : Z) : Z :=
  match bits with
  | O => r0
  | S bits' =>
      let r1 := (r0 + 2 ^ Z.of_nat bits')%Z in
      cube_root_bits bits' n (if (r1 ^ 3 <=? n)%Z then r1 else r0)
  end.

Definition primes : list Z := Eval vm_compute in
  List.filter (λ p : Z, forallb (λ d : Z, negb (p mod d =? 0)%Z || (p <=? d)%Z)
                          (Z.of_nat <$> seq 2 18))
    (Z.of_nat <$> seq 2 310).

(** The round constants: the first 32 bits of the fractional parts of the
    cube roots of the first 64 primes. *)
Definition K : list Z := Eval vm_compute in
  (λ p : Z, wrap (cube_root_bits 36 (p * 2 ^ 96) 0)) <$> primes.

(** The initial chaining value: the first 32 bits of the fractional parts
    of the square roots of the first 8 primes. *)
Definition initial_chain : list Z := Eval vm_compute in
  (λ p : Z, wrap (Z.sqrt (p * 2 ^ 64))) <$> take 8 primes.

Definition byte_to_Z (b : byte) : Z := Z.of_N (Byte.to_N b).
Definition Z_to_byte (x : Z) : byte :=
  default Byte.x00 (Byte.of_N (Z.to_N (x mod 256))).

(** The big-endian words of a block. *)
Fixpoint words_of (block : list byte) : list Z :=
  match block with
  | b0 :: b1 :: b2 :: b3 :: rest =>
      (byte_to_Z b0 * 2 ^ 24 + byte_to_Z b1 * 2 ^ 16
       + byte_to_Z b2 * 2 ^ 8 + byte_to_Z b3)%Z :: words_of rest
  | _ => []
  end.

(** The message schedule: [n] more words after the words [w]. *)
Fixpoint extend (n : nat) (w : list Z) : list Z :=
  match n with
  | O => w
  | S n' =>
      let t := length w in
      let at_ i := nth (t - i) w 0%Z in
      extend n'
        (w ++ [add32 (add32 (sigma1 (at_ 2)) (at_ 7))
                     (add32 (sigma0 (at_ 15)) (at_ 16))])
  end.

(** One round, for the constant and schedule word [kw]. *)
Definition round (v : list Z) (kw : Z * Z) : list Z :=
  match v with
  | [a; b; c; d; e; f; g; h] =>
      let t1 := add32 (add32 (add32 h (Sigma1 e)) (Ch e f g))
                      (add32 (fst kw) (snd kw)) in
      let t2 := add32 (Sigma0 a) (Maj a b c) in
      [add32 t1 t2; a; b; c; add32 d t1; e; f; g]
  | _ => v
  end.

(** The compression function. *)
Definition compress (chain : list Z) (block : list byte) : list Z :=
  let w := extend 48 (words_of block) in
  zip_with add32 chain (foldl round chain (zip K w)).

(** Absorb the complete 64-byte blocks at the front of [data]; what is
    left is shorter than a block. *)
Equations? absorb (chain : list Z) (data : list byte) : list Z * list byte
  by wf (length data) lt :=
absorb chain data with le_lt_dec 64 (length data) := {
  | left _ => absorb (compress chain (take 64 data)) (drop 64 data)
  | right _ => (chain, data) }.
Proof. rewrite length_drop. lia. Qed.

(** The padding of a message of [total] bytes: the bit [1], zeros up to
    eight bytes before the end of a block, and the length in bits. *)
Definition padding (total : nat) : list byte :=
  let zeros := ((119 - total mod 64) mod 64)%nat in
  let bits := (8 * Z.of_nat total)%Z in
  Byte.x80 :: replicate zeros Byte.x00
  ++ ((λ i : nat, Z_to_byte (Z.shiftr bits (8 * Z.of_nat i)))
        <$> [7; 6; 5; 4; 3; 2; 1; 0]%nat).

Definition hex_digit (x : Z) : ascii :=
  nth (Z.to_nat x) (list_ascii_of_string "0123456789abcdef") "0"%char.

Definition hex_word (x : Z) : string :=
  string_of_list_ascii
    ((λ i : nat, hex_digit (Z.shiftr x (4 * Z.of_nat i) mod 16))
       <$> [7; 6; 5; 4; 3; 2; 1; 0]%nat).

(** The state of a [hashlib.sha256] object. *)
Record state := State {
  chain : list Z;
  buffer : list byte;
  total : nat
}.

Definition new : state := State initial_chain [] 0.

Definition update (h : state) (data : list byte) : state :=
  let '(chain', rest) := absorb (chain h) (buffer h ++ data) in
  State chain' rest (total h + length data).

Definition hexdigest (h : state) : string :=
  let '(chain', _) := absorb (chain h) (buffer h ++ padding (total h)) in
  String.concat "" (hex_word <$> chain').

(** [hashlib.sha256(message).hexdigest()]: the padded message, absorbed
    block by block from the initial chaining value. *)
Definition sha256 (message : list byte) : string :=
  String.concat ""
    (hex_word <$> (absorb initial_chain (message ++ padding (length message))).1).

End Sha256.

(** ** [get_all_files], [get_relative_path] *)

Definition get_all_files (w : world) (directory : string) : list string :=
  '(root, _, files) ← walk w directory;
  file ← files;
  [path_join root file].

Definition get_relative_path (w : world) (file_path base_dir : string) : string :=
  relpath w file_path base_dir.

(** ** [compare_checksums] *)

(** [d[k1][k2] = v] on a [defaultdict(dict)]. *)
Definition defaultdict_setitem {V} (d : gmap string (gmap string V))
    (k1 k2 : string) (v : V) : gmap string (gmap string V) :=
  let '(row, d') := defaultdict_getitem d k1 in
  <[k1 := <[k2 := v]> row]> d'.

Definition os_getsize (w : world) (path : string) : io Z :=
  emit (EvGetSize path);;
  match getsize w path with
  | Some size => mret size
  | None => raise (OSError path)
  end.

Section collector.
Context `{HashObject H}.

(** Lines 65-67 (and 73-75, 81-83): the body of the loop over the files of
    one output directory. *)
Definition record_file (w : world) (build_path build_number file_path : string)
    (tables : checksum_table * size_table) : io (checksum_table * size_table) :=
  let '(checksums, file_sizes) := tables in
  let rel_path := get_relative_path w file_path build_path in
  checksum ← calculate_file_checksum w file_path;
  let checksums := defaultdict_setitem checksums rel_path build_number checksum in
  size ← os_getsize w file_path;
  let file_sizes := defaultdict_setitem file_sizes rel_path build_number size in
  mret (checksums, file_sizes).

(** Lines 62-67, 70-75 and 78-83 are the same block for the three output
    directories; [name] is the directory the block is written for. *)
Definition process_output_dir (w : world) (build_path build_number name : string)
    (tables : checksum_table * size_table) : io (checksum_table * size_table) :=
  let dist_dir := path_join build_path name in
  if path_exists w dist_dir then
    for_each (get_all_files w dist_dir)
      (record_file w build_path build_number) tables
  else mret tables.

(** Lines 58-83: the body of the loop over the builds. *)
Definition process_build (w : world) (build_path : string)
    (tables : checksum_table * size_table) : io (checksum_table * size_table) :=
  let build_number := build_number_of build_path in
  tables ← process_output_dir w build_path build_number "dist-firefox" tables;
  tables ← process_output_dir w build_path build_number "dist-chrome" tables;
  process_output_dir w build_path build_number "dist-zip" tables.

Definition compare_checksums (w : world) (builds : list string)
  : io (checksum_table * size_table) :=
  for_each builds (process_build w) (∅, ∅).

End collector.

(** The output directories of lines 62, 70 and 78, in the order the
    collector visits them. *)
Definition output_dirs : list string :=
  ["dist-firefox"; "dist-chrome"; "dist-zip"].

(** The files the collector visits for one build and for a list of builds,
    in the order it visits them. *)
Definition build_files (w : world) (build_path : string) : list string :=
  name ← output_dirs;
  if path_exists w (path_join build_path name)
  then get_all_files w (path_join build_path name) else [].

Definition visited_files (w : world) (builds : list string) : list string :=
  builds ≫= build_files w.

(** Whether a file can be opened for reading and its size be read. *)
Definition file_ok (w : world) (file_path : string) : bool :=
  bool_decide (is_Some (file_bytes w file_path))
  && bool_decide (is_Some (getsize w file_path)).

(** What the collector does to the outside for one file it can read. *)
Definition file_events (file_path : string) : list event :=
  [EvOpen file_path; EvGetSize file_path].


(** ** The tables in insertion order

    A Python [dict] yields its items in the order in which its keys were
    first inserted, and the listing that [generate_report] prints follows
    that order.  The finite maps above forget it.  [Ordered] has the same
    functions, line for line, on dictionaries kept as the list of their
    items in insertion order; [to_map] and [to_table] forget the order. *)

Module Ordered.

Definition dict (V : Type) : Type := list (string * V).

(** [d.get(k)]. *)
Fixpoint get {V} (d : dict V) (k : string) : option V :=
  match d with
  | [] => None
  | (k', v) :: d' => if decide (k' = k) then Some v else get d' k
  end.

(** [d[k] = v]: a key that is present keeps its place and gets the new
    value, a new key goes to the end. *)
Fixpoint setitem {V} (d : dict V) (k : string) (v : V) : dict V :=
  match d with
  | [] => [(k, v)]
  | (k', v') :: d' =>
      if decide (k' = k) then (k', v) :: d' else (k', v') :: setitem d' k v
  end.

Definition to_map {V} (d : dict V) : gmap string V := list_to_map d.

Definition to_table {V} (d : dict (dict V)) : gmap string (gmap string V) :=
  to_map <$> to_map d.

(** [d[k]] on a [defaultdict(dict)]: a missing key is first given an empty
    dictionary, at the end. *)
Definition defaultdict_getitem {V} (d : dict (dict V)) (k : string)
  : dict V * dict (dict V) :=
  match get d k with
  | Some row => (row, d)
  | None => ([], setitem d k [])
  end.

(** [d[k1][k2] = v] on a [defaultdict(dict)]: the row is changed in place,
    so [k1] keeps its place in [d]. *)
Definition defaultdict_setitem {V} (d : dict (dict V)) (k1 k2 : string) (v : V)
  : dict (dict V) :=
  let '(row, d') := defaultdict_getitem d k1 in
  setitem d' k1 (setitem row k2 v).

(** *** [find_inconsistencies] *)

Record findings := Findings {
  inconsistent_files : dict (dict string);
  missing_files : dict (list string);
  size_differences : dict (dict Z);
  file_sizes_after : dict (dict Z)
}.

(** Line 94. *)
Definition all_build_numbers (checksums : dict (dict string)) : gset string :=
  ⋃ ((λ checksums_dict : dict string, list_to_set checksums_dict.*1)
       <$> checksums.*2).

(** Lines 98-102. *)
Definition record_missing (all : gset string) (file_path : string)
    (build_checksums : dict string) (missing : dict (list string))
  : dict (list string) :=
  let build_numbers := build_checksums.*1 in
  if decide (length build_numbers < size all) then
    let missing_in_builds := all ∖ list_to_set build_numbers in
    setitem missing file_path (sorted (elements missing_in_builds))
  else missing.

(** Lines 96-113: one iteration of the loop over [checksums.items()]. *)
Definition detect_step (all : gset string) (st : findings)
    (item : string * dict string) : findings :=
  let file_path := item.1 in
  let build_checksums := item.2 in
  let missing := record_missing all file_path build_checksums (missing_files st) in
  let unique_checksums : gset string := list_to_set build_checksums.*2 in
  if decide (1 < size unique_checksums) then
    let inconsistent := setitem (inconsistent_files st) file_path build_checksums in
    let '(file_build_sizes, sizes) :=
      defaultdict_getitem (file_sizes_after st) file_path in
    let unique_sizes : gset Z := list_to_set file_build_sizes.*2 in
    if decide (1 < size unique_sizes) then
      Findings inconsistent missing
        (setitem (size_differences st) file_path file_build_sizes) sizes
    else
      Findings inconsistent missing (size_differences st) sizes
  else
    Findings (inconsistent_files st) missing (size_differences st)
      (file_sizes_after st).

Definition find_inconsistencies (checksums : dict (dict string))
    (file_sizes : dict (dict Z)) : findings :=
  foldl (detect_step (all_build_numbers checksums))
    (Findings [] [] [] file_sizes) checksums.

(** The findings with the order forgotten. *)
Definition to_detector_state (found : findings) : detector_state :=
  DetectorState (to_table (inconsistent_files found))
    (to_map (missing_files found))
    (to_table (size_differences found))
    (to_table (file_sizes_after found)).

(** *** [compare_checksums] *)

Section collector.
Context `{HashObject H}.

(** Lines 65-67 (and 73-75, 81-83). *)
Definition record_file (w : world) (build_path build_number file_path : string)
    (tables : dict (dict string) * dict (dict Z))
  : io (dict (dict string) * dict (dict Z)) :=
  let '(checksums, file_sizes) := tables in
  let rel_path := get_relative_path w file_path build_path in
  checksum ← calculate_file_checksum w file_path;
  let checksums := defaultdict_setitem checksums rel_path build_number checksum in
  size ← os_getsize w file_path;
  let file_sizes := defaultdict_setitem file_sizes rel_path build_number size in
  mret (checksums, file_sizes).

(** Lines 62-67, 70-75 and 78-83, for the output directory [name]. *)
Definition process_output_dir (w : world) (build_path build_number name : string)
    (tables : dict (dict string) * dict (dict Z))
  : io (dict (dict string) * dict (dict Z)) :=
  let dist_dir := path_join build_path name in
  if path_exists w dist_dir then
    for_each (get_all_files w dist_dir)
      (record_file w build_path build_number) tables
  else mret tables.

(** Lines 58-83. *)
Definition process_build (w : world) (build_path : string)
    (tables : dict (dict string) * dict (dict Z))
  : io (dict (dict string) * dict (dict Z)) :=
  let build_number := build_number_of build_path in
  tables ← process_output_dir w build_path build_number "dist-firefox" tables;
  tables ← process_output_dir w build_path build_number "dist-chrome" tables;
  process_output_dir w build_path build_number "dist-zip" tables.

Definition compare_checksums (w : world) (builds : list string)
  : io (dict (dict string) * dict (dict Z)) :=
  for_each builds (process_build w) ([], []).

End collector.

(** The two tables with the order forgotten. *)
Definition to_tables (tables : dict (dict string) * dict (dict Z))
  : checksum_table * size_table :=
  (to_table tables.1, to_table tables.2).

(** A dictionary has every key once; so has every row of a table. *)
Definition keys_unique {V} (d : dict V) : Prop := NoDup d.*1.

Definition rows_unique {V} (d : dict (dict V)) : Prop :=
  Forall (λ item, keys_unique item.2) d.

End Ordered.

(** ** [generate_report] *)

Definition newline : string := String (ascii_of_nat 10) EmptyString.

(** [sep.join(xs)]. *)
Definition str_join (sep : string) (xs : list string) : string :=
  String.concat sep xs.

(** Lines 145-151: the summary. *)
Definition print_summary (build_numbers : list string)
    (found : Ordered.findings) : io unit :=
  print (newline +:+ "Checksum Comparison Report");;
  print "========================";;
  print ("Builds analyzed: " +:+ str_join ", " build_numbers);;
  print ("Total builds: " +:+ pretty (length build_numbers));;
  print ("Files with inconsistent checksums: "
         +:+ pretty (length (Ordered.inconsistent_files found)));;
  print ("Files missing in some builds: "
         +:+ pretty (length (Ordered.missing_files found)));;
  print ("Files with size differences: "
         +:+ pretty (length (Ordered.size_differences found))).

(** Lines 154-159: the listing of the inconsistent files, each with the
    checksum of every build, in the order of the dictionaries.  An empty
    dictionary is false. *)
Definition print_inconsistent
    (inconsistent : Ordered.dict (Ordered.dict string)) : io unit :=
  match inconsistent with
  | [] => mret tt
  | _ :: _ =>
      print (newline +:+ "Inconsistent Files:");;
      for_each inconsistent
        (λ item _,
           print (newline +:+ "  " +:+ item.1 +:+ ":");;
           for_each item.2
             (λ entry _,
                print ("    Build " +:+ entry.1 +:+ ": " +:+ entry.2)) tt) tt
  end.

(** Lines 163-165: [with open(output_file, 'w') as f: json.dump(...)]. *)
Definition write_report (w : world) (output_file : string) (doc : report)
  : io unit :=
  if can_write w output_file then emit (EvJsonDump output_file doc)
  else raise (OSError output_file).

(** Python's truth value of an optional string: [None] and [""] are false. *)
Definition truthy (s : option string) : bool :=
  match s with
  | Some EmptyString | None => false
  | Some _ => true
  end.

(** Lines 127-142: the dictionary [report], as the JSON value that is
    dumped: its objects are finite maps. *)
Definition report_of (build_numbers : list string) (found : Ordered.findings)
  : report :=
  Report build_numbers (length build_numbers)
    (ReportSection (length (Ordered.inconsistent_files found))
       (Ordered.to_table (Ordered.inconsistent_files found)))
    (ReportSection (length (Ordered.missing_files found))
       (Ordered.to_map (Ordered.missing_files found)))
    (ReportSection (length (Ordered.size_differences found))
       (Ordered.to_table (Ordered.size_differences found))).

Definition generate_report (w : world) (found : Ordered.findings)
    (builds : list string) (output_file : option string) : io unit :=
  let build_numbers := build_number_of <$> builds in
  let doc := report_of build_numbers found in
  print_summary build_numbers found;;
  print_inconsistent (Ordered.inconsistent_files found);;
  match output_file with
  | Some path =>
      if truthy output_file then
        write_report w path doc;;
        print (newline +:+ "Detailed report saved to " +:+ path)
      else mret tt
  | None => mret tt
  end.

(** ** [main] *)

(** The text of [path] up to and including its last ["/"]. *)
Fixpoint upto_last_sep (path : string) : string :=
  match path with
  | EmptyString => EmptyString
  | String c rest =>
      match after_last_sep path with
      | Some _ => String c (upto_last_sep rest)
      | None => EmptyString
      end
  end.

Fixpoint all_sep (s : string) : bool :=
  match s with
  | EmptyString => true
  | String c rest => Ascii.eqb c "/" && all_sep rest
  end.

(** [s.rstrip("/")]. *)
Fixpoint rstrip_sep (s : string) : string :=
  match s with
  | EmptyString => EmptyString
  | String c rest => if all_sep s then EmptyString else String c (rstrip_sep rest)
  end.

(** [os.path.dirname(path)]. *)
Definition dirname (path : string) : string :=
  let head := upto_last_sep path in
  if all_sep head then head else rstrip_sep head.

(** The namespace [parse_args] returns: [args.version],
    [args.dist_record] and [args.output] ([None] without [--output]). *)
Record arguments := Arguments_ {
  arg_version : string;
  arg_dist_record : string;
  arg_output : option string
}.

(** Line 173: what [parser.parse_args()] makes of the command line.  It
    returns the namespace; or, for [-h] and [--help], it writes the help
    and raises [SystemExit(0)]; or, for a command line it does not accept,
    it writes the usage and the error and raises [SystemExit(2)]. *)
Inductive parse_outcome :=
  | Parsed (args : arguments)
  | HelpExit (text : string)
  | UsageExit (text : string).

Definition parse_args (argv : parse_outcome) : io arguments :=
  match argv with
  | Parsed args => mret args
  | HelpExit text => emit (EvHelp text);; raise (SystemExit 0)
  | UsageExit text => emit (EvUsage text);; raise (SystemExit 2)
  end.

(** Lines 176-177: the records root. *)
Definition resolve_dist_record (w : world) (args : arguments) : string :=
  let script_dir := dirname (abspath w (script_file w)) in
  abspath w (path_join script_dir (arg_dist_record args)).

(** Lines 197-199: the report file. *)
Definition resolve_output (w : world) (args : arguments) : option string :=
  match arg_output args with
  | Some path =>
      if truthy (Some path) && negb (isabs path)
      then Some (abspath w (path_join (getcwd w) path))
      else Some path
  | None => None
  end.

Section main.
Context `{HashObject H}.

Definition main (w : world) (argv : parse_outcome) : io unit :=
  args ← parse_args argv;
  let dist_record_dir := resolve_dist_record w args in
  builds ← find_builds w dist_record_dir (arg_version args);
  match builds with
  | [] => raise (SystemExit 1)
  | _ :: _ =>
      print ("Found " +:+ pretty (length builds) +:+ " builds for version "
             +:+ arg_version args);;
      for_each builds (λ build _, print ("  - " +:+ basename build)) tt;;
      print (newline +:+ "Calculating checksums...");;
      '(checksums, file_sizes) ← Ordered.compare_checksums w builds;
      print "Finding inconsistencies...";;
      let found := Ordered.find_inconsistencies checksums file_sizes in
      let output_file := resolve_output w args in
      generate_report w found builds output_file
  end.

End main.

(** ** Reading a run *)

(** The events of a computation started on the empty trace, and how it
    ends. *)
Definition events {A} (m : io A) : list event := (m []).1.
Definition outcome {A} (m : io A) : exn + A := (m []).2.

Definition is_print (e : event) : Prop := ∃ line, e = EvPrint line.

(** A computation that prints and does nothing else. *)
Definition prints_only (m : io unit) : Prop :=
  outcome m = inr tt ∧ Forall is_print (events m).

(** A computation all of whose events satisfy [Q]. *)
Definition emits_only {A} (Q : event → Prop) (m : io A) : Prop :=
  Forall Q (events m).

(** The events of reading a file: opening it and reading its size. *)
Definition is_file_event (e : event) : Prop :=
  ∃ path, e = EvOpen path ∨ e = EvGetSize path.

Definition is_dump (e : event) : Prop := ∃ path doc, e = EvJsonDump path doc.

(** A computation that raises nothing but [OSError]. *)
Definition raises_only_oserror {A} (m : io A) : Prop :=
  ∀ e, outcome m = inl e → ∃ path, e = OSError path.

(** What [main] prints between the locator and the collector. *)
Definition found_builds_lines (version : string) (builds : list string)
  : io unit :=
  print ("Found " +:+ pretty (length builds) +:+ " builds for version "
         +:+ version);;
  for_each builds (λ build _, print ("  - " +:+ basename build)) tt;;
  print (newline +:+ "Calculating checksums...").

(** A computation that only appends to the trace it is started on, and
    whose events and outcome do not depend on that trace. *)
Definition appends {A} (m : io A) : Prop :=
  ∀ tr, m tr = (tr ++ events m, outcome m).

(** The seven lines of the summary, for the build numbers and the three
    counts. *)
Definition summary_lines (build_numbers : list string)
    (inconsistent missing sizes : nat) : list event :=
  [EvPrint (newline +:+ "Checksum Comparison Report");
   EvPrint "========================";
   EvPrint ("Builds analyzed: " +:+ str_join ", " build_numbers);
   EvPrint ("Total builds: " +:+ pretty (length build_numbers));
   EvPrint ("Files with inconsistent checksums: " +:+ pretty inconsistent);
   EvPrint ("Files missing in some builds: " +:+ pretty missing);
   EvPrint ("Files with size differences: " +:+ pretty sizes)].

(** The lines that list the inconsistent files in the order of [items]:
    none when there is no such file, else a heading and then, for each
    file, its path and one line for each of its builds. *)
Definition listing_lines (items : list (string * list (string * string)))
  : list event :=
  match items with
  | [] => []
  | _ :: _ =>
      EvPrint (newline +:+ "Inconsistent Files:")
      :: (items ≫= λ item,
            EvPrint (newline +:+ "  " +:+ item.1 +:+ ":")
            :: ((λ entry, EvPrint ("    Build " +:+ entry.1 +:+ ": " +:+ entry.2))
                  <$> item.2))
  end.

(** The report document for findings given as finite maps. *)
Definition report_document (build_numbers : list string)
    (found : detector_state) : report :=
  Report build_numbers (length build_numbers)
    (ReportSection (size (inconsistent_files found)) (inconsistent_files found))
    (ReportSection (size (missing_files found)) (missing_files found))
    (ReportSection (size (size_differences found)) (size_differences found)).

(** What [generate_report] does about the report file when it can be
    written: nothing without a file name, else the dump and one line. *)
Definition report_file_events (output_file : option string) (doc : report)
  : list event :=
  match output_file with
  | Some path =>
      if truthy output_file
      then [EvJsonDump path doc;
            EvPrint (newline +:+ "Detailed report saved to " +:+ path)]
      else []
  | None => []
  end.

(** ** Concrete tables *)

(** Two builds of one file with different checksums. *)
Definition two_build_checksums : checksum_table :=
  {[ "dist-zip/app.bin" := {[ "001" := "aa"; "002" := "bb" ]} ]}.

(** The sizes of that file in the two builds. *)
Definition two_build_sizes : size_table :=
  {[ "dist-zip/app.bin" := {[ "001" := 1%Z; "002" := 2%Z ]} ]}.

(** Two files, each produced by one build only. *)
Definition lone_build_checksums : checksum_table :=
  {[ "dist-zip/a" := {[ "001" := "aa" ]};
     "dist-zip/b" := {[ "002" := "bb" ]} ]}.


(** ** A concrete records directory

    Version [1.0] under [/r] has the builds [build-001] and [build-002],
    each with one file [dist-zip/app.bin]: the byte [A] in the first, the
    bytes [BB] in the second.  The version directory also holds a file
    that is not a build. *)

(** [path] relative to [start], for a [path] below [start]. *)
Definition below (path start : string) : string :=
  if startswith path (start +:+ "/")
  then String.substring (String.length start + 1)
         (String.length path - (String.length start + 1)) path
  else path.

Definition example_world : world := {|
  path_exists path :=
    bool_decide (path ∈ ["/r/1.0"; "/r/1.0/build-001/dist-zip";
                         "/r/1.0/build-002/dist-zip"]);
  listdir path :=
    if decide (path = "/r/1.0")
    then Some ["notes.txt"; "build-002"; "build-001"] else None;
  walk top :=
    if bool_decide (top ∈ ["/r/1.0/build-001/dist-zip";
                           "/r/1.0/build-002/dist-zip"])
    then [(top, [], ["app.bin"])] else [];
  file_bytes path :=
    if decide (path = "/r/1.0/build-001/dist-zip/app.bin")
    then Some [Byte.x41]
    else if decide (path = "/r/1.0/build-002/dist-zip/app.bin")
    then Some [Byte.x42; Byte.x42]
    else None;
  getsize path :=
    if decide (path = "/r/1.0/build-001/dist-zip/app.bin") then Some 1%Z
    else if decide (path = "/r/1.0/build-002/dist-zip/app.bin") then Some 2%Z
    else None;
  relpath := below;
  abspath path := path;
  getcwd := "/home/user";
  script_file := "/repo/scripts/compare_checksums.py";
  can_write _ := true
|}.

(** The same directory listed in another order. *)
Definition example_world_relisted : world := {|
  path_exists := path_exists example_world;
  listdir path :=
    if decide (path = "/r/1.0")
    then Some ["build-001"; "notes.txt"; "build-002"] else None;
  walk := walk example_world;
  file_bytes := file_bytes example_world;
  getsize := getsize example_world;
  relpath := relpath example_world;
  abspath := abspath example_world;
  getcwd := getcwd example_world;
  script_file := script_file example_world;
  can_write := can_write example_world
|}.

Definition example_arguments : arguments :=
  Arguments_ "1.0" "/r" (Some "report.json").

(** A version with no directory under the records root. *)
Definition absent_arguments : arguments :=
  Arguments_ "9.9" "/r" (Some "report.json").

(** The tables the collector builds for that directory. *)
Definition example_checksums : checksum_table :=
  {[ "dist-zip/app.bin" :=
       {[ "001" := "559aead08264d5795d3909718cdd05abd49572e84fe55590eef31a88a08fdffd";
          "002" := "fc686c314491e1f68bf1899fc54b2327353c44dd1ab4ed56538ef623edd1e866" ]} ]}.

Definition example_sizes : size_table :=
  {[ "dist-zip/app.bin" := {[ "001" := 1%Z; "002" := 2%Z ]} ]}.

Definition example_builds : list string :=
  ["/r/1.0/build-001"; "/r/1.0/build-002"].

(** The records directory with a version directory that holds no build,
    with one that cannot be listed, with a file that cannot be read, and
    with no permission to write the report. *)
Definition no_builds_world : world := {|
  path_exists := path_exists example_world;
  listdir path := if decide (path = "/r/1.0") then Some ["notes.txt"] else None;
  walk := walk example_world;
  file_bytes := file_bytes example_world;
  getsize := getsize example_world;
  relpath := relpath example_world;
  abspath := abspath example_world;
  getcwd := getcwd example_world;
  script_file := script_file example_world;
  can_write := can_write example_world
|}.

Definition unlistable_world : world := {|
  path_exists := path_exists example_world;
  listdir _ := None;
  walk := walk example_world;
  file_bytes := file_bytes example_world;
  getsize := getsize example_world;
  relpath := relpath example_world;
  abspath := abspath example_world;
  getcwd := getcwd example_world;
  script_file := script_file example_world;
  can_write := can_write example_world
|}.

Definition unreadable_world : world := {|
  path_exists := path_exists example_world;
  listdir := listdir example_world;
  walk := walk example_world;
  file_bytes path :=
    if decide (path = "/r/1.0/build-002/dist-zip/app.bin") then None
    else file_bytes example_world path;
  getsize := getsize example_world;
  relpath := relpath example_world;
  abspath := abspath example_world;
  getcwd := getcwd example_world;
  script_file := script_file example_world;
  can_write := can_write example_world
|}.

Definition readonly_world : world := {|
  path_exists := path_exists example_world;
  listdir := listdir example_world;
  walk := walk example_world;
  file_bytes := file_bytes example_world;
  getsize := getsize example_world;
  relpath := relpath example_world;
  abspath := abspath example_world;
  getcwd := getcwd example_world;
  script_file := script_file example_world;
  can_write _ := false
|}.

(** The command line with an empty report file name. *)
Definition empty_output_arguments : arguments :=
  Arguments_ "1.0" "/r" (Some "").

(** What the collector does to the outside in the concrete directory. *)
Definition example_collect_events : list event :=
  [EvOpen "/r/1.0/build-001/dist-zip/app.bin";
   EvGetSize "/r/1.0/build-001/dist-zip/app.bin";
   EvOpen "/r/1.0/build-002/dist-zip/app.bin";
   EvGetSize "/r/1.0/build-002/dist-zip/app.bin"].


(** ** A records directory whose builds do not sort by number

    Version [2.0] under [/r] has the builds [build-9] and [build-10];
    sorted as strings, [build-10] comes first.  Each has [dist-chrome]
    with the files [b.js] and [a.js], walked in that order, which differ
    between the builds; [a.js] also differs in size, and [c.js] is only
    in [build-9]. *)
Definition listing_world : world := {|
  path_exists path :=
    bool_decide (path ∈ ["/r/2.0"; "/r/2.0/build-9/dist-chrome";
                         "/r/2.0/build-10/dist-chrome"]);
  listdir path :=
    if decide (path = "/r/2.0") then Some ["build-9"; "build-10"] else None;
  walk top :=
    if decide (top = "/r/2.0/build-10/dist-chrome")
    then [(top, [], ["b.js"; "a.js"])]
    else if decide (top = "/r/2.0/build-9/dist-chrome")
    then [(top, [], ["b.js"; "a.js"; "c.js"])]
    else [];
  file_bytes path :=
    if decide (path = "/r/2.0/build-10/dist-chrome/b.js") then Some [Byte.x31]
    else if decide (path = "/r/2.0/build-10/dist-chrome/a.js")
    then Some [Byte.x32]
    else if decide (path = "/r/2.0/build-9/dist-chrome/b.js")
    then Some [Byte.x33]
    else if decide (path = "/r/2.0/build-9/dist-chrome/a.js")
    then Some [Byte.x32; Byte.x32]
    else if decide (path = "/r/2.0/build-9/dist-chrome/c.js")
    then Some []
    else None;
  getsize path :=
    if decide (path = "/r/2.0/build-10/dist-chrome/b.js") then Some 1%Z
    else if decide (path = "/r/2.0/build-10/dist-chrome/a.js") then Some 1%Z
    else if decide (path = "/r/2.0/build-9/dist-chrome/b.js") then Some 1%Z
    else if decide (path = "/r/2.0/build-9/dist-chrome/a.js") then Some 2%Z
    else if decide (path = "/r/2.0/build-9/dist-chrome/c.js") then Some 0%Z
    else None;
  relpath := below;
  abspath path := path;
  getcwd := "/home/user";
  script_file := "/repo/scripts/compare_checksums.py";
  can_write _ := true
|}.

Definition listing_arguments : arguments :=
  Arguments_ "2.0" "/r" (Some "/tmp/report.json").

Definition listing_builds : list string :=
  ["/r/2.0/build-10"; "/r/2.0/build-9"].

(** The tables the collector builds for that directory, in insertion
    order, and the findings of the detector on them. *)
Definition listing_checksums : Ordered.dict (Ordered.dict string) :=
  [("dist-chrome/b.js",
    [("10", "6b86b273ff34fce19d6b804eff5a3f5747ada4eaa22f1d49c01e52ddb7875b4b");
     ("9", "4e07408562bedb8b60ce05c1decfe3ad16b72230967de01f640b7e4729b49fce")]);
   ("dist-chrome/a.js",
    [("10", "d4735e3a265e16eee03f59718b9b5d03019c07d8b6c51f90da3a666eec13ab35");
     ("9", "785f3ec7eb32f30b90cd0fcf3657d388b5ff4297f2f9716ff66e9b69c05ddd09")]);
   ("dist-chrome/c.js",
    [("9", "e3b0c44298fc1c149afbf4c8996fb92427ae41e4649b934ca495991b7852b855")])].

Definition listing_sizes : Ordered.dict (Ordered.dict Z) :=
  [("dist-chrome/b.js", [("10", 1%Z); ("9", 1%Z)]);
   ("dist-chrome/a.js", [("10", 1%Z); ("9", 2%Z)]);
   ("dist-chrome/c.js", [("9", 0%Z)])].

Definition listing_findings : Ordered.findings :=
  Ordered.Findings
    [("dist-chrome/b.js",
      [("10", "6b86b273ff34fce19d6b804eff5a3f5747ada4eaa22f1d49c01e52ddb7875b4b");
       ("9", "4e07408562bedb8b60ce05c1decfe3ad16b72230967de01f640b7e4729b49fce")]);
     ("dist-chrome/a.js",
      [("10", "d4735e3a265e16eee03f59718b9b5d03019c07d8b6c51f90da3a666eec13ab35");
       ("9", "785f3ec7eb32f30b90cd0fcf3657d388b5ff4297f2f9716ff66e9b69c05ddd09")])]
    [("dist-chrome/c.js", ["10"])]
    [("dist-chrome/a.js", [("10", 1%Z); ("9", 2%Z)])]
    listing_sizes.

(** What [generate_report] prints for these findings, before anything
    about the report file. *)
Definition listing_report_lines : list event :=
  [EvPrint (newline +:+ "Checksum Comparison Report");
   EvPrint "========================";
   EvPrint "Builds analyzed: 10, 9";
   EvPrint "Total builds: 2";
   EvPrint "Files with inconsistent checksums: 2";
   EvPrint "Files missing in some builds: 1";
   EvPrint "Files with size differences: 1";
   EvPrint (newline +:+ "Inconsistent Files:");
   EvPrint (newline +:+ "  dist-chrome/b.js:");
   EvPrint "    Build 10: 6b86b273ff34fce19d6b804eff5a3f5747ada4eaa22f1d49c01e52ddb7875b4b";
   EvPrint "    Build 9: 4e07408562bedb8b60ce05c1decfe3ad16b72230967de01f640b7e4729b49fce";
   EvPrint (newline +:+ "  dist-chrome/a.js:");
   EvPrint "    Build 10: d4735e3a265e16eee03f59718b9b5d03019c07d8b6c51f90da3a666eec13ab35";
   EvPrint "    Build 9: 785f3ec7eb32f30b90cd0fcf3657d388b5ff4297f2f9716ff66e9b69c05ddd09"].

(** The report document of that run. *)
Definition listing_document : report :=
  Report ["10"; "9"] 2
    (ReportSection 2
       {[ "dist-chrome/b.js" :=
            {[ "10" := "6b86b273ff34fce19d6b804eff5a3f5747ada4eaa22f1d49c01e52ddb7875b4b";
               "9" := "4e07408562bedb8b60ce05c1decfe3ad16b72230967de01f640b7e4729b49fce" ]};
          "dist-chrome/a.js" :=
            {[ "10" := "d4735e3a265e16eee03f59718b9b5d03019c07d8b6c51f90da3a666eec13ab35";
               "9" := "785f3ec7eb32f30b90cd0fcf3657d388b5ff4297f2f9716ff66e9b69c05ddd09" ]} ]})
    (ReportSection 1 {[ "dist-chrome/c.js" := ["10"] ]})
    (ReportSection 1 {[ "dist-chrome/a.js" := {[ "10" := 1%Z; "9" := 2%Z ]} ]}).

(** The whole trace of [main] on that directory. *)
Definition listing_trace : list event :=
  [EvPrint "Found 2 builds for version 2.0";
   EvPrint "  - build-10";
   EvPrint "  - build-9";
   EvPrint (newline +:+ "Calculating checksums...");
   EvOpen "/r/2.0/build-10/dist-chrome/b.js";
   EvGetSize "/r/2.0/build-10/dist-chrome/b.js";
   EvOpen "/r/2.0/build-10/dist-chrome/a.js";
   EvGetSize "/r/2.0/build-10/dist-chrome/a.js";
   EvOpen "/r/2.0/build-9/dist-chrome/b.js";
   EvGetSize "/r/2.0/build-9/dist-chrome/b.js";
   EvOpen "/r/2.0/build-9/dist-chrome/a.js";
   EvGetSize "/r/2.0/build-9/dist-chrome/a.js";
   EvOpen "/r/2.0/build-9/dist-chrome/c.js";
   EvGetSize "/r/2.0/build-9/dist-chrome/c.js";
   EvPrint "Finding inconsistencies..."]
  ++ listing_report_lines
  ++ [EvJsonDump "/tmp/report.json" listing_document;
      EvPrint (newline +:+ "Detailed report saved to /tmp/report.json")].

(** The report document and the end of the trace of [main] on the records
    directory of version [1.0]. *)
Definition example_document : report :=
  Report ["001"; "002"] 2
    (ReportSection 1 example_checksums)
    (ReportSection 0 ∅)
    (ReportSection 1 example_sizes).

Definition example_report_events : list event :=
  [EvPrint (newline +:+ "Checksum Comparison Report");
   EvPrint "========================";
   EvPrint "Builds analyzed: 001, 002";
   EvPrint "Total builds: 2";
   EvPrint "Files with inconsistent checksums: 1";
   EvPrint "Files missing in some builds: 0";
   EvPrint "Files with size differences: 1";
   EvPrint (newline +:+ "Inconsistent Files:");
   EvPrint (newline +:+ "  dist-zip/app.bin:");
   EvPrint "    Build 001: 559aead08264d5795d3909718cdd05abd49572e84fe55590eef31a88a08fdffd";
   EvPrint "    Build 002: fc686c314491e1f68bf1899fc54b2327353c44dd1ab4ed56538ef623edd1e866";
   EvJsonDump "/home/user/report.json" example_document;
   EvPrint (newline +:+ "Detailed report saved to /home/user/report.json")].

Definition example_trace : list event :=
  [EvPrint "Found 2 builds for version 1.0";
   EvPrint "  - build-001";
   EvPrint "  - build-002";
   EvPrint (newline +:+ "Calculating checksums...")]
  ++ example_collect_events
  ++ [EvPrint "Finding inconsistencies..."]
  ++ example_report_events.
(** * Properties *)

(** ** Strings and paths *)

Section string_facts.
Implicit Types (s t old new : string) (c : ascii).

Lemma append_cons c s t : String c s +:+ t = String c (s +:+ t).
Proof. reflexivity. Qed.

Lemma append_assoc s t u : (s +:+ t) +:+ u = s +:+ (t +:+ u).
Proof.
  induction s as [|c s IH]; [done|]. by rewrite !append_cons, IH.
Qed.

Lemma startswith_append old s : startswith (old +:+ s) old = true.
Proof.
  induction old as [|c old IH]; [done|].
  rewrite append_cons. cbn [startswith]. by rewrite Ascii.eqb_refl.
Qed.

Lemma replace_from_skip old new t s :
  replace_from old new (String.length t) (t +:+ s) = replace_from old new 0 s.
Proof. induction t as [|c t IH]; [by destruct s|]. apply IH. Qed.

(** Replacing in [old +:+ s] replaces the leading occurrence and goes on
    in [s]. *)
Lemma str_replace_leading old new c s :
  str_replace (String c old +:+ s) (String c old) new
  = new +:+ str_replace s (String c old) new.
Proof.
  unfold str_replace. rewrite append_cons. cbn [replace_from].
  rewrite <-append_cons, startswith_append. f_equal.
  replace (String.length (String c old) - 1) with (String.length old)
    by (cbn; lia).
  apply replace_from_skip.
Qed.

Lemma replace_from_absent old new s :
  contains s old = false → replace_from old new 0 s = s.
Proof.
  induction s as [|c s IH]; cbn [contains replace_from]; [done|].
  intros [Hp Hs]%orb_false_iff. rewrite Hp. by rewrite IH.
Qed.

Lemma after_last_sep_sep t s :
  after_last_sep s = None →
  after_last_sep (t +:+ "/" +:+ s) = Some s.
Proof.
  intros Hs. induction t as [|c t IH].
  - change ("" +:+ "/" +:+ s) with (String "/" s). cbn. by rewrite Hs.
  - rewrite append_cons. cbn. by rewrite IH.
Qed.

Lemma endswith_sep_split a :
  endswith_sep a = true → ∃ a', a = a' +:+ "/".
Proof.
  induction a as [|c a IH]; [done|]. destruct a as [|c' a].
  - cbn. intros ->%Ascii.eqb_eq. by exists "".
  - intros [a' Ha']%IH. exists (String c a'). by rewrite append_cons, <-Ha'.
Qed.

Lemma startswith_sep_after_last b :
  after_last_sep b = None → startswith b "/" = false.
Proof.
  destruct b as [|c b]; [done|]. cbn [after_last_sep startswith].
  destruct (after_last_sep b); [done|].
  rewrite (Ascii.eqb_sym "/" c). by destruct (Ascii.eqb c "/").
Qed.

(** What [os.path.join] puts in front of a relative second argument. *)
Lemma path_join_relative a b :
  startswith b "/" = false → path_join a b = join_prefix a +:+ b.
Proof.
  intros Hb. unfold path_join, join_prefix. rewrite Hb.
  destruct (String.eqb a "" || endswith_sep a); [done|].
  by rewrite append_assoc.
Qed.

Lemma basename_path_join a b :
  after_last_sep b = None → basename (path_join a b) = b.
Proof.
  intros Hb. unfold basename.
  rewrite path_join_relative by by apply startswith_sep_after_last.
  unfold join_prefix.
  destruct (String.eqb_spec a "") as [->|Ha]; cbn [orb].
  { change ("" +:+ b) with b. by rewrite Hb. }
  destruct (endswith_sep a) eqn:Hend.
  - apply endswith_sep_split in Hend as [a' ->].
    rewrite append_assoc. by rewrite after_last_sep_sep.
  - rewrite append_assoc. by rewrite after_last_sep_sep.
Qed.

End string_facts.

(** ** The build identifier *)

Section build_number_facts.
Implicit Types (s d old : string).

Lemma length_append s t :
  String.length (s +:+ t) = String.length s + String.length t.
Proof.
  induction s as [|c s IH]; [done|]. rewrite append_cons. cbn. by rewrite IH.
Qed.

(** Deleting occurrences never makes a string longer. *)
Lemma length_replace_from_le old k s :
  String.length (replace_from old "" k s) ≤ String.length s.
Proof.
  revert k. induction s as [|c s IH]; intros k; [done|].
  cbn [replace_from String.length]. destruct k as [|k].
  - destruct (startswith (String c s) old).
    + change ("" +:+ ?x) with x. specialize (IH (String.length old - 1)). lia.
    + cbn [String.length]. specialize (IH 0). lia.
  - specialize (IH k). lia.
Qed.

(** Deleting the occurrences of a non-empty [old] from a string in which
    it occurs makes the string shorter. *)
Lemma length_replace_from_lt c old s :
  contains s (String c old) = true →
  String.length (replace_from (String c old) "" 0 s) < String.length s.
Proof.
  induction s as [|c' s IH]; [done|].
  cbn [contains replace_from String.length].
  destruct (startswith (String c' s) (String c old)) eqn:Hp.
  - intros _. change ("" +:+ ?x) with x.
    pose proof (length_replace_from_le (String c old)
                  (String.length (String c old) - 1) s).
    cbn [String.length] in *. lia.
  - cbn [orb String.length]. intros Hs%IH. lia.
Qed.

Lemma after_last_sep_append_None t s :
  after_last_sep t = None → after_last_sep s = None →
  after_last_sep (t +:+ s) = None.
Proof.
  intros Ht Hs. induction t as [|c t IH]; [exact Hs|].
  rewrite append_cons. cbn [after_last_sep] in *.
  destruct (after_last_sep t); [done|]. rewrite IH by done.
  by destruct (Ascii.eqb c "/").
Qed.

Lemma after_last_sep_build_prefix s :
  after_last_sep s = None → after_last_sep ("build-" +:+ s) = None.
Proof. intros Hs. by rewrite after_last_sep_append_None. Qed.

(** The identifier of the build directory [build-s] under [d]: every
    occurrence of [build-] is deleted from [s] as well. *)
Lemma build_number_of_build_dir d s :
  after_last_sep s = None →
  build_number_of (path_join d ("build-" +:+ s)) = str_replace s "build-" "".
Proof.
  intros Hs. unfold build_number_of.
  rewrite basename_path_join by by apply after_last_sep_build_prefix.
  by rewrite str_replace_leading.
Qed.

(** The identifier is the directory name without its prefix exactly when
    the rest of the name does not contain [build-] again. *)
Lemma build_number_of_exact_iff d s :
  after_last_sep s = None →
  build_number_of (path_join d ("build-" +:+ s)) = s ↔
  contains s "build-" = false.
Proof.
  intros Hs. rewrite build_number_of_build_dir by done. unfold str_replace.
  split.
  - intros Heq. destruct (contains s "build-") eqn:Hc; [|done].
    apply length_replace_from_lt in Hc. rewrite Heq in Hc. lia.
  - apply replace_from_absent.
Qed.

(** C4 at a directory name that contains [build-] twice: the identifier is
    not the rest of the name, ["xbuild-y"], but ["xy"]; and the two build
    directories [build-1] and [build-build-1] get the same identifier. *)
Theorem build_number_of_repeated_prefix :
  build_number_of "/records/1.0/build-xbuild-y" = "xy" ∧
  build_number_of "/records/1.0/build-build-1" = "1" ∧
  build_number_of "/records/1.0/build-1" = "1".
Proof. repeat split; reflexivity. Qed.

End build_number_facts.

(** ** [sorted] *)

Lemma sorted_Sorted xs : Sorted String.le (sorted xs).
Proof. apply (Sorted_merge_sort String.le). Qed.

Lemma sorted_Permutation xs : sorted xs ≡ₚ xs.
Proof. apply merge_sort_Permutation. Qed.

Lemma elem_of_sorted x xs : x ∈ sorted xs ↔ x ∈ xs.
Proof. by rewrite sorted_Permutation. Qed.

(** ** The build locator *)

Section locator_facts.
Implicit Types (w : world) (items names : list string) (s t pre : string).

Lemma ascii_compare_refl c : Ascii.compare c c = Eq.
Proof. unfold Ascii.compare. apply N.compare_refl. Qed.

Lemma compare_append pre s t :
  String.compare (pre +:+ s) (pre +:+ t) = String.compare s t.
Proof.
  induction pre as [|c pre IH]; [done|].
  rewrite !append_cons. cbn [String.compare]. by rewrite ascii_compare_refl.
Qed.

(** A common prefix does not change the order of two strings. *)
Lemma le_append pre s t : String.le (pre +:+ s) (pre +:+ t) ↔ String.le s t.
Proof. unfold String.le, String.leb. by rewrite compare_append. Qed.

(** [sorted] returns the one ascending arrangement of its argument. *)
Lemma sorted_unique xs ys :
  Sorted String.le ys → ys ≡ₚ xs → sorted xs = ys.
Proof.
  intros Hys Hperm. apply (Sorted_unique String.le); [apply sorted_Sorted|done|].
  by rewrite sorted_Permutation.
Qed.

Lemma sorted_Permutation_eq xs ys : xs ≡ₚ ys → sorted xs = sorted ys.
Proof.
  intros Hperm. apply sorted_unique; [apply sorted_Sorted|].
  by rewrite sorted_Permutation.
Qed.

Lemma sorted_prepend pre xs :
  sorted ((String.app pre) <$> xs) = (String.app pre) <$> sorted xs.
Proof.
  apply sorted_unique.
  - apply (Sorted_fmap _ String.le); [|apply sorted_Sorted].
    intros s t. apply le_append.
  - by rewrite sorted_Permutation.
Qed.

Lemma filter_Permutation_bool {A} (f : A → bool) (l1 l2 : list A) :
  l1 ≡ₚ l2 → List.filter f l1 ≡ₚ List.filter f l2.
Proof.
  induction 1 as [|x l1 l2 _ IH|x y l|l1 l2 l3 _ IH1 _ IH2];
    cbn [List.filter].
  - done.
  - destruct (f x); [by constructor|done].
  - destruct (f x), (f y); try done. apply perm_swap.
  - by etrans.
Qed.

(** Lines 40-43: the loop collects the joined paths of the entries whose
    names start with [build-], in listing order. *)
Lemma collect_builds_loop version_dir items acc :
  foldl (λ builds item,
           if startswith item "build-"
           then builds ++ [path_join version_dir item]
           else builds) acc items
  = acc ++ (path_join version_dir
              <$> List.filter (λ item, startswith item "build-") items).
Proof.
  revert acc. induction items as [|item items IH]; intros acc.
  - cbn. by rewrite app_nil_r.
  - cbn [foldl List.filter]. rewrite IH.
    destruct (startswith item "build-"); [|done].
    rewrite fmap_cons. by rewrite <-app_assoc.
Qed.

Lemma startswith_build_relative item :
  startswith item "build-" = true → startswith item "/" = false.
Proof.
  destruct item as [|c item]; [done|]. cbn [startswith].
  intros [Hc _]%andb_true_iff. apply Ascii.eqb_eq in Hc as <-. done.
Qed.

Lemma path_join_builds version_dir items :
  path_join version_dir
    <$> List.filter (λ item, startswith item "build-") items
  = (String.app (join_prefix version_dir))
    <$> List.filter (λ item, startswith item "build-") items.
Proof.
  apply list_fmap_ext. intros i item Hitem%list_elem_of_lookup_2.
  apply list_elem_of_In, filter_In in Hitem as [_ Hitem].
  by apply path_join_relative, startswith_build_relative.
Qed.

Lemma find_builds_listing w dist_record_dir version items tr :
  path_exists w (path_join dist_record_dir version) = true →
  listdir w (path_join dist_record_dir version) = Some items →
  find_builds w dist_record_dir version tr
  = (tr, inr (path_join (path_join dist_record_dir version)
                <$> sorted (List.filter (λ item, startswith item "build-")
                              items))).
Proof.
  intros Hexists Hlist. unfold find_builds, os_listdir.
  rewrite Hexists, Hlist. cbn. unfold mbind, io_bind, mret, io_ret. cbn.
  do 2 f_equal. rewrite collect_builds_loop. cbn [app].
  rewrite path_join_builds, sorted_prepend. symmetry.
  apply list_fmap_ext. intros i item Hitem%list_elem_of_lookup_2.
  rewrite elem_of_sorted in Hitem.
  apply list_elem_of_In, filter_In in Hitem as [_ Hitem].
  by apply path_join_relative, startswith_build_relative.
Qed.

Lemma find_builds_missing_dir w dist_record_dir version tr :
  path_exists w (path_join dist_record_dir version) = false →
  find_builds w dist_record_dir version tr
  = (tr ++ [EvPrint ("No builds found for version " +:+ version)], inr []).
Proof. intros Hexists. unfold find_builds. by rewrite Hexists. Qed.

(** C5. When the version directory exists and lists as [items], the locator
    returns the children whose names start with [build-] (each joined to
    the version directory), arranged by name in ascending order; a second
    listing that is a permutation of the first gives the same list. *)
Theorem find_builds_sorted w dist_record_dir version items tr :
  path_exists w (path_join dist_record_dir version) = true →
  listdir w (path_join dist_record_dir version) = Some items →
  ∃ names,
    find_builds w dist_record_dir version tr
    = (tr, inr (path_join (path_join dist_record_dir version) <$> names)) ∧
    Sorted String.le names ∧
    (∀ name, name ∈ names ↔ name ∈ items ∧ startswith name "build-" = true) ∧
    names ≡ₚ List.filter (λ item, startswith item "build-") items ∧
    ∀ w' items',
      path_exists w' (path_join dist_record_dir version) = true →
      listdir w' (path_join dist_record_dir version) = Some items' →
      items' ≡ₚ items →
      find_builds w' dist_record_dir version tr
      = find_builds w dist_record_dir version tr.
Proof.
  intros Hexists Hlist.
  exists (sorted (List.filter (λ item, startswith item "build-") items)).
  split; [by apply find_builds_listing|].
  split; [apply sorted_Sorted|].
  split; [|split; [apply sorted_Permutation|]].
  - intros name. rewrite elem_of_sorted, list_elem_of_In, filter_In.
    by rewrite <-list_elem_of_In.
  - intros w' items' Hexists' Hlist' Hperm.
    rewrite (find_builds_listing w' _ _ items'), (find_builds_listing w _ _ items)
      by done.
    do 3 f_equal. by apply sorted_Permutation_eq, filter_Permutation_bool.
Qed.

End locator_facts.

(** ** Streaming the file through the hash *)

Section hashing_facts.
Context `{HashObject H}.
Implicit Types (f content : list byte) (h : H).

(** One pass of the loop: an empty read ends it, any other block is fed to
    the hash object and the loop goes on with the rest of the file. *)
Lemma update_blocks_step f h :
  update_blocks f h
  = match (file_read block_size f).1 with
    | [] => h
    | b :: block =>
        update_blocks (file_read block_size f).2 (hash_update h (b :: block))
    end.
Proof.
  rewrite update_blocks_equation_1.
  unfold update_blocks_unfold_clause_1, Logic.inspect.
  by destruct ((file_read block_size f).1).
Qed.

(** The loop feeds the hash object the whole file, block by block; on an
    empty file it does not call [update] at all. *)
Lemma update_blocks_spec f h :
  update_blocks f h = match f with [] => h | _ :: _ => hash_update h f end.
Proof.
  remember (length f) as n eqn:Hn. revert f h Hn.
  induction (lt_wf n) as [n _ IH]. intros f h ->.
  rewrite update_blocks_step. cbn [file_read fst snd].
  destruct f as [|x f]; [done|].
  destruct (take block_size (x :: f)) as [|b block] eqn:Htake; [done|].
  rewrite (IH (length (drop block_size (x :: f)))) by
    (rewrite ?length_drop; cbn; lia || done).
  rewrite <-Htake.
  destruct (drop block_size (x :: f)) as [|y rest] eqn:Hdrop.
  - f_equal. rewrite <-(take_drop block_size (x :: f)) at 2.
    by rewrite Hdrop, app_nil_r.
  - rewrite hash_update_app. f_equal. rewrite <-Hdrop. apply take_drop.
Qed.

Lemma foldl_hash_update h chunks :
  foldl hash_update h chunks
  = match chunks with [] => h | _ :: _ => hash_update h (concat chunks) end.
Proof.
  revert h. induction chunks as [|a chunks IH]; intros h; [done|].
  cbn [foldl concat]. rewrite IH. destruct chunks as [|b chunks].
  - by rewrite app_nil_r.
  - by rewrite hash_update_app.
Qed.

(** C6. The digest computed by reading the file in blocks of 4096 bytes is
    the digest of one [update] with the whole content, and so is the digest
    after feeding the content in any other sequence of chunks. *)
Theorem checksum_of_bytes_chunking content :
  checksum_of_bytes content = hash_hexdigest (hash_update hash_new content) ∧
  ∀ chunks,
    hash_hexdigest (foldl hash_update hash_new chunks)
    = hash_hexdigest (hash_update hash_new (concat chunks)).
Proof.
  split.
  - unfold checksum_of_bytes. rewrite update_blocks_spec.
    destruct content; [by rewrite hash_update_new_nil|done].
  - intros chunks. rewrite foldl_hash_update.
    destruct chunks; [by rewrite hash_update_new_nil|done].
Qed.

Lemma foldl_cons {A B} (f : A → B → A) (a : A) (x : B) (l : list B) :
  foldl f a (x :: l) = foldl f (f a x) l.
Proof. reflexivity. Qed.

Lemma block_size_pos : 0 < block_size.
Proof. unfold block_size. apply Nat.lt_0_succ. Qed.

Lemma blocks_read_step f :
  blocks_read f
  = match take block_size f with
    | [] => []
    | b :: block => (b :: block) :: blocks_read (drop block_size f)
    end.
Proof.
  rewrite blocks_read_equation_1.
  unfold blocks_read_unfold_clause_1, Logic.inspect, file_read. cbn [fst snd].
  by destruct (take block_size f).
Qed.

Lemma blocks_read_nil : blocks_read [] = [].
Proof. by rewrite blocks_read_step, take_nil. Qed.

Lemma blocks_read_cons x f :
  blocks_read (x :: f)
  = take block_size (x :: f) :: blocks_read (drop block_size (x :: f)).
Proof.
  rewrite blocks_read_step.
  destruct (take block_size (x :: f)) as [|b block] eqn:Htake; [|done].
  apply (f_equal length) in Htake. rewrite length_take in Htake.
  pose proof block_size_pos. cbn [length] in Htake. lia.
Qed.

(** An induction on the file that follows the reads. *)
Lemma blocks_read_ind (P : list byte → Prop) :
  P [] →
  (∀ x f, P (drop block_size (x :: f)) → P (x :: f)) →
  ∀ f, P f.
Proof.
  intros Hnil Hcons f.
  remember (length f) as n eqn:Hn. revert f Hn.
  induction (lt_wf n) as [n _ IH]. intros [|x f] ->; [done|].
  apply Hcons. eapply IH; [|done].
  rewrite length_drop. pose proof block_size_pos. cbn [length]. lia.
Qed.

(** The loop reads the file in blocks of 4096 bytes: it calls [update] once
    for each block, in order; the blocks put together are the file; no
    block is empty, every block but the last has exactly 4096 bytes, and
    there are as many blocks as the length of the file divided by 4096 and
    rounded up. *)
Theorem update_blocks_blocks f h :
  update_blocks f h = foldl hash_update h (blocks_read f) ∧
  concat (blocks_read f) = f ∧
  Forall (λ block, 0 < length block ≤ block_size) (blocks_read f) ∧
  (∀ i block,
     blocks_read f !! i = Some block → S i < length (blocks_read f) →
     length block = block_size) ∧
  length (blocks_read f) = (length f + block_size - 1) / block_size.
Proof.
  pose proof block_size_pos as Hpos.
  revert h. induction f as [|x f IH] using blocks_read_ind; intros h.
  - rewrite update_blocks_step, blocks_read_nil. cbn [file_read fst].
    rewrite take_nil. split; [done|]. split; [done|].
    split; [constructor|]. split; [intros i block; by rewrite lookup_nil|].
    cbn [length]. by rewrite Nat.div_small by lia.
  - rewrite blocks_read_cons, update_blocks_step. cbn [file_read fst snd].
    destruct (take block_size (x :: f)) as [|b block] eqn:Htake.
    { apply (f_equal length) in Htake. rewrite length_take in Htake.
      cbn [length] in Htake. lia. }
    assert (Hblock : length (b :: block)
                     = block_size `min` length (x :: f))
      by (by rewrite <-Htake, length_take).
    assert (Hcatb : (b :: block) ++ drop block_size (x :: f) = x :: f)
      by (rewrite <-Htake; apply take_drop).
    clear Htake. generalize dependent (b :: block). intros blk0 Hblock Hcatb.
    destruct (IH (hash_update h blk0)) as (Hupd & Hcat & Hall & Hfull & Hlen).
    split; [by rewrite foldl_cons|]. split; [|split; [|split]].
    + by rewrite concat_cons, Hcat.
    + constructor; [|done]. rewrite length_cons in Hblock. lia.
    + intros [|i] blk Hblk Hmore; rewrite length_cons in Hmore.
      * rewrite lookup_cons in Hblk. injection Hblk as <-.
        destruct (blocks_read (drop block_size (x :: f))) as [|b2 rest] eqn:Hb;
          [cbn [length] in Hmore; lia|].
        assert (drop block_size (x :: f) ≠ []) as Hne.
        { intros Hnil. by rewrite Hnil, blocks_read_nil in Hb. }
        assert (block_size < length (x :: f)).
        { destruct (decide (block_size < length (x :: f))); [done|].
          destruct Hne. apply drop_ge. lia. }
        rewrite Hblock. apply Nat.min_l. lia.
      * rewrite lookup_cons in Hblk. apply (Hfull i); [exact Hblk|lia].
    + rewrite length_cons, Hlen, length_drop.
      destruct (decide (length (x :: f) ≤ block_size)) as [Hle|Hgt].
      * replace (length (x :: f) - block_size) with 0 by lia.
        rewrite (Nat.div_small (0 + block_size - 1)) by lia.
        apply (Nat.div_unique _ _ 1 (length (x :: f) - 1));
          rewrite ?length_cons in *; lia.
      * replace (length (x :: f) + block_size - 1)
          with ((length (x :: f) - block_size + block_size - 1)
                + 1 * block_size) by lia.
        rewrite Nat.div_add by lia. lia.
Qed.

End hashing_facts.

(** ** SHA-256 is a hash object *)

Section sha256_facts.
Import Sha256.

Lemma absorb_step chain data :
  absorb chain data
  = if le_lt_dec 64 (length data)
    then absorb (compress chain (take 64 data)) (drop 64 data)
    else (chain, data).
Proof.
  rewrite absorb_equation_1. unfold absorb_unfold_clause_1.
  by destruct (le_lt_dec 64 (length data)).
Qed.

(** Absorbing [a ++ b] is absorbing [a] and then what [a] left over
    followed by [b]. *)
Lemma absorb_app chain a b :
  absorb chain (a ++ b)
  = absorb (absorb chain a).1 ((absorb chain a).2 ++ b).
Proof.
  remember (length a) as n eqn:Hn. revert chain a Hn.
  induction (lt_wf n) as [n _ IH]. intros chain a ->.
  rewrite (absorb_step chain a).
  destruct (le_lt_dec 64 (length a)) as [Hle|Hlt]; [|done].
  rewrite (absorb_step chain (a ++ b)).
  destruct (le_lt_dec 64 (length (a ++ b))) as [_|Hlt].
  - rewrite take_app_le, drop_app_le by done.
    apply (IH (length (drop 64 a))); [|done]. rewrite length_drop. lia.
  - rewrite length_app in Hlt. lia.
Qed.

Lemma update_app h a b : update (update h a) b = update h (a ++ b).
Proof.
  unfold update. rewrite (app_assoc (buffer h) a b).
  rewrite (absorb_app (chain h) (buffer h ++ a) b).
  destruct (absorb (chain h) (buffer h ++ a)) as [chain' rest]. cbn.
  destruct (absorb chain' (rest ++ b)). by rewrite length_app, Nat.add_assoc.
Qed.

Lemma update_new_nil : update new [] = new.
Proof. reflexivity. Qed.

(** The digest of an object fed [message] in one call is the SHA-256 of
    [message]. *)
Lemma hexdigest_update_new message :
  hexdigest (update new message) = sha256 message.
Proof.
  unfold hexdigest, update, sha256. cbn [chain buffer total new app].
  rewrite (absorb_app initial_chain message).
  destruct (absorb initial_chain message) as [chain' rest]. cbn.
  by destruct (absorb chain' (rest ++ padding (length message))).
Qed.

End sha256_facts.

Global Instance sha256_hash_object : HashObject Sha256.state := {|
  hash_new := Sha256.new;
  hash_update := Sha256.update;
  hash_hexdigest := Sha256.hexdigest;
  hash_update_new_nil := update_new_nil;
  hash_update_app := update_app
|}.

(** The digests [hashlib.sha256] gives for [b"abc"], for the empty
    message, and for a message of two blocks. *)
Example sha256_abc :
  Sha256.hexdigest (Sha256.update Sha256.new [Byte.x61; Byte.x62; Byte.x63])
  = "ba7816bf8f01cfea414140de5dae2223b00361a396177a9cb410ff61f20015ad".
Proof. vm_compute. reflexivity. Qed.

Example sha256_empty :
  Sha256.hexdigest Sha256.new
  = "e3b0c44298fc1c149afbf4c8996fb92427ae41e4649b934ca495991b7852b855".
Proof. vm_compute. reflexivity. Qed.

Example sha256_100_a :
  Sha256.hexdigest (Sha256.update Sha256.new (replicate 100 Byte.x61))
  = "2816597888e4a0d3a36b82b83316ab32680eb8f00f8cd3b904d681246d285a0e".
Proof. vm_compute. reflexivity. Qed.

(** With [hashlib.sha256], the checksum of a file read in blocks is the
    SHA-256 of its content. *)
Lemma checksum_of_bytes_sha256 content :
  checksum_of_bytes content = Sha256.sha256 content.
Proof.
  unfold checksum_of_bytes. rewrite update_blocks_spec.
  rewrite <-hexdigest_update_new. destruct content as [|x content].
  - by rewrite update_new_nil.
  - reflexivity.
Qed.

(** ** Facts about the detector *)

Section detector_facts.
Implicit Types (checksums : checksum_table) (file_sizes : size_table).
Implicit Types (p b : string) (bc : gmap string string).

Lemma elem_of_distinct_values `{Countable V} (d : gmap string V) (x : V) :
  x ∈ distinct_values d ↔ ∃ k, d !! k = Some x.
Proof.
  unfold distinct_values. rewrite elem_of_list_to_set, list_elem_of_fmap.
  split.
  - intros [[k v] [-> Hin]]. exists k. by apply elem_of_map_to_list.
  - intros [k Hk]. exists (k, x). split; [done|]. by apply elem_of_map_to_list.
Qed.

Lemma keys_to_set bc : list_to_set (map_to_list bc).*1 = dom bc.
Proof. apply leibniz_equiv. by rewrite dom_alt. Qed.

Lemma keys_length bc : length (map_to_list bc).*1 = size (dom bc).
Proof. by rewrite length_fmap, length_map_to_list, size_dom. Qed.

Lemma elem_of_all_build_numbers checksums b :
  b ∈ all_build_numbers checksums ↔
  ∃ p bc, checksums !! p = Some bc ∧ is_Some (bc !! b).
Proof.
  unfold all_build_numbers. rewrite elem_of_union_list. split.
  - intros (X & HX & Hb). apply list_elem_of_fmap in HX as (bc & -> & Hbc).
    apply list_elem_of_fmap in Hbc as ([p bc'] & -> & Hin).
    apply elem_of_map_to_list in Hin. exists p, bc'. split; [done|].
    by apply elem_of_dom.
  - intros (p & bc & Hp & Hb). exists (dom bc). split; [|by apply elem_of_dom].
    apply list_elem_of_fmap. exists bc. split; [done|].
    apply list_elem_of_fmap. exists (p, bc). split; [done|].
    by apply elem_of_map_to_list.
Qed.

Lemma dom_subseteq_all_build_numbers checksums p bc :
  checksums !! p = Some bc → dom bc ⊆ all_build_numbers checksums.
Proof.
  intros Hp b Hb. apply elem_of_all_build_numbers. exists p, bc.
  split; [done|]. by apply elem_of_dom.
Qed.

(** The loop invariant: after the entries [m] of the checksum table have
    been visited, every result dictionary holds, for every path, exactly the
    entry computed from that path's row of [m]. *)
Definition detector_inv (all : gset string) (file_sizes : size_table)
    (st : detector_state) (m : checksum_table) : Prop :=
  ∀ p,
    inconsistent_files st !! p = inconsistent_entry (m !! p) ∧
    missing_files st !! p = missing_entry all (m !! p) ∧
    size_differences st !! p = size_entry (m !! p) (file_sizes !! p) ∧
    file_sizes_after st !! p = sizes_after_entry (m !! p) (file_sizes !! p).

Lemma detector_inv_init all file_sizes :
  detector_inv all file_sizes (DetectorState ∅ ∅ ∅ file_sizes) ∅.
Proof.
  intros p. cbn. rewrite !lookup_empty. cbn.
  repeat split. unfold sizes_after_entry. by destruct (file_sizes !! p).
Qed.

Lemma record_missing_lookup all i bc missing p :
  record_missing all i bc missing !! p =
  if decide (p = i)
  then match missing_entry all (Some bc) with
       | Some l => Some l
       | None => missing !! p
       end
  else missing !! p.
Proof.
  unfold record_missing, missing_entry. cbn.
  rewrite keys_length, keys_to_set.
  repeat case_decide; simplify_map_eq; done.
Qed.

Local Ltac close_entry :=
  unfold missing_entry; cbn; repeat split; try done;
  try (by case_decide);
  try (by repeat case_match).

Lemma detector_inv_step all file_sizes i bc m st :
  m !! i = None →
  detector_inv all file_sizes st m →
  detector_inv all file_sizes (detect_step all i bc st) (<[i := bc]> m).
Proof.
  intros Hi Hinv p. destruct (Hinv p) as (H1 & H2 & H3 & H4).
  destruct (Hinv i) as (_ & H2i & _ & H4i).
  rewrite Hi in H2i, H4i. cbn in H2i.
  unfold detect_step, defaultdict_getitem.
  destruct (decide (p = i)) as [->|Hne].
  - rewrite lookup_insert_eq. rewrite Hi in H1, H2, H3, H4.
    unfold size_entry, sizes_after_entry, inconsistent_entry in *. cbn in *.
    destruct (decide (1 < size (distinct_values bc))) as [Hd|Hd]; cbn.
    + destruct (file_sizes_after st !! i) as [s|] eqn:Hs;
        destruct (file_sizes !! i) as [s0|] eqn:Hs0; simplify_eq; cbn.
      * case_decide; cbn; rewrite ?lookup_insert_eq, record_missing_lookup;
          rewrite decide_True by done; cbn; rewrite ?H2i, ?H2; close_entry.
      * rewrite decide_False
          by (unfold distinct_values; rewrite map_to_list_empty; cbn;
              rewrite size_empty; lia).
        cbn. rewrite !lookup_insert_eq, record_missing_lookup.
        rewrite decide_True by done. rewrite H2. close_entry.
    + cbn. rewrite record_missing_lookup, decide_True by done. rewrite H2.
      close_entry. 
  - assert (i ≠ p) as Hne' by congruence.
    rewrite lookup_insert_ne by done.
    destruct (decide (1 < size (distinct_values bc))); cbn.
    + destruct (file_sizes_after st !! i) eqn:Hs; cbn;
        repeat case_decide; cbn;
        rewrite ?lookup_insert_ne by exact Hne';
        rewrite record_missing_lookup, decide_False by done; done.
    + rewrite record_missing_lookup, decide_False by done. done.
Qed.

Lemma find_inconsistencies_inv checksums file_sizes :
  detector_inv (all_build_numbers checksums) file_sizes
    (find_inconsistencies checksums file_sizes) checksums.
Proof.
  unfold find_inconsistencies.
  apply (map_fold_weak_ind
           (detector_inv (all_build_numbers checksums) file_sizes)).
  - apply detector_inv_init.
  - intros i bc m st Hi Hinv. by apply detector_inv_step.
Qed.

End detector_facts.
Section detector_claims.
Implicit Types (checksums : checksum_table) (file_sizes : size_table).
Implicit Types (p b : string) (bc : gmap string string).

Lemma lookup_inconsistent_files checksums file_sizes p :
  inconsistent_files (find_inconsistencies checksums file_sizes) !! p
  = inconsistent_entry (checksums !! p).
Proof. apply find_inconsistencies_inv. Qed.

Lemma lookup_missing_files checksums file_sizes p :
  missing_files (find_inconsistencies checksums file_sizes) !! p
  = missing_entry (all_build_numbers checksums) (checksums !! p).
Proof. apply find_inconsistencies_inv. Qed.

Lemma lookup_size_differences checksums file_sizes p :
  size_differences (find_inconsistencies checksums file_sizes) !! p
  = size_entry (checksums !! p) (file_sizes !! p).
Proof. apply find_inconsistencies_inv. Qed.

Lemma lookup_file_sizes_after checksums file_sizes p :
  file_sizes_after (find_inconsistencies checksums file_sizes) !! p
  = sizes_after_entry (checksums !! p) (file_sizes !! p).
Proof. apply find_inconsistencies_inv. Qed.

Lemma inconsistent_entry_Some o bc :
  inconsistent_entry o = Some bc ↔ o = Some bc ∧ 1 < size (distinct_values bc).
Proof.
  unfold inconsistent_entry. destruct o as [bc'|]; cbn; [|naive_solver].
  case_decide; naive_solver.
Qed.

Lemma inconsistent_entry_is_Some o :
  is_Some (inconsistent_entry o) ↔ ∃ bc, o = Some bc ∧ 1 < size (distinct_values bc).
Proof.
  unfold is_Some. setoid_rewrite inconsistent_entry_Some. naive_solver.
Qed.

(** C3. A path is in the inconsistent-checksum finding exactly when its row
    of the checksum table holds more than one distinct checksum, and the
    finding then maps the path to that very row: every build of the row is
    there with the checksum the table has for it. *)
Theorem inconsistent_files_spec checksums file_sizes p :
  (p ∈ dom (inconsistent_files (find_inconsistencies checksums file_sizes)) ↔
   ∃ bc, checksums !! p = Some bc ∧ 1 < size (distinct_values bc)) ∧
  (∀ recorded,
     inconsistent_files (find_inconsistencies checksums file_sizes) !! p
       = Some recorded →
     checksums !! p = Some recorded ∧
     ∀ b, recorded !! b = (checksums !! p) ≫= (.!! b)).
Proof.
  split.
  - rewrite elem_of_dom, lookup_inconsistent_files.
    apply inconsistent_entry_is_Some.
  - intros recorded. rewrite lookup_inconsistent_files.
    intros [Hp _]%inconsistent_entry_Some. split; [done|].
    intros b. by rewrite Hp.
Qed.

Lemma distinct_values_size_le_1 `{Countable V} (d : gmap string V) :
  (∀ k1 k2 v1 v2, d !! k1 = Some v1 → d !! k2 = Some v2 → v1 = v2) →
  (size (distinct_values d) ≤ 1)%nat.
Proof.
  intros Heq.
  destruct (set_choose_or_empty (distinct_values d)) as [[v Hv]|Hemp].
  - rewrite <-(size_singleton (C:=gset V) v). apply subseteq_size.
    intros v' Hv'. apply elem_of_distinct_values in Hv as [k1 Hk1].
    apply elem_of_distinct_values in Hv' as [k2 Hk2].
    apply elem_of_singleton. by eapply Heq.
  - apply size_empty_iff in Hemp. lia.
Qed.

Lemma size_lt_subset (X Y : gset string) :
  X ⊆ Y → (size X < size Y ↔ X ⊂ Y).
Proof.
  intros Hsub. split; [|apply subset_size].
  intros Hlt. split; [done|]. intros Hsup%subseteq_size. lia.
Qed.

Lemma size_differences_dom_iff checksums file_sizes q :
  q ∈ dom (size_differences (find_inconsistencies checksums file_sizes)) ↔
  q ∈ dom (inconsistent_files (find_inconsistencies checksums file_sizes)) ∧
  1 < size (distinct_values (default ∅ (file_sizes !! q))).
Proof.
  rewrite !elem_of_dom, lookup_size_differences, lookup_inconsistent_files.
  unfold size_entry. destruct (inconsistent_entry (checksums !! q)); cbn.
  - case_decide; naive_solver.
  - split; [intros [? ?]; done | intros [[? ?] _]; done].
Qed.

(** C1. A path is in the size-differences finding exactly when it is in the
    inconsistent-checksum finding and its row of the size table holds more
    than one distinct size; so the size-differences paths are among the
    inconsistent-checksum paths, and a path all of whose recorded sizes are
    equal is not a size difference, whatever its checksums. *)
Theorem size_differences_spec checksums file_sizes p :
  (p ∈ dom (size_differences (find_inconsistencies checksums file_sizes)) ↔
   p ∈ dom (inconsistent_files (find_inconsistencies checksums file_sizes)) ∧
   1 < size (distinct_values (default ∅ (file_sizes !! p)))) ∧
  dom (size_differences (find_inconsistencies checksums file_sizes))
    ⊆ dom (inconsistent_files (find_inconsistencies checksums file_sizes)) ∧
  ((∀ b1 b2 s1 s2,
      (file_sizes !! p) ≫= (.!! b1) = Some s1 →
      (file_sizes !! p) ≫= (.!! b2) = Some s2 → s1 = s2) →
   p ∉ dom (size_differences (find_inconsistencies checksums file_sizes))).
Proof.
  pose proof (size_differences_dom_iff checksums file_sizes) as Hiff.
  split; [apply Hiff|]. split.
  - intros q Hq. by apply Hiff in Hq as [? _].
  - intros Heq [_ Hsz]%Hiff.
    destruct (file_sizes !! p) as [sizes|] eqn:Hsizes; cbn in *.
    + assert (size (distinct_values sizes) ≤ 1); [|lia].
      apply distinct_values_size_le_1. intros b1 b2 s1 s2. apply Heq.
    + unfold distinct_values in Hsz. rewrite map_to_list_empty in Hsz.
      cbn in Hsz. rewrite size_empty in Hsz. lia.
Qed.

Lemma missing_entry_Some all o absent :
  missing_entry all o = Some absent ↔
  ∃ bc, o = Some bc ∧ size (dom bc) < size all ∧
        absent = sorted (elements (all ∖ dom bc)).
Proof.
  unfold missing_entry. destruct o as [bc|]; cbn; [|naive_solver].
  case_decide; naive_solver.
Qed.

(** C2. A path of the checksum table is in the missing-files finding exactly
    when the builds of its row are a strict subset of the builds seen
    anywhere in the table; the list recorded for it is sorted ascending and
    holds exactly the builds of the table that the row lacks.  The builds
    seen are those with an entry under some path, so a build with no entry
    at all is in no list. *)
Theorem missing_files_spec checksums file_sizes p :
  (p ∈ dom (missing_files (find_inconsistencies checksums file_sizes)) ↔
   ∃ bc, checksums !! p = Some bc ∧ dom bc ⊂ all_build_numbers checksums) ∧
  (∀ absent,
     missing_files (find_inconsistencies checksums file_sizes) !! p
       = Some absent →
     Sorted String.le absent ∧ NoDup absent ∧
     ∀ b, b ∈ absent ↔
          b ∈ all_build_numbers checksums ∧ (checksums !! p) ≫= (.!! b) = None) ∧
  (∀ b, b ∈ all_build_numbers checksums ↔
        ∃ q bc, checksums !! q = Some bc ∧ is_Some (bc !! b)) ∧
  (∀ b absent,
     (∀ q bc, checksums !! q = Some bc → bc !! b = None) →
     missing_files (find_inconsistencies checksums file_sizes) !! p
       = Some absent →
     b ∉ absent).
Proof.
  assert (Hlist : ∀ absent,
    missing_files (find_inconsistencies checksums file_sizes) !! p
      = Some absent →
    Sorted String.le absent ∧ NoDup absent ∧
    ∀ b, b ∈ absent ↔
         b ∈ all_build_numbers checksums ∧ (checksums !! p) ≫= (.!! b) = None).
  { intros absent. rewrite lookup_missing_files.
    intros (bc & Hp & _ & ->)%missing_entry_Some. split; [|split].
    - apply sorted_Sorted.
    - rewrite sorted_Permutation. apply NoDup_elements.
    - intros b. rewrite elem_of_sorted, elem_of_elements, elem_of_difference.
      rewrite Hp. cbn. by rewrite not_elem_of_dom. }
  split; [|split; [done|split]].
  - rewrite elem_of_dom. unfold is_Some.
    setoid_rewrite lookup_missing_files. setoid_rewrite missing_entry_Some.
    split.
    + intros (? & bc & Hp & Hlt & _). exists bc. split; [done|].
      apply size_lt_subset; [|done].
      by eapply dom_subseteq_all_build_numbers.
    + intros (bc & Hp & Hsub). eexists _, bc. split; [done|]. split; [|done].
      apply size_lt_subset; [|done].
      by eapply dom_subseteq_all_build_numbers.
  - apply elem_of_all_build_numbers.
  - intros b absent Hnone (_ & _ & Hmem)%Hlist [Hb _]%Hmem.
    apply elem_of_all_build_numbers in Hb as (q & bc & Hq & [c Hc]).
    specialize (Hnone q bc Hq). congruence.
Qed.

(** C10. A path whose row of the checksum table holds a single build is in
    neither the inconsistent-checksum nor the size-differences finding; it
    is in the missing-files finding exactly when the table has seen some
    other build. *)
Theorem single_build_path checksums file_sizes p bc b :
  checksums !! p = Some bc →
  dom bc = {[b]} →
  (p ∉ dom (inconsistent_files (find_inconsistencies checksums file_sizes))) ∧
  (p ∉ dom (size_differences (find_inconsistencies checksums file_sizes))) ∧
  (p ∈ dom (missing_files (find_inconsistencies checksums file_sizes)) ↔
   ∃ b', b' ≠ b ∧ b' ∈ all_build_numbers checksums).
Proof.
  intros Hp Hdom.
  assert (Hinc :
    p ∉ dom (inconsistent_files (find_inconsistencies checksums file_sizes))).
  { rewrite elem_of_dom, lookup_inconsistent_files, Hp.
    intros (bc' & [= <-] & Hsz)%inconsistent_entry_is_Some.
    assert (size (distinct_values bc) ≤ 1)%nat; [|lia].
    apply distinct_values_size_le_1. intros k1 k2 v1 v2 H1 H2.
    apply elem_of_dom_2 in H1 as Hk1. apply elem_of_dom_2 in H2 as Hk2.
    rewrite Hdom, elem_of_singleton in Hk1, Hk2. congruence. }
  split; [done|]. split.
  - intros Hsd. apply Hinc.
    by apply size_differences_dom_iff in Hsd as [? _].
  - rewrite elem_of_dom. unfold is_Some.
    setoid_rewrite lookup_missing_files. setoid_rewrite missing_entry_Some.
    rewrite Hp. pose proof (dom_subseteq_all_build_numbers _ _ _ Hp) as Hsub.
    split.
    + intros (? & ? & [= <-] & Hlt & _).
      apply size_lt_subset in Hlt as [_ Hnsub]; [|done].
      destruct (set_choose_or_empty (all_build_numbers checksums ∖ dom bc))
        as [[b' Hb']|Hemp].
      * exists b'. apply elem_of_difference in Hb' as [Hb' Hn].
        split; [|done]. intros ->. apply Hn. rewrite Hdom.
        by apply elem_of_singleton.
      * exfalso. apply Hnsub. intros b0 Hb0.
        destruct (decide (b0 ∈ dom bc)) as [|Hn]; [done|]. exfalso.
        apply (not_elem_of_empty (C:=gset string) b0). rewrite <-Hemp.
        by apply elem_of_difference.
    + intros (b' & Hne & Hb'). eexists _, bc. split; [done|]. split; [|done].
      apply size_lt_subset; [done|]. split; [done|]. intros Hsup.
      apply Hsup in Hb'. rewrite Hdom in Hb'. by apply elem_of_singleton in Hb'.
Qed.

Lemma size_entry_after o sizes :
  size_entry o (sizes_after_entry o sizes) = size_entry o sizes.
Proof.
  unfold size_entry, sizes_after_entry.
  destruct sizes, (inconsistent_entry o); done.
Qed.

Lemma sizes_after_entry_idemp o sizes :
  sizes_after_entry o (sizes_after_entry o sizes) = sizes_after_entry o sizes.
Proof.
  unfold sizes_after_entry. destruct sizes, (inconsistent_entry o); done.
Qed.

Lemma file_sizes_after_unchanged_iff checksums file_sizes :
  file_sizes_after (find_inconsistencies checksums file_sizes) = file_sizes ↔
  dom (inconsistent_files (find_inconsistencies checksums file_sizes))
    ⊆ dom file_sizes.
Proof.
  split.
  - intros Heq p. rewrite !elem_of_dom, lookup_inconsistent_files.
    intros [bc Hbc]. rewrite <-Heq at 1. rewrite lookup_file_sizes_after.
    unfold sizes_after_entry. rewrite Hbc. by destruct (file_sizes !! p).
  - intros Hsub. apply map_eq. intros p. rewrite lookup_file_sizes_after.
    specialize (Hsub p). rewrite !elem_of_dom, lookup_inconsistent_files in Hsub.
    unfold sizes_after_entry.
    destruct (file_sizes !! p) as [s|] eqn:Hs; [done|].
    destruct (inconsistent_entry (checksums !! p)) as [bc|]; [|done].
    destruct Hsub as [? [=]]. by eexists.
Qed.

(** The collector's tables have the same paths, and then the detector
    leaves the size table as it found it. *)
Lemma file_sizes_after_same_paths checksums file_sizes :
  dom checksums ⊆ dom file_sizes →
  file_sizes_after (find_inconsistencies checksums file_sizes) = file_sizes.
Proof.
  intros Hsub. apply file_sizes_after_unchanged_iff. intros p.
  rewrite elem_of_dom, lookup_inconsistent_files.
  intros (bc & Hp & _)%inconsistent_entry_is_Some. apply Hsub.
  by apply elem_of_dom_2 in Hp.
Qed.

(** C8.  On two tables of which the size table has a row for every path
    of the checksum table (as the data model has them, and as the collector
    returns them), the detector changes nothing: the size table is after
    the run what it was before, and a second run returns the same
    inconsistent-checksum, missing-files and size-differences findings and
    again leaves the size table as it is.  The checksum table is only
    read: no line of the function assigns into it. *)
Theorem find_inconsistencies_idempotent checksums file_sizes :
  dom checksums ⊆ dom file_sizes →
  file_sizes_after (find_inconsistencies checksums file_sizes) = file_sizes ∧
  inconsistent_files
    (find_inconsistencies checksums
       (file_sizes_after (find_inconsistencies checksums file_sizes)))
  = inconsistent_files (find_inconsistencies checksums file_sizes) ∧
  missing_files
    (find_inconsistencies checksums
       (file_sizes_after (find_inconsistencies checksums file_sizes)))
  = missing_files (find_inconsistencies checksums file_sizes) ∧
  size_differences
    (find_inconsistencies checksums
       (file_sizes_after (find_inconsistencies checksums file_sizes)))
  = size_differences (find_inconsistencies checksums file_sizes) ∧
  file_sizes_after
    (find_inconsistencies checksums
       (file_sizes_after (find_inconsistencies checksums file_sizes)))
  = file_sizes.
Proof.
  intros Hsub.
  pose proof (file_sizes_after_same_paths checksums file_sizes Hsub) as Hsame.
  rewrite !Hsame. done.
Qed.

Lemma find_inconsistencies_idempotent_witness :
  dom two_build_checksums ⊆ dom two_build_sizes ∧
  file_sizes_after (find_inconsistencies two_build_checksums two_build_sizes)
  = two_build_sizes ∧
  inconsistent_files
    (find_inconsistencies two_build_checksums
       (file_sizes_after
          (find_inconsistencies two_build_checksums two_build_sizes)))
  = two_build_checksums ∧
  size_differences
    (find_inconsistencies two_build_checksums
       (file_sizes_after
          (find_inconsistencies two_build_checksums two_build_sizes)))
  = two_build_sizes.
Proof.
  assert (Hdom : dom two_build_checksums ⊆ dom two_build_sizes).
  { unfold two_build_checksums, two_build_sizes.
    by rewrite !dom_singleton_L. }
  destruct (find_inconsistencies_idempotent
              two_build_checksums two_build_sizes Hdom)
    as (Hafter & Hinc & _ & Hsize & _).
  split; [exact Hdom|]. split; [exact Hafter|].
  rewrite Hinc, Hsize. split; apply map_eq; intros p.
  - rewrite lookup_inconsistent_files.
    destruct (decide (p = "dist-zip/app.bin")) as [->|Hne].
    + vm_compute. reflexivity.
    + unfold two_build_checksums. by rewrite lookup_singleton_ne.
  - rewrite lookup_size_differences.
    destruct (decide (p = "dist-zip/app.bin")) as [->|Hne].
    + vm_compute. reflexivity.
    + unfold two_build_checksums, two_build_sizes.
      by rewrite !lookup_singleton_ne.
Defined.

Lemma single_build_path_witness :
  lone_build_checksums !! "dist-zip/a" = Some {[ "001" := "aa" ]} ∧
  dom ({[ "001" := "aa" ]} : gmap string string) = {[ "001" ]} ∧
  ("dist-zip/a"
     ∉ dom (inconsistent_files (find_inconsistencies lone_build_checksums ∅))) ∧
  ("dist-zip/a"
     ∉ dom (size_differences (find_inconsistencies lone_build_checksums ∅))) ∧
  ("dist-zip/a"
     ∈ dom (missing_files (find_inconsistencies lone_build_checksums ∅)) ↔
   ∃ b', b' ≠ "001" ∧ b' ∈ all_build_numbers lone_build_checksums).
Proof.
  split; [reflexivity|]. split; [vm_compute; reflexivity|].
  apply (single_build_path lone_build_checksums ∅ "dist-zip/a"
           {[ "001" := "aa" ]} "001");
    [reflexivity | vm_compute; reflexivity].
Defined.

End detector_claims.
(** ** Traces *)

Create HintDb io discriminated.

Lemma appends_ret {A} (a : A) : appends (mret a : io A).
Proof. intros tr. unfold events, outcome. cbn. by rewrite app_nil_r. Qed.

Lemma appends_raise {A} (e : exn) : appends (raise e : io A).
Proof. intros tr. unfold events, outcome. cbn. by rewrite app_nil_r. Qed.

Lemma appends_bind {A B} (m : io A) (k : A → io B) :
  appends m → (∀ a, appends (k a)) → appends (m ≫= k).
Proof.
  intros Hm Hk tr. unfold events, outcome, mbind, io_bind.
  rewrite (Hm tr), (Hm []). cbn.
  destruct (outcome m) as [e|a]; [done|].
  rewrite (Hk a (tr ++ events m)), (Hk a (events m)). cbn.
  by rewrite app_assoc.
Qed.

(** The events and the outcome of a sequence. *)
Lemma events_bind {A B} (m : io A) (k : A → io B) :
  appends m → (∀ a, appends (k a)) →
  events (m ≫= k)
  = events m ++ match outcome m with inr a => events (k a) | inl _ => [] end.
Proof.
  intros Hm Hk. unfold events at 1, mbind, io_bind.
  rewrite (Hm []). cbn. destruct (outcome m) as [e|a]; cbn.
  - by rewrite app_nil_r.
  - by rewrite (Hk a (events m)).
Qed.

Lemma outcome_bind {A B} (m : io A) (k : A → io B) :
  appends m → (∀ a, appends (k a)) →
  outcome (m ≫= k)
  = match outcome m with inr a => outcome (k a) | inl e => inl e end.
Proof.
  intros Hm Hk. unfold outcome at 1, mbind, io_bind.
  rewrite (Hm []). cbn. destruct (outcome m) as [e|a]; cbn; [done|].
  by rewrite (Hk a (events m)).
Qed.

Lemma appends_for_each {A B} (xs : list B) (body : B → A → io A) (acc : A) :
  (∀ x s, appends (body x s)) → appends (for_each xs body acc).
Proof.
  intros Hbody. revert acc.
  induction xs as [|x xs IH]; intros acc; cbn [for_each].
  - apply appends_ret.
  - apply appends_bind; [apply Hbody|apply IH].
Qed.

Lemma appends_emit (e : event) : appends (emit e).
Proof. done. Qed.

Lemma appends_print (line : string) : appends (print line).
Proof. done. Qed.

Global Hint Resolve appends_ret appends_raise appends_emit appends_print : io.
Global Hint Extern 2 (appends (_ ≫= _)) =>
  apply appends_bind; [|intros ?] : io.
Global Hint Extern 2 (appends (for_each _ _ _)) =>
  apply appends_for_each; intros ? ? : io.
Global Hint Extern 3 (appends (match ?x with _ => _ end)) =>
  destruct x : io.
Global Hint Extern 3 (appends (let '(_, _) := ?x in _)) =>
  destruct x : io.

Ltac solve_appends := repeat (cbn beta; auto 20 with io).

(** Printing computations. *)
Lemma prints_only_ret : prints_only (mret tt).
Proof. split; [done|constructor]. Qed.

Lemma prints_only_print line : prints_only (print line).
Proof. split; [done|]. repeat constructor. by eexists. Qed.

Lemma prints_only_bind (m : io unit) (k : unit → io unit) :
  appends m → (∀ a, appends (k a)) →
  prints_only m → prints_only (k tt) → prints_only (m ≫= k).
Proof.
  intros Hm Hk [Hout Hev] [Hout' Hev']. split.
  - by rewrite outcome_bind, Hout.
  - rewrite events_bind, Hout by done. by apply Forall_app.
Qed.

Lemma prints_only_for_each {A} (xs : list A) (body : A → unit → io unit) :
  (∀ x s, appends (body x s)) →
  (∀ x, prints_only (body x tt)) → prints_only (for_each xs body tt).
Proof.
  intros Happ Hbody. induction xs as [|x xs IH]; cbn [for_each].
  - apply prints_only_ret.
  - apply prints_only_bind; [done| |done|done].
    intros a. by apply appends_for_each.
Qed.

(** After a printing computation the next one runs. *)
Lemma bind_after_prints {B} (m : io unit) (k : unit → io B) :
  appends m → (∀ a, appends (k a)) → prints_only m →
  outcome (m ≫= k) = outcome (k tt) ∧
  events (m ≫= k) = events m ++ events (k tt).
Proof.
  intros Hm Hk [Hout _]. by rewrite outcome_bind, events_bind, Hout.
Qed.

Global Hint Resolve prints_only_ret prints_only_print : io.
Global Hint Extern 2 (prints_only (_ ≫= _)) =>
  apply prints_only_bind; [| intros ? | |] : io.
Global Hint Extern 2 (prints_only (for_each _ _ _)) =>
  apply prints_only_for_each; [intros ? ?|intros ?] : io.

(** Computations that raise nothing but [OSError]. *)
Lemma oserror_ret {A} (a : A) : raises_only_oserror (mret a : io A).
Proof. by intros e. Qed.

Lemma oserror_raise {A} path : raises_only_oserror (raise (OSError path) : io A).
Proof. intros e [= <-]. by eexists. Qed.

Lemma oserror_emit e : raises_only_oserror (emit e).
Proof. by intros e'. Qed.

Lemma oserror_print line : raises_only_oserror (print line).
Proof. by intros e'. Qed.

Lemma oserror_bind {A B} (m : io A) (k : A → io B) :
  appends m → (∀ a, appends (k a)) →
  raises_only_oserror m → (∀ a, raises_only_oserror (k a)) →
  raises_only_oserror (m ≫= k).
Proof.
  intros Hm Hk Hom Hok e. rewrite outcome_bind by done.
  destruct (outcome m) as [e'|a] eqn:Hout.
  - intros [= <-]. by apply Hom.
  - apply Hok.
Qed.

Lemma oserror_for_each {A B} (xs : list B) (body : B → A → io A) (acc : A) :
  (∀ x s, appends (body x s)) →
  (∀ x s, raises_only_oserror (body x s)) →
  raises_only_oserror (for_each xs body acc).
Proof.
  intros Happ Hbody. revert acc.
  induction xs as [|x xs IH]; intros acc; cbn [for_each].
  - apply oserror_ret.
  - apply oserror_bind; [done| |done|done].
    intros a. by apply appends_for_each.
Qed.

Global Hint Resolve oserror_ret oserror_raise oserror_emit oserror_print : io.
Global Hint Extern 2 (raises_only_oserror (_ ≫= _)) =>
  apply oserror_bind; [| intros ? | | intros ?] : io.
Global Hint Extern 2 (raises_only_oserror (for_each _ _ _)) =>
  apply oserror_for_each; intros ? ? : io.
Global Hint Extern 3 (raises_only_oserror (match ?x with _ => _ end)) =>
  destruct x : io.
Global Hint Extern 3 (raises_only_oserror (let '(_, _) := ?x in _)) =>
  destruct x : io.

Lemma appends_find_builds w dist_record_dir version :
  appends (find_builds w dist_record_dir version).
Proof. unfold find_builds, os_listdir. solve_appends. Qed.

Lemma appends_os_getsize w path : appends (os_getsize w path).
Proof. unfold os_getsize. solve_appends. Qed.

Lemma appends_print_summary build_numbers found :
  appends (print_summary build_numbers found).
Proof. unfold print_summary. solve_appends. Qed.

Lemma appends_print_inconsistent inconsistent :
  appends (print_inconsistent inconsistent).
Proof. unfold print_inconsistent. solve_appends. Qed.

Lemma appends_write_report w output_file doc :
  appends (write_report w output_file doc).
Proof. unfold write_report. solve_appends. Qed.

Global Hint Resolve appends_find_builds appends_os_getsize
  appends_print_summary appends_print_inconsistent appends_write_report : io.

Lemma prints_only_print_summary build_numbers found :
  prints_only (print_summary build_numbers found).
Proof. unfold print_summary. solve_appends. Qed.

Lemma prints_only_print_inconsistent inconsistent :
  prints_only (print_inconsistent inconsistent).
Proof. unfold print_inconsistent. destruct inconsistent; solve_appends. Qed.

Lemma appends_generate_report w found builds output_file :
  appends (generate_report w found builds output_file).
Proof. unfold generate_report. solve_appends. Qed.

Global Hint Resolve appends_generate_report : io.

Section io_program_facts.
Context `{HashObject H}.

Lemma appends_calculate_file_checksum w file_path :
  appends (calculate_file_checksum w file_path).
Proof. unfold calculate_file_checksum. solve_appends. Qed.

Local Hint Resolve appends_calculate_file_checksum : io.

Lemma appends_record_file w build_path build_number file_path tables :
  appends (record_file w build_path build_number file_path tables).
Proof. unfold record_file. destruct tables. solve_appends. Qed.

Local Hint Resolve appends_record_file : io.

Lemma appends_process_output_dir w build_path build_number name tables :
  appends (process_output_dir w build_path build_number name tables).
Proof. unfold process_output_dir. solve_appends. Qed.

Local Hint Resolve appends_process_output_dir : io.

Lemma appends_process_build w build_path tables :
  appends (process_build w build_path tables).
Proof. unfold process_build. solve_appends. Qed.

Local Hint Resolve appends_process_build : io.

Lemma appends_compare_checksums w builds :
  appends (compare_checksums w builds).
Proof. unfold compare_checksums. solve_appends. Qed.

Local Hint Resolve appends_compare_checksums : io.

Lemma oserror_compare_checksums w builds :
  raises_only_oserror (compare_checksums w builds).
Proof.
  unfold compare_checksums, process_build, process_output_dir, record_file,
    calculate_file_checksum, os_getsize.
  solve_appends.
Qed.

Lemma appends_ordered_record_file w build_path build_number file_path tables :
  appends (Ordered.record_file w build_path build_number file_path tables).
Proof. unfold Ordered.record_file. destruct tables. solve_appends. Qed.

Local Hint Resolve appends_ordered_record_file : io.

Lemma appends_ordered_process_output_dir w build_path build_number name tables :
  appends (Ordered.process_output_dir w build_path build_number name tables).
Proof. unfold Ordered.process_output_dir. solve_appends. Qed.

Local Hint Resolve appends_ordered_process_output_dir : io.

Lemma appends_ordered_process_build w build_path tables :
  appends (Ordered.process_build w build_path tables).
Proof. unfold Ordered.process_build. solve_appends. Qed.

Local Hint Resolve appends_ordered_process_build : io.

Lemma appends_ordered_compare_checksums w builds :
  appends (Ordered.compare_checksums w builds).
Proof. unfold Ordered.compare_checksums. solve_appends. Qed.

Local Hint Resolve appends_ordered_compare_checksums : io.

Lemma appends_parse_args argv : appends (parse_args argv).
Proof. unfold parse_args. solve_appends. Qed.

Local Hint Resolve appends_parse_args : io.

Lemma appends_main w argv : appends (main w argv).
Proof. unfold main. solve_appends. Qed.

End io_program_facts.

(** ** The collector *)

Lemma lookup_defaultdict_setitem {V} (d : gmap string (gmap string V))
    (k1 k2 : string) (v : V) (p : string) :
  defaultdict_setitem d k1 k2 v !! p
  = if decide (p = k1) then Some (<[k2 := v]> (default ∅ (d !! k1)))
    else d !! p.
Proof.
  unfold defaultdict_setitem, defaultdict_getitem.
  destruct (d !! k1) as [row|] eqn:Hrow; cbn; case_decide; subst;
    rewrite ?lookup_insert_eq, ?lookup_insert_ne by done; done.
Qed.

(** A loop keeps what every pass that does not raise keeps. *)
Lemma for_each_inv {A S} (I : S → Prop) (xs : list A) (body : A → S → io S) :
  (∀ x s tr tr' s', I s → body x s tr = (tr', inr s') → I s') →
  ∀ acc tr tr' acc',
    I acc → for_each xs body acc tr = (tr', inr acc') → I acc'.
Proof.
  intros Hbody. induction xs as [|x xs IH]; intros acc tr tr' acc' Hacc.
  - cbn. by intros [= _ <-].
  - cbn [for_each]. unfold mbind, io_bind.
    destruct (body x acc tr) as [tr1 [e|s1]] eqn:Hx; [done|].
    apply IH. by eapply Hbody.
Qed.

Section collector_facts.
Context `{HashObject H}.
Implicit Types (w : world) (tables : checksum_table * size_table).

(** A pass of the inner loop that does not raise has read the file and
    its size and has written both tables under the same two keys. *)
Lemma record_file_inr w build_path build_number file_path tables tr tr' tables' :
  record_file w build_path build_number file_path tables tr = (tr', inr tables') →
  ∃ content size,
    file_bytes w file_path = Some content ∧
    getsize w file_path = Some size ∧
    tables'.1 = defaultdict_setitem tables.1
                  (get_relative_path w file_path build_path) build_number
                  (checksum_of_bytes content) ∧
    tables'.2 = defaultdict_setitem tables.2
                  (get_relative_path w file_path build_path) build_number size ∧
    tr' = tr ++ [EvOpen file_path; EvGetSize file_path].
Proof.
  destruct tables as [checksums file_sizes].
  unfold record_file, calculate_file_checksum, os_getsize.
  unfold mbind, io_bind, emit, mret, io_ret, raise.
  destruct (file_bytes w file_path) as [content|]; [|done].
  destruct (getsize w file_path) as [size|]; [|done].
  intros [= <- <-]. exists content, size. cbn.
  by rewrite <-app_assoc.
Qed.

(** What every pass of the inner loop keeps, the collector establishes. *)
Lemma compare_checksums_inv w (I : checksum_table * size_table → Prop) :
  I (∅, ∅) →
  (∀ build_path build_number file_path tables tr tr' tables',
     I tables →
     record_file w build_path build_number file_path tables tr
       = (tr', inr tables') →
     I tables') →
  ∀ builds tr tr' tables,
    compare_checksums w builds tr = (tr', inr tables) → I tables.
Proof.
  intros Hinit Hstep builds tr tr' tables.
  assert (Hdir : ∀ build_path build_number name tables tr tr' tables',
    I tables →
    process_output_dir w build_path build_number name tables tr
      = (tr', inr tables') → I tables').
  { intros build_path build_number name t0 tr0 tr1 t1 Ht0.
    unfold process_output_dir. destruct (path_exists w _).
    - apply for_each_inv; [|done]. intros ??????. by apply Hstep.
    - by intros [= _ <-]. }
  unfold compare_checksums. apply for_each_inv; [|done].
  intros build_path t0 tr0 tr1 t1 Ht0. unfold process_build, mbind, io_bind.
  destruct (process_output_dir w build_path _ "dist-firefox" t0 tr0)
    as [tr2 [e|t2]] eqn:H2; [done|].
  destruct (process_output_dir w build_path _ "dist-chrome" t2 tr2)
    as [tr3 [e|t3]] eqn:H3; [done|].
  intros H4. eapply Hdir; [|exact H4]. eapply Hdir; [|exact H3].
  by eapply Hdir.
Qed.

(** C9. When the collector returns its tables, they have the same paths,
    and under every path the same builds: the checksum table has an entry
    for a path and a build exactly when the size table has one. *)
Theorem compare_checksums_same_keys w builds tr tr' checksums file_sizes :
  compare_checksums w builds tr = (tr', inr (checksums, file_sizes)) →
  dom checksums = dom file_sizes ∧
  ∀ rel_path build_number,
    is_Some ((checksums !! rel_path) ≫= (.!! build_number)) ↔
    is_Some ((file_sizes !! rel_path) ≫= (.!! build_number)).
Proof.
  intros Hrun.
  assert (Hrows : ∀ p, dom <$> checksums !! p = dom <$> file_sizes !! p).
  { revert Hrun. apply (compare_checksums_inv w
      (λ tables, ∀ p, dom <$> tables.1 !! p = dom <$> tables.2 !! p));
      [done|].
    intros build_path build_number file_path [cs fs] tr0 tr1 [cs' fs'] Hinv
      (content & size & _ & _ & Hcs & Hfs & _)%record_file_inr p.
    cbn in *. subst cs' fs'. rewrite !lookup_defaultdict_setitem.
    case_decide; [|done]. subst p. cbn. rewrite !dom_insert_L.
    specialize (Hinv (get_relative_path w file_path build_path)).
    destruct (cs !! _), (fs !! _); cbn in *; simplify_eq; try done.
    by rewrite Hinv. }
  split.
  - apply set_eq. intros p. rewrite !elem_of_dom. specialize (Hrows p).
    destruct (checksums !! p), (file_sizes !! p); cbn in *; done.
  - intros p b. specialize (Hrows p).
    destruct (checksums !! p) as [r1|], (file_sizes !! p) as [r2|];
      cbn in *; try done.
    injection Hrows as Hdom. rewrite <-!elem_of_dom. by rewrite Hdom.
Qed.

End collector_facts.

(** ** More about the collector *)

(** A loop whose passes succeed on the elements that are [ok] and raise on
    the others: it returns exactly when all elements are [ok], and then its
    events are those of the passes in order; otherwise it raises what the
    pass of some element that is not [ok] raises. *)
Lemma for_each_run {A S} (xs : list A) (body : A → S → io S)
    (ok : A → bool) (ev : A → list event) (P : A → exn → Prop) :
  (∀ x s, appends (body x s)) →
  (∀ x s, ok x = true →
     ∃ s', outcome (body x s) = inr s' ∧ events (body x s) = ev x) →
  (∀ x s, ok x = false → ∃ e, outcome (body x s) = inl e ∧ P x e) →
  ∀ acc,
    if forallb ok xs
    then ∃ acc', outcome (for_each xs body acc) = inr acc' ∧
                 events (for_each xs body acc) = xs ≫= ev
    else ∃ x e, x ∈ xs ∧ ok x = false ∧ P x e ∧
                outcome (for_each xs body acc) = inl e.
Proof.
  intros Happ Hok Hfail.
  induction xs as [|x xs IH]; intros acc; cbn [forallb for_each].
  - by exists acc.
  - assert (Hloop : ∀ a, appends (for_each xs body a))
      by (intros a; by apply appends_for_each).
    rewrite outcome_bind, events_bind by done.
    destruct (ok x) eqn:Hx; cbn [andb].
    + destruct (Hok x acc Hx) as (s' & -> & ->). specialize (IH s').
      destruct (forallb ok xs).
      * destruct IH as (acc' & -> & ->). by exists acc'.
      * destruct IH as (y & e & Hy & Hbad & HP & ->).
        exists y, e. split; [by right|done].
    + destruct (Hfail x acc Hx) as (e & -> & HP). exists x, e.
      split; [by left|done].
Qed.

Lemma forallb_bind {A B} (f : B → bool) (g : A → list B) (xs : list A) :
  forallb f (xs ≫= g) = forallb (λ x, forallb f (g x)) xs.
Proof.
  induction xs as [|x xs IH]; [done|].
  cbn. by rewrite forallb_app, IH.
Qed.

Lemma list_bind_assoc {A B C} (f : A → list B) (g : B → list C) (xs : list A) :
  (xs ≫= f) ≫= g = xs ≫= (λ x, f x ≫= g).
Proof.
  induction xs as [|x xs IH]; [done|]. cbn. by rewrite bind_app, IH.
Qed.

Section collector_more.
Context `{HashObject H}.
Implicit Types (w : world) (tables : checksum_table * size_table).

Local Hint Resolve appends_record_file appends_process_output_dir
  appends_process_build appends_compare_checksums : io.

Lemma record_file_ok w build_path build_number file_path tables :
  file_ok w file_path = true →
  ∃ tables',
    outcome (record_file w build_path build_number file_path tables)
      = inr tables' ∧
    events (record_file w build_path build_number file_path tables)
      = file_events file_path.
Proof.
  unfold file_ok. intros [[c Hc]%bool_decide_eq_true [s Hs]%bool_decide_eq_true]%andb_true_iff.
  destruct tables as [checksums file_sizes].
  unfold outcome, events, record_file, calculate_file_checksum, os_getsize,
    mbind, io_bind, emit, mret, io_ret.
  rewrite Hc, Hs. cbn. by eexists.
Qed.

Lemma record_file_fail w build_path build_number file_path tables :
  file_ok w file_path = false →
  outcome (record_file w build_path build_number file_path tables)
    = inl (OSError file_path).
Proof.
  unfold file_ok. intros Hfail.
  destruct tables as [checksums file_sizes].
  unfold outcome, events, record_file, calculate_file_checksum, os_getsize,
    mbind, io_bind, emit, mret, io_ret, raise.
  destruct (file_bytes w file_path) as [c|]; [|done].
  destruct (getsize w file_path) as [s|]; [|done].
  rewrite !bool_decide_eq_true_2 in Hfail by by eexists. done.
Qed.

Lemma process_output_dir_run w build_path build_number name tables :
  let files := if path_exists w (path_join build_path name)
               then get_all_files w (path_join build_path name) else [] in
  if forallb (file_ok w) files
  then ∃ tables',
         outcome (process_output_dir w build_path build_number name tables)
           = inr tables' ∧
         events (process_output_dir w build_path build_number name tables)
           = files ≫= file_events
  else ∃ file_path,
         file_path ∈ files ∧ file_ok w file_path = false ∧
         outcome (process_output_dir w build_path build_number name tables)
           = inl (OSError file_path).
Proof.
  cbn zeta. unfold process_output_dir.
  destruct (path_exists w (path_join build_path name)).
  - pose proof (for_each_run (get_all_files w (path_join build_path name))
                  (record_file w build_path build_number) (file_ok w)
                  file_events (λ x e, e = OSError x)) as Hrun.
    specialize (Hrun (appends_record_file w build_path build_number)).
    specialize (Hrun (λ x s, record_file_ok w build_path build_number x s)).
    specialize (Hrun (λ x s Hx, ex_intro _ (OSError x)
      (conj (record_file_fail w build_path build_number x s Hx) eq_refl))).
    specialize (Hrun tables).
    destruct (forallb (file_ok w) _); [done|].
    destruct Hrun as (x & e & Hin & Hbad & -> & Hout). by exists x.
  - cbn. by exists tables.
Qed.

Lemma process_build_run w build_path tables :
  if forallb (file_ok w) (build_files w build_path)
  then ∃ tables',
         outcome (process_build w build_path tables) = inr tables' ∧
         events (process_build w build_path tables)
           = build_files w build_path ≫= file_events
  else ∃ file_path,
         file_path ∈ build_files w build_path ∧
         file_ok w file_path = false ∧
         outcome (process_build w build_path tables) = inl (OSError file_path).
Proof.
  unfold process_build, build_files, output_dirs.
  rewrite !outcome_bind, !events_bind by solve_appends.
  cbn [mbind list_bind app]. rewrite ?app_nil_r.
  rewrite !forallb_app, !bind_app.
  pose proof (process_output_dir_run w build_path
                (build_number_of build_path) "dist-firefox" tables) as H1.
  cbn zeta in H1.
  destruct (forallb (file_ok w) _) in H1 |- *; cbn [andb].
  2:{ destruct H1 as (f & Hin & Hbad & ->). exists f.
      rewrite !elem_of_app. auto. }
  destruct H1 as (t1 & -> & ->).
  rewrite outcome_bind, events_bind by solve_appends.
  pose proof (process_output_dir_run w build_path
                (build_number_of build_path) "dist-chrome" t1) as H2.
  cbn zeta in H2.
  destruct (forallb (file_ok w) _) in H2 |- *; cbn [andb].
  2:{ destruct H2 as (f & Hin & Hbad & ->). exists f.
      rewrite !elem_of_app. auto. }
  destruct H2 as (t2 & -> & ->).
  pose proof (process_output_dir_run w build_path
                (build_number_of build_path) "dist-zip" t2) as H3.
  cbn zeta in H3.
  destruct (forallb (file_ok w) _) in H3 |- *; cbn [andb].
  2:{ destruct H3 as (f & Hin & Hbad & ->). exists f.
      rewrite !elem_of_app. auto. }
  destruct H3 as (t3 & -> & ->). exists t3. split; [done|].
  by rewrite ?app_nil_r, <-?app_assoc.
Qed.

(** The two ways the collector ends, by whether every visited file can be
    read. *)
Lemma compare_checksums_cases w builds :
  if forallb (file_ok w) (visited_files w builds)
  then ∃ tables,
         outcome (compare_checksums w builds) = inr tables ∧
         events (compare_checksums w builds)
           = visited_files w builds ≫= file_events
  else ∃ file_path,
         file_path ∈ visited_files w builds ∧
         file_ok w file_path = false ∧
         outcome (compare_checksums w builds) = inl (OSError file_path).
Proof.
  unfold visited_files, compare_checksums.
  rewrite forallb_bind, list_bind_assoc.
  pose proof (for_each_run builds (process_build w)
                (λ b, forallb (file_ok w) (build_files w b))
                (λ b, build_files w b ≫= file_events)
                (λ b e, ∃ f, f ∈ build_files w b ∧ file_ok w f = false ∧
                             e = OSError f)) as Hrun.
  specialize (Hrun (appends_process_build w)).
  assert (Hok : ∀ b s, forallb (file_ok w) (build_files w b) = true →
    ∃ s', outcome (process_build w b s) = inr s' ∧
          events (process_build w b s) = build_files w b ≫= file_events).
  { intros b s Hb. pose proof (process_build_run w b s) as Hb'.
    by rewrite Hb in Hb'. }
  assert (Hfail : ∀ b s, forallb (file_ok w) (build_files w b) = false →
    ∃ e, outcome (process_build w b s) = inl e ∧
         ∃ f, f ∈ build_files w b ∧ file_ok w f = false ∧ e = OSError f).
  { intros b s Hb. pose proof (process_build_run w b s) as Hb'.
    rewrite Hb in Hb'. destruct Hb' as (f & Hin & Hbad & Hout).
    exists (OSError f). split; [done|]. by exists f. }
  specialize (Hrun Hok Hfail (∅, ∅)).
  destruct (forallb _ builds); [done|].
  destruct Hrun as (b & e & Hin & _ & (f & Hf & Hbad & ->) & Hout).
  exists f. split; [|done]. apply list_elem_of_bind. by exists b.
Qed.

Lemma lookup2_defaultdict_setitem {V} (d : gmap string (gmap string V))
    (k1 k2 : string) (v : V) (p b : string) :
  (defaultdict_setitem d k1 k2 v !! p) ≫= (.!! b)
  = if decide (p = k1 ∧ b = k2) then Some v else (d !! p) ≫= (.!! b).
Proof.
  rewrite lookup_defaultdict_setitem.
  destruct (decide (p = k1)) as [->|Hp]; cbn.
  - destruct (decide (b = k2)) as [->|Hb].
    + rewrite lookup_insert_eq. by rewrite decide_True.
    + rewrite lookup_insert_ne by done. rewrite decide_False by naive_solver.
      by destruct (d !! k1).
  - by rewrite decide_False by naive_solver.
Qed.

(** A loop keeps what every pass over one of its elements keeps. *)
Lemma for_each_inv_elem {A S} (I : S → Prop) (xs : list A)
    (body : A → S → io S) :
  (∀ x s tr tr' s', x ∈ xs → I s → body x s tr = (tr', inr s') → I s') →
  ∀ acc tr tr' acc',
    I acc → for_each xs body acc tr = (tr', inr acc') → I acc'.
Proof.
  induction xs as [|x xs IH]; intros Hbody acc tr tr' acc' Hacc.
  - cbn. by intros [= _ <-].
  - cbn [for_each]. unfold mbind, io_bind.
    destruct (body x acc tr) as [tr1 [e|s1]] eqn:Hx; [done|].
    apply IH.
    + intros y s t t' s' Hy. apply Hbody. by right.
    + eapply Hbody; [by left|done..].
Qed.

(** What every pass of the inner loop keeps, for a build of the list and a
    file the collector visits for it, the collector establishes. *)
Lemma compare_checksums_inv_visited w builds
    (I : checksum_table * size_table → Prop) :
  I (∅, ∅) →
  (∀ build_path file_path tables tr tr' tables',
     build_path ∈ builds → file_path ∈ build_files w build_path →
     I tables →
     record_file w build_path (build_number_of build_path) file_path tables tr
       = (tr', inr tables') →
     I tables') →
  ∀ tr tr' tables,
    compare_checksums w builds tr = (tr', inr tables) → I tables.
Proof.
  intros Hinit Hstep tr tr' tables.
  assert (Hdir : ∀ build_path name tables tr tr' tables',
    build_path ∈ builds → name ∈ output_dirs → I tables →
    process_output_dir w build_path (build_number_of build_path) name tables tr
      = (tr', inr tables') → I tables').
  { intros build_path name t0 tr0 tr1 t1 Hb Hname Ht0.
    unfold process_output_dir.
    destruct (path_exists w (path_join build_path name)) eqn:Hex.
    - apply for_each_inv_elem; [|done]. intros f s t t' s' Hf Hs.
      apply Hstep; [done| |done]. unfold build_files.
      apply list_elem_of_bind. exists name. by rewrite Hex.
    - by intros [= _ <-]. }
  unfold compare_checksums. apply for_each_inv_elem; [|done].
  intros build_path t0 tr0 tr1 t1 Hb Ht0. unfold process_build, mbind, io_bind.
  destruct (process_output_dir w build_path _ "dist-firefox" t0 tr0)
    as [tr2 [e|t2]] eqn:H2; [done|].
  destruct (process_output_dir w build_path _ "dist-chrome" t2 tr2)
    as [tr3 [e|t3]] eqn:H3; [done|].
  intros H4. unfold output_dirs in Hdir.
  eapply (Hdir build_path "dist-zip"); [done|set_solver| |exact H4].
  eapply (Hdir build_path "dist-chrome"); [done|set_solver| |exact H3].
  eapply (Hdir build_path "dist-firefox"); [done|set_solver|done|exact H2].
Qed.

(** The collector either visits every file, returning its tables after
    opening and measuring each file in visiting order and doing nothing
    else, or raises [OSError] for a visited file that cannot be opened or
    measured. *)
Theorem compare_checksums_run w builds :
  if forallb (file_ok w) (visited_files w builds)
  then ∃ tables,
         outcome (compare_checksums w builds) = inr tables ∧
         events (compare_checksums w builds)
           = visited_files w builds ≫= file_events
  else ∃ file_path,
         file_path ∈ visited_files w builds ∧
         file_ok w file_path = false ∧
         outcome (compare_checksums w builds) = inl (OSError file_path).
Proof. apply compare_checksums_cases. Qed.

(** Every entry of the tables the collector returns describes one file it
    visited: the checksum under a path and a build is the digest of the
    bytes of a visited file of that build with that relative path, and the
    size under the same path and build is the size of that same file. *)
Theorem compare_checksums_entries w builds tr tr' checksums file_sizes
    rel_path build_number checksum :
  compare_checksums w builds tr = (tr', inr (checksums, file_sizes)) →
  (checksums !! rel_path) ≫= (.!! build_number) = Some checksum →
  ∃ build_path file_path content size,
    build_path ∈ builds ∧
    file_path ∈ build_files w build_path ∧
    build_number_of build_path = build_number ∧
    get_relative_path w file_path build_path = rel_path ∧
    file_bytes w file_path = Some content ∧
    checksum = checksum_of_bytes content ∧
    getsize w file_path = Some size ∧
    (file_sizes !! rel_path) ≫= (.!! build_number) = Some size.
Proof.
  intros Hrun. revert checksum.
  revert Hrun. apply (compare_checksums_inv_visited w builds
    (λ tables, ∀ checksum,
       (tables.1 !! rel_path) ≫= (.!! build_number) = Some checksum →
       ∃ build_path file_path content size,
         build_path ∈ builds ∧ file_path ∈ build_files w build_path ∧
         build_number_of build_path = build_number ∧
         get_relative_path w file_path build_path = rel_path ∧
         file_bytes w file_path = Some content ∧
         checksum = checksum_of_bytes content ∧
         getsize w file_path = Some size ∧
         (tables.2 !! rel_path) ≫= (.!! build_number) = Some size)).
  - intros checksum. cbn. by rewrite lookup_empty.
  - intros build_path file_path [cs fs] tr0 tr1 [cs' fs'] Hb Hf Hinv
      (content & size & Hc & Hs & Hcs & Hfs & _)%record_file_inr checksum.
    cbn in *. subst cs' fs'. rewrite !lookup2_defaultdict_setitem.
    case_decide as Hkey.
    + destruct Hkey as [-> ->]. intros [= <-].
      by exists build_path, file_path, content, size.
    + apply Hinv.
Qed.

(** The tables the collector returns have no empty row: a path is in a
    table only with at least one build. *)
Theorem compare_checksums_rows_nonempty w builds tr tr' checksums file_sizes :
  compare_checksums w builds tr = (tr', inr (checksums, file_sizes)) →
  (∀ rel_path row, checksums !! rel_path = Some row → row ≠ ∅) ∧
  (∀ rel_path row, file_sizes !! rel_path = Some row → row ≠ ∅).
Proof.
  apply (compare_checksums_inv w
    (λ tables,
       (∀ rel_path row, tables.1 !! rel_path = Some row → row ≠ ∅) ∧
       (∀ rel_path row, tables.2 !! rel_path = Some row → row ≠ ∅))).
  - split; intros p row; cbn; by rewrite lookup_empty.
  - intros build_path build_number file_path [cs fs] tr0 tr1 [cs' fs']
      [Hcs Hfs] (content & size & _ & _ & -> & -> & _)%record_file_inr.
    cbn in *.
    split; intros p row; rewrite lookup_defaultdict_setitem;
      (case_decide; [intros [= <-]; apply insert_non_empty|eauto]).
Qed.

(** The collector's tables have the same paths. *)
Lemma compare_checksums_same_paths w builds tr tr' checksums file_sizes :
  compare_checksums w builds tr = (tr', inr (checksums, file_sizes)) →
  dom checksums = dom file_sizes.
Proof.
  apply (compare_checksums_inv w (λ tables, dom tables.1 = dom tables.2));
    [done|].
  intros build_path build_number file_path [cs fs] tr0 tr1 [cs' fs']
    Hdom (content & size & _ & _ & -> & -> & _)%record_file_inr.
  cbn in *. apply set_eq. intros p.
  rewrite !elem_of_dom, !lookup_defaultdict_setitem.
  case_decide; [split; by eauto|]. by rewrite <-!elem_of_dom, Hdom.
Qed.

(** On the tables the collector returns, the detector leaves the size
    table as the collector built it. *)
Theorem detector_keeps_collected_sizes w builds tr tr' checksums file_sizes :
  compare_checksums w builds tr = (tr', inr (checksums, file_sizes)) →
  file_sizes_after (find_inconsistencies checksums file_sizes) = file_sizes.
Proof.
  intros Hrun%compare_checksums_same_paths.
  apply file_sizes_after_same_paths. by rewrite Hrun.
Qed.

End collector_more.
(** ** Dictionaries in insertion order *)

Section ordered_dict_facts.
Context {V : Type}.
Implicit Types (d : Ordered.dict V) (k : string) (v : V).

Lemma lookup_to_map d k : Ordered.to_map d !! k = Ordered.get d k.
Proof.
  unfold Ordered.to_map. induction d as [|[k' v'] d IH]; [done|].
  cbn. case_decide as Hk.
  - subst. by rewrite lookup_insert_eq.
  - by rewrite lookup_insert_ne.
Qed.

Lemma to_map_setitem d k v :
  Ordered.to_map (Ordered.setitem d k v) = <[k := v]> (Ordered.to_map d).
Proof.
  unfold Ordered.to_map. induction d as [|[k' v'] d IH]; [done|].
  cbn. case_decide as Hk; cbn.
  - subst. by rewrite insert_insert_eq.
  - by rewrite IH, insert_insert_ne.
Qed.

Lemma keys_setitem d k v :
  (Ordered.setitem d k v).*1 = if decide (k ∈ d.*1) then d.*1 else d.*1 ++ [k].
Proof.
  induction d as [|[k' v'] d IH]; cbn.
  - rewrite decide_False; [done|]. by intros ?%elem_of_nil.
  - destruct (decide (k' = k)) as [->|Hk]; cbn.
    + rewrite decide_True by (by left). done.
    + rewrite IH. destruct (decide (k ∈ d.*1)) as [Hin|Hin].
      * rewrite decide_True by (by right). done.
      * rewrite decide_False; [done|].
        intros [?|?]%elem_of_cons; congruence.
Qed.

Lemma keys_unique_setitem d k v :
  Ordered.keys_unique d → Ordered.keys_unique (Ordered.setitem d k v).
Proof.
  unfold Ordered.keys_unique. intros Hd. rewrite keys_setitem.
  case_decide as Hin; [done|].
  apply NoDup_app. split; [done|]. split.
  - intros x Hx ->%list_elem_of_singleton. done.
  - apply NoDup_singleton.
Qed.

Lemma elem_of_setitem d k v item :
  item ∈ Ordered.setitem d k v → item ∈ d ∨ item = (k, v).
Proof.
  induction d as [|[k' v'] d IH]; cbn.
  - intros ->%list_elem_of_singleton. by right.
  - case_decide as Hk.
    + subst. intros [->|Hin]%elem_of_cons; [by right|]. left. by right.
    + intros [->|Hin]%elem_of_cons; [left; by left|].
      destruct (IH Hin) as [?|?]; [left; by right|by right].
Qed.

Lemma length_keys_unique d :
  Ordered.keys_unique d → length d = size (Ordered.to_map d).
Proof.
  intros Hd. unfold Ordered.to_map.
  rewrite <-length_map_to_list. symmetry.
  by rewrite (map_to_list_to_map d Hd).
Qed.

Lemma dom_to_map d : dom (Ordered.to_map d) = list_to_set d.*1.
Proof. unfold Ordered.to_map. apply dom_list_to_map_L. Qed.

Lemma elem_of_keys_unique d k v :
  Ordered.keys_unique d → (k, v) ∈ d ↔ Ordered.to_map d !! k = Some v.
Proof. intros Hd. by apply elem_of_list_to_map. Qed.

End ordered_dict_facts.

Lemma distinct_values_to_map `{Countable V} (d : Ordered.dict V) :
  Ordered.keys_unique d →
  distinct_values (Ordered.to_map d) = list_to_set d.*2.
Proof.
  intros Hd. unfold distinct_values, Ordered.to_map. apply set_eq. intros x.
  rewrite !elem_of_list_to_set.
  by rewrite (map_to_list_to_map d Hd).
Qed.

Section ordered_table_facts.
Context {V : Type}.
Implicit Types (d : Ordered.dict (Ordered.dict V)) (k : string).

Lemma to_table_nil : Ordered.to_table ([] : Ordered.dict (Ordered.dict V)) = ∅.
Proof. unfold Ordered.to_table, Ordered.to_map. cbn. apply fmap_empty. Qed.

Lemma lookup_to_table d k :
  Ordered.to_table d !! k = Ordered.to_map <$> Ordered.get d k.
Proof. unfold Ordered.to_table. by rewrite lookup_fmap, lookup_to_map. Qed.

Lemma to_table_setitem d k row :
  Ordered.to_table (Ordered.setitem d k row)
  = <[k := Ordered.to_map row]> (Ordered.to_table d).
Proof. unfold Ordered.to_table. by rewrite to_map_setitem, fmap_insert. Qed.

Lemma to_table_defaultdict_setitem d k1 k2 (v : V) :
  Ordered.to_table (Ordered.defaultdict_setitem d k1 k2 v)
  = defaultdict_setitem (Ordered.to_table d) k1 k2 v.
Proof.
  unfold Ordered.defaultdict_setitem, Ordered.defaultdict_getitem,
    defaultdict_setitem, defaultdict_getitem.
  rewrite lookup_to_table.
  destruct (Ordered.get d k1) as [row|];
    cbn [fmap option_fmap option_map]; cbv beta iota.
  - by rewrite to_table_setitem, to_map_setitem.
  - rewrite !to_table_setitem, to_map_setitem.
    rewrite !insert_insert_eq. reflexivity.
Qed.

Lemma rows_unique_setitem d k row :
  Ordered.rows_unique d → Ordered.keys_unique row →
  Ordered.rows_unique (Ordered.setitem d k row).
Proof.
  unfold Ordered.rows_unique. rewrite !Forall_forall.
  intros Hd Hrow item [Hin| ->]%elem_of_setitem; [by apply Hd|done].
Qed.

Lemma rows_unique_get d k row :
  Ordered.rows_unique d → Ordered.get d k = Some row →
  Ordered.keys_unique row.
Proof.
  unfold Ordered.rows_unique. induction d as [|[k' row'] d IH]; [done|].
  intros [Hrow Hd]%Forall_cons. cbn. case_decide; [|by apply IH].
  by intros [= <-].
Qed.

Lemma keys_unique_defaultdict_setitem d k1 k2 (v : V) :
  Ordered.keys_unique d →
  Ordered.keys_unique (Ordered.defaultdict_setitem d k1 k2 v).
Proof.
  intros Hd. unfold Ordered.defaultdict_setitem, Ordered.defaultdict_getitem.
  destruct (Ordered.get d k1); by repeat apply keys_unique_setitem.
Qed.

Lemma rows_unique_defaultdict_setitem d k1 k2 (v : V) :
  Ordered.rows_unique d →
  Ordered.rows_unique (Ordered.defaultdict_setitem d k1 k2 v).
Proof.
  intros Hd. unfold Ordered.defaultdict_setitem, Ordered.defaultdict_getitem.
  destruct (Ordered.get d k1) as [row|] eqn:Hrow.
  - apply rows_unique_setitem; [done|]. apply keys_unique_setitem.
    by eapply rows_unique_get.
  - apply rows_unique_setitem.
    + apply rows_unique_setitem; [done|]. apply NoDup_nil_2.
    + apply keys_unique_setitem, NoDup_nil_2.
Qed.

End ordered_table_facts.

(** ** The collector in insertion order *)

(** A loop on a finer state that every pass carries to the same pass on
    the coarser state. *)
Lemma for_each_forget {A S S'} (f : S' → S) (xs : list A)
    (body : A → S → io S) (body' : A → S' → io S') :
  (∀ x s' tr,
     body x (f s') tr = prod_map id (sum_map id f) (body' x s' tr)) →
  ∀ acc' tr,
    for_each xs body (f acc') tr
    = prod_map id (sum_map id f) (for_each xs body' acc' tr).
Proof.
  intros Hbody. induction xs as [|x xs IH]; intros acc' tr; [done|].
  cbn [for_each]. unfold mbind, io_bind. rewrite Hbody.
  destruct (body' x acc' tr) as [tr1 [e|s1]]; cbn; [done|]. apply IH.
Qed.

Section ordered_collector_facts.
Context `{HashObject H}.
Implicit Types (w : world).
Implicit Types (tables : Ordered.dict (Ordered.dict string)
                         * Ordered.dict (Ordered.dict Z)).

Lemma ordered_record_file w build_path build_number file_path tables tr :
  record_file w build_path build_number file_path (Ordered.to_tables tables) tr
  = prod_map id (sum_map id Ordered.to_tables)
      (Ordered.record_file w build_path build_number file_path tables tr).
Proof.
  destruct tables as [checksums file_sizes].
  unfold record_file, Ordered.record_file, Ordered.to_tables,
    calculate_file_checksum, os_getsize.
  unfold mbind, io_bind, emit, mret, io_ret, raise. cbn [fst snd].
  destruct (file_bytes w file_path) as [content|]; [|done].
  destruct (getsize w file_path) as [size|]; [|done].
  cbn [prod_map sum_map fst snd id].
  by rewrite !to_table_defaultdict_setitem.
Qed.

Lemma ordered_process_output_dir w build_path build_number name tables tr :
  process_output_dir w build_path build_number name (Ordered.to_tables tables) tr
  = prod_map id (sum_map id Ordered.to_tables)
      (Ordered.process_output_dir w build_path build_number name tables tr).
Proof.
  unfold process_output_dir, Ordered.process_output_dir.
  destruct (path_exists w _); [|done].
  apply for_each_forget. intros. apply ordered_record_file.
Qed.

Lemma ordered_process_build w build_path tables tr :
  process_build w build_path (Ordered.to_tables tables) tr
  = prod_map id (sum_map id Ordered.to_tables)
      (Ordered.process_build w build_path tables tr).
Proof.
  unfold process_build, Ordered.process_build, mbind, io_bind.
  rewrite ordered_process_output_dir.
  destruct (Ordered.process_output_dir w build_path _ "dist-firefox" tables tr)
    as [tr1 [e|t1]]; cbn; [done|].
  rewrite ordered_process_output_dir.
  destruct (Ordered.process_output_dir w build_path _ "dist-chrome" t1 tr1)
    as [tr2 [e|t2]]; cbn; [done|].
  apply ordered_process_output_dir.
Qed.

(** The collector on finite maps is the collector with the order of
    insertion forgotten: the same events, the same exception if one is
    raised, and the tables with the same entries. *)
Lemma ordered_compare_checksums w builds tr :
  compare_checksums w builds tr
  = prod_map id (sum_map id Ordered.to_tables)
      (Ordered.compare_checksums w builds tr).
Proof.
  unfold compare_checksums, Ordered.compare_checksums.
  rewrite <-(for_each_forget Ordered.to_tables builds (process_build w)).
  - unfold Ordered.to_tables. cbn [fst snd]. by rewrite !to_table_nil.
  - intros. apply ordered_process_build.
Qed.

Lemma events_ordered_compare_checksums w builds :
  events (Ordered.compare_checksums w builds)
  = events (compare_checksums w builds).
Proof.
  unfold events. rewrite ordered_compare_checksums.
  by destruct (Ordered.compare_checksums w builds []).
Qed.

Lemma outcome_ordered_compare_checksums w builds :
  outcome (compare_checksums w builds)
  = sum_map id Ordered.to_tables (outcome (Ordered.compare_checksums w builds)).
Proof.
  unfold outcome. rewrite ordered_compare_checksums.
  by destruct (Ordered.compare_checksums w builds []).
Qed.

(** Every dictionary the collector returns has every key once. *)
Lemma ordered_compare_checksums_unique w builds tr tr' checksums file_sizes :
  Ordered.compare_checksums w builds tr = (tr', inr (checksums, file_sizes)) →
  Ordered.keys_unique checksums ∧ Ordered.rows_unique checksums ∧
  Ordered.keys_unique file_sizes ∧ Ordered.rows_unique file_sizes.
Proof.
  set (I := λ tables,
    Ordered.keys_unique tables.1 ∧ Ordered.rows_unique tables.1 ∧
    Ordered.keys_unique tables.2 ∧ Ordered.rows_unique tables.2).
  assert (Hfile : ∀ build_path build_number file_path tables tr tr' tables',
    I tables →
    Ordered.record_file w build_path build_number file_path tables tr
      = (tr', inr tables') → I tables').
  { intros build_path build_number file_path [cs fs] tr0 tr1 t1
      (Hc1 & Hc2 & Hs1 & Hs2).
    unfold Ordered.record_file, calculate_file_checksum, os_getsize.
    unfold mbind, io_bind, emit, mret, io_ret, raise.
    destruct (file_bytes w file_path) as [content|]; [|done].
    destruct (getsize w file_path) as [size|]; [|done].
    intros [= _ <-]. unfold I. cbn in *.
    split; [by apply keys_unique_defaultdict_setitem|].
    split; [by apply rows_unique_defaultdict_setitem|].
    split; [by apply keys_unique_defaultdict_setitem|].
    by apply rows_unique_defaultdict_setitem. }
  assert (Hdir : ∀ build_path build_number name tables tr tr' tables',
    I tables →
    Ordered.process_output_dir w build_path build_number name tables tr
      = (tr', inr tables') → I tables').
  { intros build_path build_number name t0 tr0 tr1 t1 Ht0.
    unfold Ordered.process_output_dir. destruct (path_exists w _).
    - apply for_each_inv; [|done]. intros ??????. by apply Hfile.
    - by intros [= _ <-]. }
  intros Hrun. change (I (checksums, file_sizes)). revert Hrun.
  unfold Ordered.compare_checksums. apply for_each_inv.
  - intros build_path t0 tr0 tr1 t1 Ht0.
    unfold Ordered.process_build, mbind, io_bind.
    destruct (Ordered.process_output_dir w build_path _ "dist-firefox" t0 tr0)
      as [tr2 [e|t2]] eqn:H2; [done|].
    destruct (Ordered.process_output_dir w build_path _ "dist-chrome" t2 tr2)
      as [tr3 [e|t3]] eqn:H3; [done|].
    intros H4. eapply Hdir; [|exact H4]. eapply Hdir; [|exact H3].
    by eapply Hdir.
  - unfold I, Ordered.keys_unique, Ordered.rows_unique. cbn.
    repeat split; constructor.
Qed.

End ordered_collector_facts.

(** ** The detector in insertion order *)

Section ordered_detector_facts.
Implicit Types (checksums : Ordered.dict (Ordered.dict string)).
Implicit Types (file_sizes : Ordered.dict (Ordered.dict Z)).
Implicit Types (st : Ordered.findings) (row : Ordered.dict string).

Lemma ordered_all_build_numbers checksums :
  Ordered.keys_unique checksums →
  Ordered.all_build_numbers checksums
  = all_build_numbers (Ordered.to_table checksums).
Proof.
  intros Hc. apply set_eq. intros b.
  rewrite elem_of_all_build_numbers. unfold Ordered.all_build_numbers.
  rewrite elem_of_union_list. split.
  - intros (X & HX & Hb). apply list_elem_of_fmap in HX as (row & -> & Hrow).
    apply list_elem_of_fmap in Hrow as ([p row'] & -> & Hin). cbn in *.
    exists p, (Ordered.to_map row'). split.
    + apply (elem_of_keys_unique _ _ _ Hc) in Hin.
      by rewrite lookup_to_table, <-lookup_to_map, Hin.
    + apply elem_of_dom. by rewrite dom_to_map.
  - intros (p & bc & Hp & Hb). rewrite lookup_to_table in Hp.
    destruct (Ordered.get checksums p) as [row|] eqn:Hrow; [|done].
    injection Hp as <-. exists (list_to_set row.*1). split.
    + apply list_elem_of_fmap. exists row. split; [done|].
      apply list_elem_of_fmap. exists (p, row). split; [done|].
      apply elem_of_keys_unique; [done|]. by rewrite lookup_to_map.
    + rewrite <-dom_to_map. by apply elem_of_dom.
Qed.

Lemma ordered_record_missing all p row missing :
  Ordered.keys_unique row →
  Ordered.to_map (Ordered.record_missing all p row missing)
  = record_missing all p (Ordered.to_map row) (Ordered.to_map missing).
Proof.
  intros Hrow. unfold Ordered.record_missing, record_missing.
  rewrite keys_length, keys_to_set, length_fmap.
  rewrite (length_keys_unique row Hrow), <-size_dom, <-dom_to_map.
  case_decide; [|done]. by rewrite to_map_setitem.
Qed.

Local Ltac fields :=
  cbn [fst snd inconsistent_files missing_files size_differences
         file_sizes_after Ordered.inconsistent_files Ordered.missing_files
         Ordered.size_differences Ordered.file_sizes_after].

Lemma ordered_detect_step all st p row :
  Ordered.keys_unique row →
  Ordered.rows_unique (Ordered.file_sizes_after st) →
  Ordered.to_detector_state (Ordered.detect_step all st (p, row))
  = detect_step all p (Ordered.to_map row) (Ordered.to_detector_state st).
Proof.
  intros Hrow Hsizes.
  unfold Ordered.detect_step, detect_step, Ordered.to_detector_state.
  fields. rewrite (distinct_values_to_map row Hrow).
  destruct (decide (1 < size (list_to_set row.*2 : gset string))).
  2:{ fields. by rewrite ordered_record_missing. }
  unfold Ordered.defaultdict_getitem, defaultdict_getitem.
  rewrite lookup_to_table.
  destruct (Ordered.get (Ordered.file_sizes_after st) p) as [srow|] eqn:Hs;
    cbn [fmap option_fmap option_map]; cbv beta iota.
  - rewrite (distinct_values_to_map srow)
      by (by eapply rows_unique_get).
    case_decide; fields;
      by rewrite ?to_table_setitem, ordered_record_missing.
  - rewrite <-(distinct_values_to_map ([] : Ordered.dict Z))
      by apply NoDup_nil_2.
    change (Ordered.to_map ([] : Ordered.dict Z)) with (∅ : gmap string Z).
    case_decide; fields;
      by rewrite ?to_table_setitem, ordered_record_missing.
Qed.

(** What the loop keeps about its dictionaries: every key once. *)
Definition findings_unique (st : Ordered.findings) : Prop :=
  Ordered.keys_unique (Ordered.inconsistent_files st) ∧
  Ordered.rows_unique (Ordered.inconsistent_files st) ∧
  Ordered.keys_unique (Ordered.missing_files st) ∧
  Ordered.keys_unique (Ordered.size_differences st) ∧
  Ordered.rows_unique (Ordered.file_sizes_after st).

Lemma findings_unique_step all st p row :
  Ordered.keys_unique row → findings_unique st →
  findings_unique (Ordered.detect_step all st (p, row)).
Proof.
  intros Hrow (H1 & H2 & H3 & H4 & H5).
  assert (Hmissing : Ordered.keys_unique
            (Ordered.record_missing all p row (Ordered.missing_files st))).
  { unfold Ordered.record_missing. case_decide; [|done].
    by apply keys_unique_setitem. }
  unfold Ordered.detect_step, Ordered.defaultdict_getitem. cbn [fst snd].
  case_decide; [|done].
  destruct (Ordered.get (Ordered.file_sizes_after st) p) as [srow|] eqn:Hs;
    case_decide; unfold findings_unique; cbn;
    repeat split;
    try done;
    try (by apply keys_unique_setitem);
    try (by apply rows_unique_setitem);
    try (apply rows_unique_setitem; [done|apply NoDup_nil_2]).
Qed.

Lemma findings_unique_fold all rest :
  ∀ st, Ordered.rows_unique rest → findings_unique st →
  findings_unique (foldl (Ordered.detect_step all) st rest).
Proof.
  induction rest as [|[p row] rest IH]; intros st Hrows Hst; [done|].
  apply Forall_cons in Hrows as [Hrow Hrows]. cbn [foldl].
  apply IH; [done|]. by apply findings_unique_step.
Qed.

Lemma ordered_fold_inv all fs rest :
  ∀ st m,
    Ordered.keys_unique rest → Ordered.rows_unique rest →
    findings_unique st →
    (∀ p, p ∈ rest.*1 → m !! p = None) →
    detector_inv all fs (Ordered.to_detector_state st) m →
    detector_inv all fs
      (Ordered.to_detector_state (foldl (Ordered.detect_step all) st rest))
      (Ordered.to_table rest ∪ m).
Proof.
  induction rest as [|[p row] rest IH]; intros st m Hkeys Hrows Hst Hm Hinv.
  - rewrite to_table_nil. by rewrite (left_id_L ∅ (∪)).
  - unfold Ordered.keys_unique in Hkeys. rewrite fmap_cons in Hkeys.
    apply NoDup_cons in Hkeys as [Hp Hkeys].
    apply Forall_cons in Hrows as [Hrow Hrows]. cbn [fst snd] in Hrow, Hp.
    cbn [foldl].
    assert (Ordered.to_table ((p, row) :: rest) ∪ m
            = Ordered.to_table rest ∪ <[p := Ordered.to_map row]> m) as ->.
    { change (Ordered.to_table ((p, row) :: rest))
        with (Ordered.to_map <$> <[p := row]> (Ordered.to_map rest)).
      rewrite fmap_insert. fold (Ordered.to_table rest).
      rewrite <-insert_union_l. apply insert_union_r.
      rewrite lookup_to_table, <-lookup_to_map.
      unfold Ordered.to_map.
      by rewrite (not_elem_of_list_to_map_1 rest p Hp). }
    apply IH; [done|done| | |].
    + by apply findings_unique_step.
    + intros q Hq. rewrite lookup_insert_ne by (intros ->; done).
      apply Hm. by right.
    + rewrite ordered_detect_step; [|done|apply Hst].
      apply detector_inv_step; [|done]. apply Hm. by left.
Qed.

Lemma detector_inv_unique all fs (st1 st2 : detector_state) m :
  detector_inv all fs st1 m → detector_inv all fs st2 m → st1 = st2.
Proof.
  intros H1 H2. destruct st1 as [a1 b1 c1 d1], st2 as [a2 b2 c2 d2].
  f_equal; apply map_eq; intros p;
    destruct (H1 p) as (Ha & Hb & Hc & Hd);
    destruct (H2 p) as (Ha' & Hb' & Hc' & Hd'); cbn in *; congruence.
Qed.

(** The detector on finite maps is the detector with the order of
    insertion forgotten. *)
Lemma ordered_find_inconsistencies checksums file_sizes :
  Ordered.keys_unique checksums → Ordered.rows_unique checksums →
  Ordered.rows_unique file_sizes →
  Ordered.to_detector_state (Ordered.find_inconsistencies checksums file_sizes)
  = find_inconsistencies (Ordered.to_table checksums)
      (Ordered.to_table file_sizes).
Proof.
  intros Hkeys Hrows Hsizes.
  apply (detector_inv_unique
           (all_build_numbers (Ordered.to_table checksums))
           (Ordered.to_table file_sizes) _ _ (Ordered.to_table checksums));
    [|apply find_inconsistencies_inv].
  unfold Ordered.find_inconsistencies.
  rewrite ordered_all_build_numbers by done.
  rewrite <-(right_id_L ∅ (∪) (Ordered.to_table checksums)) at 3.
  apply ordered_fold_inv; [done|done| |done|].
  - unfold findings_unique, Ordered.keys_unique, Ordered.rows_unique. cbn.
    repeat split; try constructor. done.
  - unfold Ordered.to_detector_state.
    cbn [Ordered.inconsistent_files Ordered.missing_files
           Ordered.size_differences Ordered.file_sizes_after].
    rewrite !to_table_nil. apply detector_inv_init.
Qed.

Lemma ordered_find_inconsistencies_unique checksums file_sizes :
  Ordered.rows_unique checksums → Ordered.rows_unique file_sizes →
  findings_unique (Ordered.find_inconsistencies checksums file_sizes).
Proof.
  intros Hrows Hsizes. unfold Ordered.find_inconsistencies.
  apply findings_unique_fold; [done|].
  unfold findings_unique, Ordered.keys_unique, Ordered.rows_unique. cbn.
  repeat split; try constructor. done.
Qed.

End ordered_detector_facts.
(** ** The program *)

Lemma find_builds_events w dist_record_dir version tr0 r :
  find_builds w dist_record_dir version [] = (tr0, r) →
  tr0 = [] ∨ tr0 = [EvPrint ("No builds found for version " +:+ version)].
Proof.
  unfold find_builds, os_listdir.
  destruct (path_exists w _); cbn.
  - unfold mbind, io_bind. destruct (listdir w _); cbn; intros [= <- _]; by left.
  - intros [= <- _]. by right.
Qed.

(** A loop of passes that only print returns, and has printed what the
    passes print, in order. *)
Lemma for_each_prints {A} (xs : list A) (body : A → unit → io unit)
    (lines : A → list event) :
  (∀ x s, appends (body x s)) →
  (∀ x, outcome (body x tt) = inr tt ∧ events (body x tt) = lines x) →
  outcome (for_each xs body tt) = inr tt ∧
  events (for_each xs body tt) = xs ≫= lines.
Proof.
  intros Happ Hbody. induction xs as [|x xs [IHo IHe]]; [done|].
  cbn [for_each].
  assert (Hloop : ∀ a, appends (for_each xs body a))
    by (intros a; by apply appends_for_each).
  rewrite outcome_bind, events_bind by done.
  destruct (Hbody x) as [-> ->]. by rewrite IHo, IHe.
Qed.

(** What the two printing parts of [generate_report] print. *)
Lemma print_summary_run build_numbers found :
  outcome (print_summary build_numbers found) = inr tt ∧
  events (print_summary build_numbers found)
  = summary_lines build_numbers
      (length (Ordered.inconsistent_files found))
      (length (Ordered.missing_files found))
      (length (Ordered.size_differences found)).
Proof. done. Qed.

Lemma print_file_run (item : string * Ordered.dict string) :
  outcome (print (newline +:+ "  " +:+ item.1 +:+ ":");;
           for_each item.2
             (λ entry _,
                print ("    Build " +:+ entry.1 +:+ ": " +:+ entry.2)) tt)
  = inr tt ∧
  events (print (newline +:+ "  " +:+ item.1 +:+ ":");;
          for_each item.2
            (λ entry _,
               print ("    Build " +:+ entry.1 +:+ ": " +:+ entry.2)) tt)
  = EvPrint (newline +:+ "  " +:+ item.1 +:+ ":")
    :: ((λ entry, EvPrint ("    Build " +:+ entry.1 +:+ ": " +:+ entry.2))
          <$> item.2).
Proof.
  assert (Hrow :
    outcome (for_each item.2
               (λ entry _,
                  print ("    Build " +:+ entry.1 +:+ ": " +:+ entry.2)) tt)
    = inr tt ∧
    events (for_each item.2
              (λ entry _,
                 print ("    Build " +:+ entry.1 +:+ ": " +:+ entry.2)) tt)
    = item.2 ≫= λ entry,
        [EvPrint ("    Build " +:+ entry.1 +:+ ": " +:+ entry.2)]).
  { apply for_each_prints; [solve_appends|done]. }
  destruct Hrow as [Hout Hev].
  rewrite outcome_bind, events_bind by solve_appends.
  change (outcome (print (newline +:+ "  " +:+ item.1 +:+ ":")))
    with (inr tt : exn + unit).
  change (events (print (newline +:+ "  " +:+ item.1 +:+ ":")))
    with [EvPrint (newline +:+ "  " +:+ item.1 +:+ ":")].
  rewrite Hout, Hev. split; [done|]. cbn [app]. f_equal.
Qed.

Lemma print_inconsistent_run inconsistent :
  outcome (print_inconsistent inconsistent) = inr tt ∧
  events (print_inconsistent inconsistent) = listing_lines inconsistent.
Proof.
  unfold print_inconsistent, listing_lines.
  destruct inconsistent as [|item items]; [done|].
  set (all := item :: items).
  assert (Hfiles :
    outcome (for_each all
      (λ item _,
         print (newline +:+ "  " +:+ item.1 +:+ ":");;
         for_each item.2
           (λ entry _,
              print ("    Build " +:+ entry.1 +:+ ": " +:+ entry.2)) tt) tt)
    = inr tt ∧
    events (for_each all
      (λ item _,
         print (newline +:+ "  " +:+ item.1 +:+ ":");;
         for_each item.2
           (λ entry _,
              print ("    Build " +:+ entry.1 +:+ ": " +:+ entry.2)) tt) tt)
    = all ≫= λ item,
        EvPrint (newline +:+ "  " +:+ item.1 +:+ ":")
        :: ((λ entry, EvPrint ("    Build " +:+ entry.1 +:+ ": " +:+ entry.2))
              <$> item.2)).
  { apply for_each_prints; [solve_appends|]. intros x. apply print_file_run. }
  destruct Hfiles as [Hout Hev].
  rewrite outcome_bind, events_bind by solve_appends.
  change (outcome (print (newline +:+ "Inconsistent Files:")))
    with (inr tt : exn + unit).
  change (events (print (newline +:+ "Inconsistent Files:")))
    with [EvPrint (newline +:+ "Inconsistent Files:")].
  by rewrite Hout, Hev.
Qed.

(** How [generate_report] ends.  It prints the seven lines of the summary
    and the listing of the inconsistent files; then, when a file name was
    given, either it dumps the report and prints one more line, or the file
    cannot be opened and [OSError] ends the run there. *)
Lemma generate_report_cases w found builds output_file :
  (outcome (generate_report w found builds output_file) = inr tt ∧
   events (generate_report w found builds output_file)
   = summary_lines (build_number_of <$> builds)
       (length (Ordered.inconsistent_files found))
       (length (Ordered.missing_files found))
       (length (Ordered.size_differences found))
     ++ listing_lines (Ordered.inconsistent_files found)
     ++ report_file_events output_file
          (report_of (build_number_of <$> builds) found))
  ∨
  (∃ path, output_file = Some path ∧ truthy output_file = true ∧
     can_write w path = false ∧
     outcome (generate_report w found builds output_file)
       = inl (OSError path) ∧
     events (generate_report w found builds output_file)
     = summary_lines (build_number_of <$> builds)
         (length (Ordered.inconsistent_files found))
         (length (Ordered.missing_files found))
         (length (Ordered.size_differences found))
       ++ listing_lines (Ordered.inconsistent_files found)).
Proof.
  unfold generate_report.
  rewrite !outcome_bind, !events_bind by solve_appends.
  destruct (print_summary_run (build_number_of <$> builds) found)
    as [-> ->].
  destruct (print_inconsistent_run (Ordered.inconsistent_files found))
    as [-> ->].
  unfold report_file_events. destruct output_file as [path|]; [|by left].
  destruct (truthy (Some path)) eqn:Htruthy; [|by left].
  unfold write_report. destruct (can_write w path) eqn:Hwrite.
  - left. rewrite outcome_bind, events_bind by solve_appends. done.
  - right. exists path. rewrite outcome_bind, events_bind by solve_appends.
    cbn. by rewrite !app_nil_r.
Qed.

Lemma summary_lines_prints build_numbers inconsistent missing sizes :
  Forall is_print (summary_lines build_numbers inconsistent missing sizes).
Proof. unfold summary_lines. repeat constructor; by eexists. Qed.

Lemma listing_lines_prints items : Forall is_print (listing_lines items).
Proof.
  destruct (print_inconsistent_run items) as [_ <-].
  apply prints_only_print_inconsistent.
Qed.

Section main_facts.
Context `{HashObject H}.
Implicit Types (w : world) (args : arguments).

Local Hint Resolve appends_compare_checksums
  appends_ordered_compare_checksums appends_parse_args appends_main : io.

Lemma prints_only_found_builds_lines version builds :
  prints_only (found_builds_lines version builds).
Proof. unfold found_builds_lines. solve_appends. Qed.

(** When [parse_args] does not return, nothing else happens. *)
Lemma main_parser_exit w argv :
  match argv with
  | Parsed args => True
  | HelpExit text => main w argv [] = ([EvHelp text], inl (SystemExit 0))
  | UsageExit text => main w argv [] = ([EvUsage text], inl (SystemExit 2))
  end.
Proof. by destruct argv. Qed.

Lemma main_no_builds w args tr0 :
  find_builds w (resolve_dist_record w args) (arg_version args) []
    = (tr0, inr []) →
  main w (Parsed args) [] = (tr0, inl (SystemExit 1)).
Proof.
  intros Hfind. unfold main, mbind, io_bind. cbn [parse_args].
  unfold mret at 1, io_ret at 1. by rewrite Hfind.
Qed.

(** The run of [main] once the locator has found builds: it ends as the
    collector or the report ends. *)
Lemma main_with_builds w args tr0 build builds :
  find_builds w (resolve_dist_record w args) (arg_version args) []
    = (tr0, inr (build :: builds)) →
  outcome (main w (Parsed args))
  = match outcome (Ordered.compare_checksums w (build :: builds)) with
    | inl e => inl e
    | inr (checksums, file_sizes) =>
        outcome (generate_report w
                   (Ordered.find_inconsistencies checksums file_sizes)
                   (build :: builds) (resolve_output w args))
    end ∧
  events (main w (Parsed args))
  = tr0 ++ events (found_builds_lines (arg_version args) (build :: builds))
    ++ events (compare_checksums w (build :: builds))
    ++ match outcome (Ordered.compare_checksums w (build :: builds)) with
       | inl e => []
       | inr (checksums, file_sizes) =>
           EvPrint "Finding inconsistencies..."
           :: events (generate_report w
                        (Ordered.find_inconsistencies checksums file_sizes)
                        (build :: builds) (resolve_output w args))
       end.
Proof.
  intros Hfind.
  assert (Hev : events (find_builds w (resolve_dist_record w args)
                          (arg_version args)) = tr0)
    by (unfold events; by rewrite Hfind).
  assert (Hout : outcome (find_builds w (resolve_dist_record w args)
                            (arg_version args)) = inr (build :: builds))
    by (unfold outcome; by rewrite Hfind).
  rewrite <-events_ordered_compare_checksums.
  unfold main.
  rewrite (outcome_bind (parse_args (Parsed args))),
    (events_bind (parse_args (Parsed args))) by solve_appends.
  change (outcome (parse_args (Parsed args))) with (inr args : exn + arguments).
  change (events (parse_args (Parsed args))) with ([] : list event).
  cbv beta iota. cbn [app].
  rewrite outcome_bind, events_bind, Hev, Hout by solve_appends.
  set (all := build :: builds).
  set (rest := Ordered.compare_checksums w all ≫= _).
  assert (Hrest : appends rest) by (unfold rest; solve_appends).
  destruct (bind_after_prints
              (print ("Found " +:+ pretty (length all)
                      +:+ " builds for version " +:+ arg_version args))
              (λ _, for_each all
                      (λ build0 _, print ("  - " +:+ basename build0)) tt
                    ≫= λ _, print (newline +:+ "Calculating checksums...")
                    ≫= λ _, rest)) as [-> ->]; [solve_appends..|].
  destruct (bind_after_prints
              (for_each all
                 (λ build0 _, print ("  - " +:+ basename build0)) tt)
              (λ _, print (newline +:+ "Calculating checksums...")
                    ≫= λ _, rest)) as [-> ->]; [solve_appends..|].
  destruct (bind_after_prints
              (print (newline +:+ "Calculating checksums..."))
              (λ _, rest)) as [-> ->]; [solve_appends..|].
  unfold found_builds_lines. fold all.
  destruct (bind_after_prints
              (print ("Found " +:+ pretty (length all)
                      +:+ " builds for version " +:+ arg_version args))
              (λ _, for_each all
                      (λ build0 _, print ("  - " +:+ basename build0)) tt
                    ≫= λ _, print (newline +:+ "Calculating checksums...")))
    as [_ ->]; [solve_appends..|].
  destruct (bind_after_prints
              (for_each all
                 (λ build0 _, print ("  - " +:+ basename build0)) tt)
              (λ _, print (newline +:+ "Calculating checksums...")))
    as [_ ->]; [solve_appends..|].
  unfold rest. rewrite outcome_bind, events_bind by solve_appends.
  destruct (outcome (Ordered.compare_checksums w all))
    as [e|[checksums file_sizes]].
  - split; [done|]. by rewrite !app_nil_r, <-!app_assoc.
  - destruct (bind_after_prints (print "Finding inconsistencies...")
                (λ _, generate_report w
                        (Ordered.find_inconsistencies checksums file_sizes) all
                        (resolve_output w args))) as [-> ->];
      [solve_appends..|].
    split; [done|]. by rewrite <-!app_assoc.
Qed.

(** The findings [main] reports, with the order forgotten, are those of
    the detector on the collector's tables; a count is the size of a
    finding. *)
Lemma main_findings w builds checksums file_sizes :
  outcome (Ordered.compare_checksums w builds) = inr (checksums, file_sizes) →
  outcome (compare_checksums w builds)
  = inr (Ordered.to_table checksums, Ordered.to_table file_sizes) ∧
  findings_unique (Ordered.find_inconsistencies checksums file_sizes) ∧
  Ordered.to_detector_state (Ordered.find_inconsistencies checksums file_sizes)
  = find_inconsistencies (Ordered.to_table checksums)
      (Ordered.to_table file_sizes).
Proof.
  intros Hrun. split; [by rewrite outcome_ordered_compare_checksums, Hrun|].
  unfold outcome in Hrun.
  destruct (Ordered.compare_checksums w builds []) as [tr' r] eqn:Hc.
  cbn in Hrun. subst r.
  apply ordered_compare_checksums_unique in Hc as (Hc1 & Hc2 & Hs1 & Hs2).
  split; [by apply ordered_find_inconsistencies_unique|].
  by apply ordered_find_inconsistencies.
Qed.

Lemma size_to_table {V} (d : Ordered.dict (Ordered.dict V)) :
  Ordered.keys_unique d → length d = size (Ordered.to_table d).
Proof.
  intros Hd. unfold Ordered.to_table.
  by rewrite map_size_fmap, <-length_keys_unique.
Qed.

Lemma report_of_document build_numbers (found : Ordered.findings) :
  findings_unique found →
  summary_lines build_numbers
    (length (Ordered.inconsistent_files found))
    (length (Ordered.missing_files found))
    (length (Ordered.size_differences found))
  = summary_lines build_numbers
      (size (inconsistent_files (Ordered.to_detector_state found)))
      (size (missing_files (Ordered.to_detector_state found)))
      (size (size_differences (Ordered.to_detector_state found))) ∧
  report_of build_numbers found
  = report_document build_numbers (Ordered.to_detector_state found).
Proof.
  intros (H1 & _ & H3 & H4 & _).
  unfold report_of, report_document, Ordered.to_detector_state.
  cbn [inconsistent_files missing_files size_differences].
  by rewrite <-!size_to_table, <-length_keys_unique.
Qed.

(** C7. When the locator finds no build, [main] ends by [sys.exit(1)]:
    the exit status is 1 and nothing has happened but, at most, the line
    that says no builds were found: no file was opened and no report was
    printed or written.  When it finds builds and no [OSError] is raised,
    [main] returns, the exit status is 0, and the run has ended with the
    seven lines of the summary (the build numbers, their number, and the
    sizes of the three findings of the collected tables), then the listing
    of the files of the inconsistent-checksum finding, each once with the
    checksum of each of its builds, and then, when a report file was asked
    for, the dump of the report and the line that names the file. *)
Theorem main_exit_status w args tr0 builds :
  find_builds w (resolve_dist_record w args) (arg_version args) []
    = (tr0, inr builds) →
  match builds with
  | [] =>
      main w (Parsed args) [] = (tr0, inl (SystemExit 1)) ∧
      exit_status (outcome (main w (Parsed args))) = 1%Z ∧
      (tr0 = [] ∨
       tr0 = [EvPrint ("No builds found for version " +:+ arg_version args)])
  | _ :: _ =>
      (∀ path, outcome (main w (Parsed args)) ≠ inl (OSError path)) →
      ∃ before checksums file_sizes listed,
        outcome (compare_checksums w builds) = inr (checksums, file_sizes) ∧
        outcome (main w (Parsed args)) = inr tt ∧
        exit_status (outcome (main w (Parsed args))) = 0%Z ∧
        Ordered.keys_unique listed ∧
        Ordered.rows_unique listed ∧
        Ordered.to_table listed
        = inconsistent_files (find_inconsistencies checksums file_sizes) ∧
        events (main w (Parsed args))
        = before
          ++ summary_lines (build_number_of <$> builds)
               (size (inconsistent_files
                        (find_inconsistencies checksums file_sizes)))
               (size (missing_files
                        (find_inconsistencies checksums file_sizes)))
               (size (size_differences
                        (find_inconsistencies checksums file_sizes)))
          ++ listing_lines listed
          ++ report_file_events (resolve_output w args)
               (report_document (build_number_of <$> builds)
                  (find_inconsistencies checksums file_sizes))
  end.
Proof.
  intros Hfind. destruct builds as [|build builds].
  - pose proof (main_no_builds w args tr0 Hfind) as Hmain.
    split; [done|]. split.
    + unfold outcome. by rewrite Hmain.
    + by eapply find_builds_events.
  - intros Hok.
    destruct (main_with_builds w args tr0 build builds Hfind) as [Hout Hev].
    destruct (outcome (Ordered.compare_checksums w (build :: builds)))
      as [e|[checksums file_sizes]] eqn:Hcollect.
    { assert (outcome (compare_checksums w (build :: builds)) = inl e) as He
        by (by rewrite outcome_ordered_compare_checksums, Hcollect).
      destruct (oserror_compare_checksums w (build :: builds) e He)
        as [path ->]. by destruct (Hok path). }
    destruct (main_findings w _ _ _ Hcollect) as (Htables & Hunique & Hfound).
    destruct (report_of_document (build_number_of <$> build :: builds)
                _ Hunique) as [Hsummary Hdoc].
    rewrite Hfound in Hsummary, Hdoc.
    destruct (generate_report_cases w
                (Ordered.find_inconsistencies checksums file_sizes)
                (build :: builds) (resolve_output w args))
      as [[Hreport Hevents]|(path & _ & _ & _ & Hreport & _)].
    + exists (tr0
              ++ events (found_builds_lines (arg_version args)
                           (build :: builds))
              ++ events (compare_checksums w (build :: builds))
              ++ [EvPrint "Finding inconsistencies..."]),
        (Ordered.to_table checksums), (Ordered.to_table file_sizes),
        (Ordered.inconsistent_files
           (Ordered.find_inconsistencies checksums file_sizes)).
      split; [exact Htables|]. rewrite Hout, Hreport.
      split; [reflexivity|]. split; [reflexivity|].
      split; [apply Hunique|]. split; [apply Hunique|].
      split; [by rewrite <-Hfound|].
      rewrite Hev, Hevents, Hsummary, Hdoc, (cons_middle (EvPrint _)).
      rewrite !app_assoc. reflexivity.
    + rewrite Hreport in Hout. by destruct (Hok path).
Qed.

End main_facts.
(** ** More about the detector *)

Section detector_more.
Implicit Types (checksums : checksum_table) (file_sizes : size_table).
Implicit Types (p b : string) (row : gmap string string).

Lemma distinct_values_size_gt_1 `{Countable V} (d : gmap string V) :
  1 < size (distinct_values d) ↔
  ∃ k1 k2 v1 v2, d !! k1 = Some v1 ∧ d !! k2 = Some v2 ∧ v1 ≠ v2.
Proof.
  split.
  - intros Hsz.
    destruct (size_pos_elem_of (distinct_values d)) as [v1 Hv1]; [lia|].
    destruct (size_pos_elem_of (distinct_values d ∖ {[v1]})) as [v2 Hv2].
    { rewrite size_difference by by apply singleton_subseteq_l.
      rewrite size_singleton. lia. }
    apply elem_of_difference in Hv2 as [Hv2 Hne].
    apply elem_of_distinct_values in Hv1 as [k1 H1].
    apply elem_of_distinct_values in Hv2 as [k2 H2].
    exists k1, k2, v1, v2. split; [done|]. split; [done|].
    intros ->. apply Hne. by apply elem_of_singleton.
  - intros (k1 & k2 & v1 & v2 & H1 & H2 & Hne).
    assert ({[v1; v2]} ⊆ distinct_values d) as Hsub%subseteq_size.
    { intros v [Hv|Hv]%elem_of_union; apply elem_of_singleton in Hv as ->;
        apply elem_of_distinct_values; eauto. }
    rewrite size_union in Hsub.
    + rewrite !size_singleton in Hsub. lia.
    + intros v Hv1 Hv2. apply elem_of_singleton in Hv1, Hv2. congruence.
Qed.

(** No file is reported inconsistent exactly when, in every row of the
    checksum table, all the builds have the same checksum; and then no
    file is reported as a size difference either. *)
Theorem inconsistent_files_empty_iff checksums file_sizes :
  (inconsistent_files (find_inconsistencies checksums file_sizes) = ∅ ↔
   ∀ p row b1 b2 c1 c2,
     checksums !! p = Some row →
     row !! b1 = Some c1 → row !! b2 = Some c2 → c1 = c2) ∧
  (inconsistent_files (find_inconsistencies checksums file_sizes) = ∅ →
   size_differences (find_inconsistencies checksums file_sizes) = ∅).
Proof.
  split; [split|].
  - intros Hempty p row b1 b2 c1 c2 Hp H1 H2.
    destruct (decide (c1 = c2)) as [|Hne]; [done|].
    assert (inconsistent_files (find_inconsistencies checksums file_sizes)
              !! p = Some row) as Hrec.
    { rewrite lookup_inconsistent_files, Hp. apply inconsistent_entry_Some.
      split; [done|]. apply distinct_values_size_gt_1. by exists b1, b2, c1, c2. }
    by rewrite Hempty, lookup_empty in Hrec.
  - intros Hsame. apply map_eq. intros p.
    rewrite lookup_inconsistent_files, lookup_empty.
    destruct (inconsistent_entry (checksums !! p)) as [row|] eqn:Hrow; [|done].
    apply inconsistent_entry_Some in Hrow as [Hp Hsz].
    apply distinct_values_size_gt_1 in Hsz
      as (k1 & k2 & v1 & v2 & H1 & H2 & Hne).
    destruct Hne. by eapply Hsame.
  - intros Hempty. apply map_eq. intros p.
    rewrite lookup_size_differences, lookup_empty. unfold size_entry.
    rewrite <-lookup_inconsistent_files with (file_sizes := file_sizes).
    by rewrite Hempty, lookup_empty.
Qed.

(** No file is reported missing exactly when every row of the checksum
    table has all the builds that occur anywhere in the table. *)
Theorem missing_files_empty_iff checksums file_sizes :
  missing_files (find_inconsistencies checksums file_sizes) = ∅ ↔
  ∀ p row, checksums !! p = Some row → dom row = all_build_numbers checksums.
Proof.
  split.
  - intros Hempty p row Hp.
    pose proof (dom_subseteq_all_build_numbers _ _ _ Hp) as Hsub.
    apply set_subseteq_size_eq; [done|].
    destruct (decide (size (dom row) < size (all_build_numbers checksums)))
      as [Hlt|]; [|lia].
    assert (is_Some (missing_files (find_inconsistencies checksums file_sizes)
                       !! p)) as [l Hl].
    { rewrite lookup_missing_files, Hp. cbn. rewrite decide_True by done.
      by eexists. }
    by rewrite Hempty, lookup_empty in Hl.
  - intros Hall. apply map_eq. intros p.
    rewrite lookup_missing_files, lookup_empty. unfold missing_entry.
    destruct (checksums !! p) as [row|] eqn:Hp; [|done]. cbn.
    rewrite (Hall p row Hp). rewrite decide_False by lia. done.
Qed.

(** What the size-differences finding holds for a path is the path's whole
    row of the size table, and it holds it exactly for the inconsistent
    paths whose row has more than one distinct size. *)
Theorem size_differences_row checksums file_sizes p sizes :
  size_differences (find_inconsistencies checksums file_sizes) !! p
    = Some sizes ↔
  p ∈ dom (inconsistent_files (find_inconsistencies checksums file_sizes)) ∧
  file_sizes !! p = Some sizes ∧
  1 < size (distinct_values sizes).
Proof.
  rewrite lookup_size_differences, elem_of_dom, lookup_inconsistent_files.
  unfold size_entry.
  destruct (inconsistent_entry (checksums !! p)) as [row|]; cbn.
  - destruct (file_sizes !! p) as [s|] eqn:Hs; cbn.
    + case_decide; split.
      * intros [= <-]. eauto.
      * by intros (_ & [= <-] & _).
      * done.
      * intros (_ & [= <-] & ?). done.
    + rewrite decide_False
        by (unfold distinct_values; rewrite map_to_list_empty; cbn;
            rewrite size_empty; lia).
      split; [done|]. by intros (_ & ? & _).
  - split; [done|]. by intros ([? ?] & _).
Qed.

(** A list of missing builds is never empty and does not repeat a build;
    the findings mention only paths of the checksum table. *)
Theorem findings_well_formed checksums file_sizes :
  (∀ p absent,
     missing_files (find_inconsistencies checksums file_sizes) !! p
       = Some absent →
     absent ≠ [] ∧ NoDup absent) ∧
  dom (inconsistent_files (find_inconsistencies checksums file_sizes))
    ⊆ dom checksums ∧
  dom (missing_files (find_inconsistencies checksums file_sizes))
    ⊆ dom checksums ∧
  dom (size_differences (find_inconsistencies checksums file_sizes))
    ⊆ dom checksums.
Proof.
  assert (Hinc :
    dom (inconsistent_files (find_inconsistencies checksums file_sizes))
      ⊆ dom checksums).
  { intros p. rewrite !elem_of_dom, lookup_inconsistent_files.
    intros (row & Hp & _)%inconsistent_entry_is_Some. by eexists. }
  split; [|split; [done|split]].
  - intros p absent. rewrite lookup_missing_files.
    intros (row & Hp & Hlt & ->)%missing_entry_Some. split.
    + intros Hnil.
      assert (length (sorted (elements (all_build_numbers checksums ∖ dom row)))
              = 0) as Hlen by by rewrite Hnil.
      rewrite sorted_Permutation in Hlen.
      change (size (all_build_numbers checksums ∖ dom row) = 0) in Hlen.
      rewrite size_difference in Hlen
        by by eapply dom_subseteq_all_build_numbers.
      lia.
    + rewrite sorted_Permutation. apply NoDup_elements.
  - intros p. rewrite !elem_of_dom, lookup_missing_files.
    intros [absent (row & Hp & _)%missing_entry_Some]. by eexists.
  - intros p Hp. apply Hinc. by apply size_differences_dom_iff in Hp as [? _].
Qed.

End detector_more.

(** ** More about the locator, the report and the program *)

(** Events of a kind. *)
Lemma emits_ret {A} Q (a : A) : emits_only Q (mret a : io A).
Proof. constructor. Qed.

Lemma emits_raise {A} Q (e : exn) : emits_only Q (raise e : io A).
Proof. constructor. Qed.

Lemma emits_emit (Q : event → Prop) e : Q e → emits_only Q (emit e).
Proof. intros He. by repeat constructor. Qed.

Lemma emits_bind {A B} Q (m : io A) (k : A → io B) :
  appends m → (∀ a, appends (k a)) →
  emits_only Q m → (∀ a, emits_only Q (k a)) → emits_only Q (m ≫= k).
Proof.
  intros Hm Hk Hem Hek. unfold emits_only. rewrite events_bind by done.
  apply Forall_app. split; [done|].
  destruct (outcome m); [constructor|apply Hek].
Qed.

Lemma emits_for_each {A B} Q (xs : list B) (body : B → A → io A) (acc : A) :
  (∀ x s, appends (body x s)) →
  (∀ x s, emits_only Q (body x s)) →
  emits_only Q (for_each xs body acc).
Proof.
  intros Happ Hbody. revert acc.
  induction xs as [|x xs IH]; intros acc; cbn [for_each].
  - apply emits_ret.
  - apply emits_bind; [done| |done|done].
    intros a. by apply appends_for_each.
Qed.

Lemma emits_prints_only Q (m : io unit) :
  (∀ line, Q (EvPrint line)) → prints_only m → emits_only Q m.
Proof.
  intros HQ [_ Hev]. unfold emits_only.
  eapply Forall_impl; [exact Hev|]. by intros e [line ->].
Qed.

Section program_more.
Context `{HashObject H}.
Implicit Types (w : world) (args : arguments).

Local Hint Resolve appends_compare_checksums appends_main
  appends_record_file appends_process_output_dir appends_process_build
  appends_calculate_file_checksum appends_ordered_compare_checksums : io.

(** The collector only opens files and reads their sizes. *)
Lemma compare_checksums_file_events w builds :
  emits_only is_file_event (compare_checksums w builds).
Proof.
  assert (Hopen : ∀ path, is_file_event (EvOpen path))
    by (intros path; exists path; by left).
  assert (Hsize : ∀ path, is_file_event (EvGetSize path))
    by (intros path; exists path; by right).
  unfold compare_checksums.
  apply emits_for_each; [solve_appends|]. intros build_path tables.
  assert (Hdir : ∀ name t,
    emits_only is_file_event
      (process_output_dir w build_path (build_number_of build_path) name t)).
  { intros name t. unfold process_output_dir.
    destruct (path_exists w _); [|apply emits_ret].
    apply emits_for_each; [solve_appends|]. intros file_path [cs fs].
    unfold record_file, calculate_file_checksum, os_getsize.
    apply emits_bind; [solve_appends..| |].
    - apply emits_bind; [solve_appends..|by apply emits_emit|].
      intros _. destruct (file_bytes w file_path);
        [apply emits_ret|apply emits_raise].
    - intros checksum. apply emits_bind; [solve_appends..| |].
      + apply emits_bind; [solve_appends..|by apply emits_emit|].
        intros _. destruct (getsize w file_path);
          [apply emits_ret|apply emits_raise].
      + intros size. apply emits_ret. }
  unfold process_build.
  apply emits_bind; [solve_appends..|apply Hdir|intros t1].
  apply emits_bind; [solve_appends..|apply Hdir|intros t2]. apply Hdir.
Qed.

(** The collector in insertion order raises what the collector raises. *)
Lemma outcome_ordered_compare_checksums_inl w builds e :
  outcome (Ordered.compare_checksums w builds) = inl e ↔
  outcome (compare_checksums w builds) = inl e.
Proof.
  rewrite outcome_ordered_compare_checksums.
  destruct (outcome (Ordered.compare_checksums w builds)); cbn; naive_solver.
Qed.

(** The ways [main] can end once the command line is parsed: it returns,
    or it calls [sys.exit(1)] because the locator found nothing, or an
    [OSError] goes uncaught. *)
Lemma main_outcomes w args :
  outcome (main w (Parsed args)) = inr tt ∨
  (outcome (main w (Parsed args)) = inl (SystemExit 1) ∧
   outcome (find_builds w (resolve_dist_record w args) (arg_version args))
     = inr []) ∨
  ∃ path, outcome (main w (Parsed args)) = inl (OSError path).
Proof.
  destruct (find_builds w (resolve_dist_record w args) (arg_version args) [])
    as [tr0 [e|[|build builds]]] eqn:Hfind.
  - right. right.
    assert (outcome (main w (Parsed args)) = inl e) as ->.
    { unfold outcome, main, mbind, io_bind. cbn [parse_args].
      unfold mret at 1, io_ret at 1. by rewrite Hfind. }
    revert Hfind. unfold find_builds, os_listdir.
    destruct (path_exists w _); cbn; [|done].
    unfold mbind, io_bind. destruct (listdir w _); [done|].
    intros [= _ <-]. by eexists.
  - right. left. unfold outcome.
    rewrite (main_no_builds w args tr0 Hfind), Hfind. done.
  - destruct (main_with_builds w args tr0 build builds Hfind) as [-> _].
    destruct (outcome (Ordered.compare_checksums w (build :: builds)))
      as [e|[checksums file_sizes]] eqn:Hcollect.
    + right. right.
      apply outcome_ordered_compare_checksums_inl in Hcollect.
      destruct (oserror_compare_checksums w _ e Hcollect) as [path ->].
      by exists path.
    + destruct (generate_report_cases w
                  (Ordered.find_inconsistencies checksums file_sizes)
                  (build :: builds) (resolve_output w args))
        as [[-> _]|(path & _ & _ & _ & -> & _)]; [by left|].
      right. right. by eexists.
Qed.

(** The exit status of the program.  When [parse_args] does not return,
    [main] does nothing else: the status is 0 after the help and 2 after
    a usage error.  Once the command line is parsed, the status is 0 or 1,
    and it is 0 exactly when [main] returns. *)
Theorem main_exit_statuses w argv :
  match argv with
  | Parsed args =>
      (exit_status (outcome (main w argv)) = 0%Z ∨
       exit_status (outcome (main w argv)) = 1%Z) ∧
      (exit_status (outcome (main w argv)) = 0%Z ↔
       outcome (main w argv) = inr tt)
  | HelpExit text =>
      main w argv [] = ([EvHelp text], inl (SystemExit 0)) ∧
      exit_status (outcome (main w argv)) = 0%Z
  | UsageExit text =>
      main w argv [] = ([EvUsage text], inl (SystemExit 2)) ∧
      exit_status (outcome (main w argv)) = 2%Z
  end.
Proof.
  destruct argv as [args|text|text]; [|done..].
  destruct (main_outcomes w args) as [->|[[-> _]|[path ->]]]; cbn.
  - split; [by left|done].
  - split; [by right|]. split; intros [=].
  - split; [by right|]. split; intros [=].
Qed.

(** When the version directory exists but holds no entry whose name
    starts with [build-], the locator returns the empty list without
    printing anything, and [main] ends by [sys.exit(1)] with no output at
    all. *)
Theorem main_no_build_entries w args items :
  path_exists w (path_join (resolve_dist_record w args) (arg_version args))
    = true →
  listdir w (path_join (resolve_dist_record w args) (arg_version args))
    = Some items →
  (∀ item, item ∈ items → startswith item "build-" = false) →
  find_builds w (resolve_dist_record w args) (arg_version args) []
    = ([], inr []) ∧
  main w (Parsed args) [] = ([], inl (SystemExit 1)).
Proof.
  intros Hexists Hlist Hnone.
  assert (Hfind :
    find_builds w (resolve_dist_record w args) (arg_version args) []
    = ([], inr [])).
  { rewrite (find_builds_listing w _ _ items) by done.
    replace (List.filter (λ item, startswith item "build-") items)
      with (@nil string); [done|].
    symmetry. clear Hlist. induction items as [|item items IH]; [done|].
    cbn [List.filter]. rewrite Hnone by by left.
    apply IH. intros i Hi. apply Hnone. by right. }
  split; [done|]. by apply main_no_builds.
Qed.

(** When the version path exists but cannot be listed, [os.listdir] raises
    and nothing catches it: [main] ends with that [OSError], exit status 1,
    having printed nothing. *)
Theorem main_unlistable_version w args :
  path_exists w (path_join (resolve_dist_record w args) (arg_version args))
    = true →
  listdir w (path_join (resolve_dist_record w args) (arg_version args))
    = None →
  main w (Parsed args) []
  = ([], inl (OSError (path_join (resolve_dist_record w args)
                         (arg_version args)))) ∧
  exit_status (outcome (main w (Parsed args))) = 1%Z.
Proof.
  intros Hexists Hlist.
  assert (Hmain : main w (Parsed args) []
    = ([], inl (OSError (path_join (resolve_dist_record w args)
                           (arg_version args))))).
  { unfold main, find_builds, os_listdir, mbind, io_bind. cbn [parse_args].
    unfold mret at 1, io_ret at 1. by rewrite Hexists, Hlist. }
  split; [done|]. unfold outcome. by rewrite Hmain.
Qed.

(** The names of the build directories the locator returns are the listed
    names that start with [build-], in ascending order; these are the
    names [main] prints, and their identifiers are the names with every
    [build-] deleted. *)
Theorem find_builds_basenames w dist_record_dir version items tr :
  path_exists w (path_join dist_record_dir version) = true →
  listdir w (path_join dist_record_dir version) = Some items →
  (∀ item, item ∈ items → after_last_sep item = None) →
  ∃ builds,
    find_builds w dist_record_dir version tr = (tr, inr builds) ∧
    basename <$> builds
    = sorted (List.filter (λ item, startswith item "build-") items) ∧
    build_number_of <$> builds
    = (λ name, str_replace name "build-" "")
      <$> sorted (List.filter (λ item, startswith item "build-") items).
Proof.
  intros Hexists Hlist Hnames. eexists. split.
  { by apply find_builds_listing. }
  assert (Hbase : ∀ name,
    name ∈ sorted (List.filter (λ item, startswith item "build-") items) →
    basename (path_join (path_join dist_record_dir version) name) = name).
  { intros name Hname. apply basename_path_join, Hnames.
    rewrite elem_of_sorted in Hname.
    by apply list_elem_of_In, filter_In in Hname as [?%list_elem_of_In _]. }
  rewrite <-!list_fmap_compose. split.
  - rewrite <-(list_fmap_id (sorted _)) at 2.
    apply list_fmap_ext. intros i name Hi%list_elem_of_lookup_2.
    cbn. by apply Hbase.
  - apply list_fmap_ext. intros i name Hi%list_elem_of_lookup_2.
    cbn. unfold build_number_of. by rewrite Hbase.
Qed.

(** When a report file is asked for and cannot be opened for writing,
    [generate_report] has printed the seven lines of the summary and the
    listing of the inconsistent files in the order of the dictionary it
    was given, raises [OSError] for the file, and dumps nothing. *)
Theorem generate_report_unwritable w found builds path :
  truthy (Some path) = true →
  can_write w path = false →
  outcome (generate_report w found builds (Some path)) = inl (OSError path) ∧
  events (generate_report w found builds (Some path))
  = summary_lines (build_number_of <$> builds)
      (length (Ordered.inconsistent_files found))
      (length (Ordered.missing_files found))
      (length (Ordered.size_differences found))
    ++ listing_lines (Ordered.inconsistent_files found) ∧
  Forall is_print (events (generate_report w found builds (Some path))).
Proof.
  intros Htruthy Hwrite.
  destruct (generate_report_cases w found builds (Some path))
    as [[Hout Hev]|(path' & [= <-] & _ & _ & Hout & Hev)].
  - exfalso. revert Hout. unfold generate_report.
    rewrite !outcome_bind by solve_appends.
    destruct (print_summary_run (build_number_of <$> builds) found)
      as [-> _].
    destruct (print_inconsistent_run (Ordered.inconsistent_files found))
      as [-> _].
    rewrite Htruthy. unfold write_report. rewrite Hwrite.
    by rewrite outcome_bind by solve_appends.
  - split; [done|]. split; [done|]. rewrite Hev. apply Forall_app. split.
    + apply summary_lines_prints.
    + apply listing_lines_prints.
Qed.

(** An empty report file name counts as no file name: with [--output] set
    to the empty string the name is left as it is, the seven lines of the
    summary and the listing are printed, and nothing is written, whatever
    the file system allows. *)
Theorem generate_report_empty_name w args found builds :
  arg_output args = Some "" →
  resolve_output w args = Some "" ∧
  outcome (generate_report w found builds (resolve_output w args)) = inr tt ∧
  events (generate_report w found builds (resolve_output w args))
  = summary_lines (build_number_of <$> builds)
      (length (Ordered.inconsistent_files found))
      (length (Ordered.missing_files found))
      (length (Ordered.size_differences found))
    ++ listing_lines (Ordered.inconsistent_files found).
Proof.
  intros Hout. unfold resolve_output. rewrite Hout. cbn [truthy andb].
  split; [done|].
  destruct (generate_report_cases w found builds (Some ""))
    as [[-> ->]|(path & _ & [=] & _)].
  split; [done|]. cbn [report_file_events truthy]. by rewrite app_nil_r.
Qed.

Lemma print_not_dump l path doc :
  Forall is_print l → EvJsonDump path doc ∉ l.
Proof.
  intros Hl Hin. rewrite Forall_forall in Hl.
  by destruct (Hl _ Hin) as [line [=]].
Qed.

Lemma file_event_not_dump l path doc :
  Forall is_file_event l → EvJsonDump path doc ∉ l.
Proof.
  intros Hl Hin. rewrite Forall_forall in Hl.
  by destruct (Hl _ Hin) as [p [[=]|[=]]].
Qed.

(** The report file is written only by a run that succeeds: if the trace
    of [main] has a dump, then [main] returned, and the dump went to the
    file name the command line resolves to, which is not empty. *)
Theorem main_dump_only_on_success w args path doc :
  EvJsonDump path doc ∈ events (main w (Parsed args)) →
  outcome (main w (Parsed args)) = inr tt ∧
  resolve_output w args = Some path ∧
  truthy (Some path) = true.
Proof.
  destruct (find_builds w (resolve_dist_record w args) (arg_version args) [])
    as [tr0 r] eqn:Hfind.
  assert (Htr0 : Forall is_print tr0).
  { destruct (find_builds_events _ _ _ _ _ Hfind) as [->| ->];
      repeat constructor. by eexists. }
  assert (Hstop : ∀ e, r = inl e ∨ r = inr [] →
            events (main w (Parsed args)) = tr0).
  { intros e Hr. unfold events, main, mbind, io_bind. cbn [parse_args].
    unfold mret at 1, io_ret at 1. rewrite Hfind.
    by destruct Hr as [-> | ->]. }
  destruct r as [e|[|build builds]].
  - rewrite (Hstop e) by by left. intros Hin. by apply print_not_dump in Hin.
  - rewrite (Hstop (SystemExit 1)) by by right.
    intros Hin. by apply print_not_dump in Hin.
  - destruct (main_with_builds w args tr0 build builds Hfind) as [-> ->].
    rewrite !elem_of_app. intros [Hin|[Hin|[Hin|Hin]]].
    + by apply print_not_dump in Hin.
    + apply print_not_dump in Hin; [done|].
      apply prints_only_found_builds_lines.
    + apply file_event_not_dump in Hin; [done|].
      apply compare_checksums_file_events.
    + destruct (outcome (Ordered.compare_checksums w (build :: builds)))
        as [e|[checksums file_sizes]]; [by apply elem_of_nil in Hin|].
      apply elem_of_cons in Hin as [[=]|Hin].
      destruct (generate_report_cases w
                  (Ordered.find_inconsistencies checksums file_sizes)
                  (build :: builds) (resolve_output w args))
        as [[-> Hev]|(p & _ & _ & _ & _ & Hev)]; rewrite Hev in Hin.
      * rewrite !elem_of_app in Hin. destruct Hin as [Hin|[Hin|Hin]].
        -- apply print_not_dump in Hin; [done|].
           apply summary_lines_prints.
        -- apply print_not_dump in Hin; [done|].
           apply listing_lines_prints.
        -- unfold report_file_events in Hin.
           destruct (resolve_output w args) as [p|] eqn:Hres;
             [|by apply elem_of_nil in Hin].
           destruct (truthy (Some p)) eqn:Htruthy;
             [|by apply elem_of_nil in Hin].
           apply elem_of_cons in Hin as [[= -> _]|Hin]; [done|].
           by apply elem_of_cons in Hin as [[=]|Hin%elem_of_nil].
      * rewrite !elem_of_app in Hin. destruct Hin as [Hin|Hin].
        -- apply print_not_dump in Hin; [done|].
           apply summary_lines_prints.
        -- apply print_not_dump in Hin; [done|].
           apply listing_lines_prints.
Qed.

(** A run in which every visited file can be read and the report file can
    be written returns, with exit status 0.  Its trace is, in order: what
    the locator printed; the lines about the builds found; for each
    visited file, in visiting order, its opening and the reading of its
    size; the line [Finding inconsistencies...]; the seven lines of the
    summary; the listing of the inconsistent files, in the order in which
    the detector inserted them, each with its builds in the order in which
    the collector inserted them; and what is done about the report
    file. *)
Theorem main_completes w args tr0 build builds :
  find_builds w (resolve_dist_record w args) (arg_version args) []
    = (tr0, inr (build :: builds)) →
  forallb (file_ok w) (visited_files w (build :: builds)) = true →
  (∀ path, resolve_output w args = Some path → can_write w path = true) →
  ∃ checksums file_sizes,
    outcome (Ordered.compare_checksums w (build :: builds))
      = inr (checksums, file_sizes) ∧
    outcome (main w (Parsed args)) = inr tt ∧
    exit_status (outcome (main w (Parsed args))) = 0%Z ∧
    events (main w (Parsed args))
    = tr0
      ++ events (found_builds_lines (arg_version args) (build :: builds))
      ++ (visited_files w (build :: builds) ≫= file_events)
      ++ EvPrint "Finding inconsistencies..."
      :: summary_lines (build_number_of <$> build :: builds)
           (length (Ordered.inconsistent_files
                      (Ordered.find_inconsistencies checksums file_sizes)))
           (length (Ordered.missing_files
                      (Ordered.find_inconsistencies checksums file_sizes)))
           (length (Ordered.size_differences
                      (Ordered.find_inconsistencies checksums file_sizes)))
      ++ listing_lines
           (Ordered.inconsistent_files
              (Ordered.find_inconsistencies checksums file_sizes))
      ++ report_file_events (resolve_output w args)
           (report_of (build_number_of <$> build :: builds)
              (Ordered.find_inconsistencies checksums file_sizes)).
Proof.
  intros Hfind Hfiles Hwrite.
  destruct (main_with_builds w args tr0 build builds Hfind) as [Hout Hev].
  pose proof (compare_checksums_cases w (build :: builds)) as Hrun.
  rewrite Hfiles in Hrun. destruct Hrun as (tables & Hc & Hce).
  rewrite Hce in Hev.
  rewrite outcome_ordered_compare_checksums in Hc.
  destruct (outcome (Ordered.compare_checksums w (build :: builds)))
    as [e|[checksums file_sizes]]; [done|].
  exists checksums, file_sizes. split; [done|].
  destruct (generate_report_cases w
              (Ordered.find_inconsistencies checksums file_sizes)
              (build :: builds) (resolve_output w args))
    as [[Hr Hre]|(p & Hres & _ & Hno & _)].
  - rewrite Hout, Hr, Hev, Hre. done.
  - rewrite (Hwrite p Hres) in Hno. done.
Qed.

(** A run in which some visited file cannot be read ends with the
    [OSError] of such a file, exit status 1; it has printed the lines about
    the builds found and has opened or measured files, and nothing else:
    no summary is printed and no report is written. *)
Theorem main_unreadable_file w args tr0 build builds :
  find_builds w (resolve_dist_record w args) (arg_version args) []
    = (tr0, inr (build :: builds)) →
  forallb (file_ok w) (visited_files w (build :: builds)) = false →
  ∃ file_path,
    file_path ∈ visited_files w (build :: builds) ∧
    file_ok w file_path = false ∧
    outcome (main w (Parsed args)) = inl (OSError file_path) ∧
    exit_status (outcome (main w (Parsed args))) = 1%Z ∧
    events (main w (Parsed args))
    = tr0
      ++ events (found_builds_lines (arg_version args) (build :: builds))
      ++ events (compare_checksums w (build :: builds)) ∧
    Forall is_file_event (events (compare_checksums w (build :: builds))).
Proof.
  intros Hfind Hfiles.
  destruct (main_with_builds w args tr0 build builds Hfind) as [Hout Hev].
  pose proof (compare_checksums_cases w (build :: builds)) as Hrun.
  rewrite Hfiles in Hrun. destruct Hrun as (file_path & Hin & Hbad & Hc).
  apply outcome_ordered_compare_checksums_inl in Hc.
  rewrite Hc in Hout, Hev. exists file_path.
  split; [done|]. split; [done|]. rewrite Hout. split; [done|].
  split; [done|]. split; [by rewrite Hev, app_nil_r|].
  apply compare_checksums_file_events.
Qed.

End program_more.
(** ** The concrete records directory *)

Lemma find_builds_sorted_witness :
  path_exists example_world (path_join "/r" "1.0") = true ∧
  listdir example_world (path_join "/r" "1.0")
    = Some ["notes.txt"; "build-002"; "build-001"] ∧
  ∃ names,
    find_builds example_world "/r" "1.0" []
    = ([], inr (path_join (path_join "/r" "1.0") <$> names)) ∧
    Sorted String.le names ∧
    (∀ name, name ∈ names ↔
             name ∈ ["notes.txt"; "build-002"; "build-001"] ∧
             startswith name "build-" = true) ∧
    names ≡ₚ List.filter (λ item, startswith item "build-")
               ["notes.txt"; "build-002"; "build-001"] ∧
    ∀ w' items',
      path_exists w' (path_join "/r" "1.0") = true →
      listdir w' (path_join "/r" "1.0") = Some items' →
      items' ≡ₚ ["notes.txt"; "build-002"; "build-001"] →
      find_builds w' "/r" "1.0" [] = find_builds example_world "/r" "1.0" [].
Proof.
  split; [reflexivity|]. split; [reflexivity|].
  apply (find_builds_sorted example_world "/r" "1.0"
           ["notes.txt"; "build-002"; "build-001"] []); reflexivity.
Defined.

Lemma compare_checksums_same_keys_witness :
  compare_checksums example_world example_builds []
  = ([EvOpen "/r/1.0/build-001/dist-zip/app.bin";
      EvGetSize "/r/1.0/build-001/dist-zip/app.bin";
      EvOpen "/r/1.0/build-002/dist-zip/app.bin";
      EvGetSize "/r/1.0/build-002/dist-zip/app.bin"],
     inr (example_checksums, example_sizes)) ∧
  dom example_checksums = dom example_sizes ∧
  ∀ rel_path build_number,
    is_Some ((example_checksums !! rel_path) ≫= (.!! build_number)) ↔
    is_Some ((example_sizes !! rel_path) ≫= (.!! build_number)).
Proof.
  split; [vm_compute; reflexivity|].
  eapply (compare_checksums_same_keys example_world example_builds []).
  vm_compute. reflexivity.
Defined.

Lemma main_exit_status_witness :
  (find_builds example_world
     (resolve_dist_record example_world absent_arguments) "9.9" []
   = ([EvPrint "No builds found for version 9.9"], inr []) ∧
   main example_world (Parsed absent_arguments) []
   = ([EvPrint "No builds found for version 9.9"], inl (SystemExit 1)) ∧
   exit_status (outcome (main example_world (Parsed absent_arguments)))
   = 1%Z) ∧
  (find_builds example_world
     (resolve_dist_record example_world example_arguments) "1.0" []
   = ([], inr example_builds) ∧
   main example_world (Parsed example_arguments) []
   = (example_trace, inr tt) ∧
   ∃ before checksums file_sizes listed,
     outcome (compare_checksums example_world example_builds)
       = inr (checksums, file_sizes) ∧
     outcome (main example_world (Parsed example_arguments)) = inr tt ∧
     exit_status (outcome (main example_world (Parsed example_arguments)))
       = 0%Z ∧
     Ordered.keys_unique listed ∧
     Ordered.rows_unique listed ∧
     Ordered.to_table listed
     = inconsistent_files (find_inconsistencies checksums file_sizes) ∧
     events (main example_world (Parsed example_arguments))
     = before
       ++ summary_lines (build_number_of <$> example_builds)
            (size (inconsistent_files
                     (find_inconsistencies checksums file_sizes)))
            (size (missing_files
                     (find_inconsistencies checksums file_sizes)))
            (size (size_differences
                     (find_inconsistencies checksums file_sizes)))
       ++ listing_lines listed
       ++ report_file_events
            (resolve_output example_world example_arguments)
            (report_document (build_number_of <$> example_builds)
               (find_inconsistencies checksums file_sizes))).
Proof.
  assert (Habsent :
    find_builds example_world
      (resolve_dist_record example_world absent_arguments) "9.9" []
    = ([EvPrint "No builds found for version 9.9"], inr []))
    by (vm_compute; reflexivity).
  assert (Hfound :
    find_builds example_world
      (resolve_dist_record example_world example_arguments) "1.0" []
    = ([], inr example_builds))
    by (vm_compute; reflexivity).
  assert (Hrun :
    main example_world (Parsed example_arguments) []
    = (example_trace, inr tt))
    by (vm_compute; reflexivity).
  split.
  - split; [exact Habsent|].
    destruct (main_exit_status example_world absent_arguments _ _ Habsent)
      as (Hmain & Hstatus & _).
    split; [exact Hmain|exact Hstatus].
  - split; [exact Hfound|]. split; [exact Hrun|].
    apply (main_exit_status example_world example_arguments _ _ Hfound).
    intros path Herr. unfold outcome in Herr. rewrite Hrun in Herr.
    discriminate Herr.
Defined.
(** ** More runs on the concrete records directory *)

Lemma build_number_of_exact_iff_witness :
  after_last_sep "001" = None ∧
  (build_number_of (path_join "/r/1.0" ("build-" +:+ "001")) = "001" ↔
   contains "001" "build-" = false).
Proof.
  split; [reflexivity|].
  apply (build_number_of_exact_iff "/r/1.0" "001"). reflexivity.
Defined.

Lemma find_builds_basenames_witness :
  path_exists example_world_relisted (path_join "/r" "1.0") = true ∧
  listdir example_world_relisted (path_join "/r" "1.0")
    = Some ["build-001"; "notes.txt"; "build-002"] ∧
  (∀ item, item ∈ ["build-001"; "notes.txt"; "build-002"] →
           after_last_sep item = None) ∧
  ∃ builds,
    find_builds example_world_relisted "/r" "1.0" [] = ([], inr builds) ∧
    basename <$> builds
    = sorted (List.filter (λ item, startswith item "build-")
                ["build-001"; "notes.txt"; "build-002"]) ∧
    build_number_of <$> builds
    = (λ name, str_replace name "build-" "")
      <$> sorted (List.filter (λ item, startswith item "build-")
                    ["build-001"; "notes.txt"; "build-002"]).
Proof.
  assert (Hnames : ∀ item, item ∈ ["build-001"; "notes.txt"; "build-002"] →
                           after_last_sep item = None).
  { intros item Hitem. repeat (apply elem_of_cons in Hitem as [->|Hitem];
      [reflexivity|]). by apply elem_of_nil in Hitem. }
  split; [reflexivity|]. split; [reflexivity|]. split; [exact Hnames|].
  apply (find_builds_basenames example_world_relisted "/r" "1.0"
           ["build-001"; "notes.txt"; "build-002"] []);
    [reflexivity|reflexivity|exact Hnames].
Defined.

Lemma compare_checksums_entries_witness :
  compare_checksums example_world example_builds []
    = (example_collect_events, inr (example_checksums, example_sizes)) ∧
  (example_checksums !! "dist-zip/app.bin") ≫= (.!! "002")
    = Some "fc686c314491e1f68bf1899fc54b2327353c44dd1ab4ed56538ef623edd1e866" ∧
  ∃ build_path file_path content size,
    build_path ∈ example_builds ∧
    file_path ∈ build_files example_world build_path ∧
    build_number_of build_path = "002" ∧
    get_relative_path example_world file_path build_path
      = "dist-zip/app.bin" ∧
    file_bytes example_world file_path = Some content ∧
    "fc686c314491e1f68bf1899fc54b2327353c44dd1ab4ed56538ef623edd1e866"
      = checksum_of_bytes content ∧
    getsize example_world file_path = Some size ∧
    (example_sizes !! "dist-zip/app.bin") ≫= (.!! "002") = Some size.
Proof.
  assert (Hrun : compare_checksums example_world example_builds []
    = (example_collect_events, inr (example_checksums, example_sizes)))
    by (vm_compute; reflexivity).
  assert (Hentry : (example_checksums !! "dist-zip/app.bin") ≫= (.!! "002")
    = Some "fc686c314491e1f68bf1899fc54b2327353c44dd1ab4ed56538ef623edd1e866")
    by (vm_compute; reflexivity).
  split; [exact Hrun|]. split; [exact Hentry|].
  exact (compare_checksums_entries example_world example_builds [] _ _ _ _ _ _
           Hrun Hentry).
Defined.

Lemma compare_checksums_rows_nonempty_witness :
  compare_checksums example_world example_builds []
    = (example_collect_events, inr (example_checksums, example_sizes)) ∧
  (∀ rel_path row, example_checksums !! rel_path = Some row → row ≠ ∅) ∧
  (∀ rel_path row, example_sizes !! rel_path = Some row → row ≠ ∅).
Proof.
  assert (Hrun : compare_checksums example_world example_builds []
    = (example_collect_events, inr (example_checksums, example_sizes)))
    by (vm_compute; reflexivity).
  split; [exact Hrun|].
  exact (compare_checksums_rows_nonempty example_world example_builds [] _ _ _
           Hrun).
Defined.

Lemma detector_keeps_collected_sizes_witness :
  compare_checksums example_world example_builds []
    = (example_collect_events, inr (example_checksums, example_sizes)) ∧
  file_sizes_after (find_inconsistencies example_checksums example_sizes)
  = example_sizes.
Proof.
  assert (Hrun : compare_checksums example_world example_builds []
    = (example_collect_events, inr (example_checksums, example_sizes)))
    by (vm_compute; reflexivity).
  split; [exact Hrun|].
  exact (detector_keeps_collected_sizes example_world example_builds [] _ _ _
           Hrun).
Defined.

Lemma main_no_build_entries_witness :
  path_exists no_builds_world
    (path_join (resolve_dist_record no_builds_world example_arguments)
       (arg_version example_arguments)) = true ∧
  listdir no_builds_world
    (path_join (resolve_dist_record no_builds_world example_arguments)
       (arg_version example_arguments)) = Some ["notes.txt"] ∧
  (∀ item, item ∈ ["notes.txt"] → startswith item "build-" = false) ∧
  find_builds no_builds_world
    (resolve_dist_record no_builds_world example_arguments)
    (arg_version example_arguments) [] = ([], inr []) ∧
  main no_builds_world (Parsed example_arguments) []
  = ([], inl (SystemExit 1)).
Proof.
  assert (Hnone : ∀ item, item ∈ ["notes.txt"] →
                          startswith item "build-" = false).
  { intros item Hitem. apply elem_of_cons in Hitem as [->|Hitem];
      [reflexivity|]. by apply elem_of_nil in Hitem. }
  split; [reflexivity|]. split; [reflexivity|]. split; [exact Hnone|].
  apply (main_no_build_entries no_builds_world example_arguments
           ["notes.txt"]); [reflexivity|reflexivity|exact Hnone].
Defined.

Lemma main_unlistable_version_witness :
  path_exists unlistable_world
    (path_join (resolve_dist_record unlistable_world example_arguments)
       (arg_version example_arguments)) = true ∧
  listdir unlistable_world
    (path_join (resolve_dist_record unlistable_world example_arguments)
       (arg_version example_arguments)) = None ∧
  main unlistable_world (Parsed example_arguments) []
  = ([], inl (OSError
                (path_join
                   (resolve_dist_record unlistable_world example_arguments)
                   (arg_version example_arguments)))) ∧
  exit_status (outcome (main unlistable_world (Parsed example_arguments)))
  = 1%Z.
Proof.
  split; [reflexivity|]. split; [reflexivity|].
  apply (main_unlistable_version unlistable_world example_arguments);
    reflexivity.
Defined.

Lemma generate_report_unwritable_witness :
  truthy (Some "/tmp/report.json") = true ∧
  can_write readonly_world "/tmp/report.json" = false ∧
  outcome (generate_report readonly_world listing_findings listing_builds
             (Some "/tmp/report.json"))
  = inl (OSError "/tmp/report.json") ∧
  events (generate_report readonly_world listing_findings listing_builds
            (Some "/tmp/report.json"))
  = listing_report_lines ∧
  Forall is_print
    (events (generate_report readonly_world listing_findings listing_builds
               (Some "/tmp/report.json"))).
Proof.
  split; [reflexivity|]. split; [reflexivity|].
  destruct (generate_report_unwritable readonly_world listing_findings
              listing_builds "/tmp/report.json")
    as (Hout & Hev & Hprints); [reflexivity..|].
  split; [exact Hout|]. split; [|exact Hprints].
  rewrite Hev. vm_compute. reflexivity.
Defined.

Lemma generate_report_empty_name_witness :
  arg_output empty_output_arguments = Some "" ∧
  resolve_output readonly_world empty_output_arguments = Some "" ∧
  outcome (generate_report readonly_world listing_findings listing_builds
             (resolve_output readonly_world empty_output_arguments))
  = inr tt ∧
  events (generate_report readonly_world listing_findings listing_builds
            (resolve_output readonly_world empty_output_arguments))
  = listing_report_lines.
Proof.
  split; [reflexivity|].
  destruct (generate_report_empty_name readonly_world empty_output_arguments
              listing_findings listing_builds)
    as (Hres & Hout & Hev); [reflexivity|].
  split; [exact Hres|]. split; [exact Hout|].
  rewrite Hev. vm_compute. reflexivity.
Defined.

Lemma main_dump_only_on_success_witness :
  EvJsonDump "/home/user/report.json" example_document
    ∈ events (main example_world (Parsed example_arguments)) ∧
  outcome (main example_world (Parsed example_arguments)) = inr tt ∧
  resolve_output example_world example_arguments
    = Some "/home/user/report.json" ∧
  truthy (Some "/home/user/report.json") = true.
Proof.
  assert (Hdump :
    EvJsonDump "/home/user/report.json" example_document
      ∈ events (main example_world (Parsed example_arguments))).
  { apply (list_elem_of_lookup_2 _ 20). vm_compute. reflexivity. }
  split; [exact Hdump|].
  exact (main_dump_only_on_success example_world example_arguments _ _ Hdump).
Defined.

Lemma main_completes_witness :
  find_builds listing_world
    (resolve_dist_record listing_world listing_arguments)
    (arg_version listing_arguments) []
    = ([], inr ("/r/2.0/build-10" :: ["/r/2.0/build-9"])) ∧
  forallb (file_ok listing_world)
    (visited_files listing_world
       ("/r/2.0/build-10" :: ["/r/2.0/build-9"])) = true ∧
  (∀ path, resolve_output listing_world listing_arguments = Some path →
           can_write listing_world path = true) ∧
  outcome (Ordered.compare_checksums listing_world listing_builds)
    = inr (listing_checksums, listing_sizes) ∧
  Ordered.find_inconsistencies listing_checksums listing_sizes
    = listing_findings ∧
  outcome (main listing_world (Parsed listing_arguments)) = inr tt ∧
  exit_status (outcome (main listing_world (Parsed listing_arguments)))
    = 0%Z ∧
  events (main listing_world (Parsed listing_arguments)) = listing_trace.
Proof.
  assert (Hfind :
    find_builds listing_world
      (resolve_dist_record listing_world listing_arguments)
      (arg_version listing_arguments) []
    = ([], inr ("/r/2.0/build-10" :: ["/r/2.0/build-9"])))
    by (vm_compute; reflexivity).
  assert (Hfiles :
    forallb (file_ok listing_world)
      (visited_files listing_world
         ("/r/2.0/build-10" :: ["/r/2.0/build-9"])) = true)
    by (vm_compute; reflexivity).
  assert (Htables :
    outcome (Ordered.compare_checksums listing_world listing_builds)
    = inr (listing_checksums, listing_sizes))
    by (vm_compute; reflexivity).
  assert (Hfound :
    Ordered.find_inconsistencies listing_checksums listing_sizes
    = listing_findings)
    by (vm_compute; reflexivity).
  split; [exact Hfind|]. split; [exact Hfiles|]. split; [done|].
  split; [exact Htables|]. split; [exact Hfound|].
  destruct (main_completes listing_world listing_arguments _ _ _ Hfind Hfiles)
    as (checksums & file_sizes & Hc & Hout & Hstatus & Hev); [done|].
  split; [exact Hout|]. split; [exact Hstatus|].
  fold listing_builds in Hc. rewrite Htables in Hc.
  injection Hc as <- <-. rewrite Hev, Hfound.
  vm_compute. reflexivity.
Defined.

Lemma main_unreadable_file_witness :
  find_builds unreadable_world
    (resolve_dist_record unreadable_world example_arguments)
    (arg_version example_arguments) []
    = ([], inr ("/r/1.0/build-001" :: ["/r/1.0/build-002"])) ∧
  forallb (file_ok unreadable_world)
    (visited_files unreadable_world
       ("/r/1.0/build-001" :: ["/r/1.0/build-002"])) = false ∧
  ∃ file_path,
    file_ok unreadable_world file_path = false ∧
    outcome (main unreadable_world (Parsed example_arguments))
      = inl (OSError file_path) ∧
    exit_status (outcome (main unreadable_world (Parsed example_arguments)))
      = 1%Z.
Proof.
  assert (Hfind :
    find_builds unreadable_world
      (resolve_dist_record unreadable_world example_arguments)
      (arg_version example_arguments) []
    = ([], inr ("/r/1.0/build-001" :: ["/r/1.0/build-002"])))
    by (vm_compute; reflexivity).
  assert (Hfiles :
    forallb (file_ok unreadable_world)
      (visited_files unreadable_world
         ("/r/1.0/build-001" :: ["/r/1.0/build-002"])) = false)
    by (vm_compute; reflexivity).
  split; [exact Hfind|]. split; [exact Hfiles|].
  destruct (main_unreadable_file unreadable_world example_arguments _ _ _
              Hfind Hfiles)
    as (file_path & _ & Hbad & Hout & Hstatus & _).
  exists file_path. split; [exact Hbad|]. split; [exact Hout|exact Hstatus].
Defined.

